(** * Resume generator: the document mutation pipeline

    A shallow embedding of [googleDocsResumeGenerator.ts]: the five stages
    that edit a Google Docs document through [documents.get] and
    [documents.batchUpdate], and the properties the specification states
    about them.

    Conventions of the embedding.
    - A JavaScript string is a [text], a list of characters.  The alphabet
      is the code points below 256; [toUpperCase] and [trim] are the
      JavaScript functions on that alphabet.
    - An index of the Docs API is a [Z]; an optional field is an [option].
    - A stage is a function on a [World]: the remote store together with the
      trace of the batches sent and the warnings logged. *)

From Stdlib Require Import ssreflect ZArith Ascii String Lia.
From Stdlib Require DecimalString DecimalNat.
From stdpp Require Import base option list strings gmap sorting.

Set Warnings "-rewrite-rw,-notation-for-abbreviation".
Open Scope Z_scope.

(* ===================================================================== *)
(** ** Text *)
(* ===================================================================== *)

Abbreviation text := (list ascii).

(** A string literal as a [text]. *)
Definition T (s : string) : text := list_ascii_of_string s.

(** [String.prototype.toUpperCase] on one character.  The small letters,
    97 to 122 and 224 to 254 but the division sign 247, have their capital
    32 below.  The sharp s, 223, becomes two capitals.  The capitals of the
    micro sign, 181, and of the y with diaeresis, 255, lie outside the
    alphabet and are the capital of no other character: the two characters
    stand for them here, which keeps every comparison of two upper-cased
    texts as it is in the code. *)
Definition upperChar (c : ascii) : text :=
  let n := nat_of_ascii c in
  if (Nat.leb 97 n && Nat.leb n 122
      || Nat.leb 224 n && Nat.leb n 254 && negb (Nat.eqb n 247))%bool
  then [ascii_of_nat (n - 32)]
  else if Nat.eqb n 223 then T "SS"
  else [c].

Definition toUpperCase (s : text) : text := s ≫= upperChar.

(** White space of [String.prototype.trim]: TAB, LF, VT, FF, CR, the space
    and the no-break space. *)
Definition isSpace (c : ascii) : bool :=
  let n := nat_of_ascii c in
  (Nat.leb 9 n && Nat.leb n 13 || Nat.eqb n 32 || Nat.eqb n 160)%bool.

Fixpoint trimStart (s : text) : text :=
  match s with
  | c :: s' => if isSpace c then trimStart s' else s
  | [] => []
  end.

Definition trimEnd (s : text) : text := reverse (trimStart (reverse s)).

Definition trim (s : text) : text := trimEnd (trimStart s).

Definition text_eqb (a b : text) : bool := bool_decide (a = b).

(** [s.startsWith(p)]. *)
Fixpoint startsWith (p s : text) : bool :=
  match p, s with
  | [], _ => true
  | a :: p', b :: s' => bool_decide (a = b) && startsWith p' s'
  | _ :: _, [] => false
  end.

(** [s.indexOf(p)] as the number of characters before the first occurrence;
    [None] stands for -1. *)
Fixpoint indexOf (p s : text) : option nat :=
  if startsWith p s then Some 0%nat
  else match s with
       | [] => None
       | _ :: s' => S <$> indexOf p s'
       end.

(** [s.includes(p)]. *)
Definition includes (p s : text) : bool := bool_decide (is_Some (indexOf p s)).

(* ===================================================================== *)
(** ** The document snapshot returned by [documents.get] *)
(* ===================================================================== *)

(** [Schema$ParagraphElement]: [content] is [el.textRun?.content]. *)
Record ParagraphElement := mkElement {
  el_startIndex : option Z;
  content : option text
}.

(** [Schema$Paragraph]; [elements] may be missing. *)
Record Paragraph := mkParagraph {
  elements : option (list ParagraphElement)
}.

(** [Schema$StructuralElement]: a paragraph, or something else (a section
    break, a table) when [paragraph] is [None]. *)
Record StructuralElement := mkStructural {
  startIndex : option Z;
  endIndex : option Z;
  paragraph : option Paragraph
}.

(** [doc.body?.content] when present. *)
Abbreviation Content := (list StructuralElement).

(** A JavaScript string in a condition: the empty string is falsy. *)
Definition truthyText (s : text) : bool :=
  match s with [] => false | _ => true end.

(** A JavaScript number in a condition: [undefined], [null] and 0 are
    falsy. *)
Definition truthyIndex (i : option Z) : bool :=
  match i with
  | Some n => negb (n =? 0)
  | None => false
  end.

(** [item?.paragraph?.elements], the array when it is there. *)
Definition paragraphElements (item : StructuralElement)
  : option (list ParagraphElement) :=
  p ← paragraph item; elements p.

(** [getParagraphText]: the concatenation of the run contents. *)
Definition getParagraphText (item : StructuralElement) : text :=
  match paragraphElements item with
  | Some els =>
      foldl (fun acc el =>
               match content el with
               | Some c => if truthyText c then acc ++ c else acc
               | None => acc
               end) [] els
  | None => []
  end.

(** The text of a block as the stages compare it with a heading. *)
Definition normalized (item : StructuralElement) : text :=
  toUpperCase (trim (getParagraphText item)).

(* ===================================================================== *)
(** ** Edit requests *)
(* ===================================================================== *)

Inductive Request :=
| ReplaceAllText (containsText : text) (matchCase : bool) (replaceText : text)
| DeleteContentRange (rangeStart rangeEnd : Z)
| UpdateTextStyleBold (rangeStart rangeEnd : Z).

Global Instance Request_eq_dec : EqDecision Request.
Proof. solve_decision. Defined.

(* ===================================================================== *)
(** ** Sections *)
(* ===================================================================== *)

(** [RESUME_SECTIONS], in declaration order. *)
Inductive Section_ := EXPERIENCE | PROJECTS | EDUCATION | LANGUAGE_SKILLS
                      | TECHNICAL_SKILLS.

Definition heading (s : Section_) : text :=
  match s with
  | EXPERIENCE => T "EXPERIENCE"
  | PROJECTS => T "PROJECTS"
  | EDUCATION => T "EDUCATION"
  | LANGUAGE_SKILLS => T "LANGUAGE SKILLS"
  | TECHNICAL_SKILLS => T "TECHNICAL SKILLS"
  end.

Definition RESUME_SECTIONS : list Section_ :=
  [EXPERIENCE; PROJECTS; EDUCATION; LANGUAGE_SKILLS; TECHNICAL_SKILLS].

(** [getAllHeadings]. *)
Definition getAllHeadings : list text := map heading RESUME_SECTIONS.

(* ===================================================================== *)
(** ** The structured record and the flattened fields *)
(* ===================================================================== *)

Record ExperienceEntry := mkExperience {
  company : text; companyLocation : text; exp_date : text; position : text;
  exp_points : list text
}.

Record ProjectEntry := mkProject { proj_name : text; proj_points : list text }.

Record EducationEntry := mkEducation {
  institution : text; degree : text; edu_date : text
}.

Record ResumeData := mkResume {
  experience : list ExperienceEntry;
  projects : list ProjectEntry;
  education : list EducationEntry;
  languageSkills : text;
  technicalSkills : text
}.

(** The [dataCheck] of each entry of [RESUME_SECTIONS]. *)
Definition dataCheck (s : Section_) (data : ResumeData) : bool :=
  match s with
  | EXPERIENCE => bool_decide (experience data ≠ [])
  | PROJECTS => bool_decide (projects data ≠ [])
  | EDUCATION => bool_decide (education data ≠ [])
  | LANGUAGE_SKILLS => bool_decide (trim (languageSkills data) ≠ [])
  | TECHNICAL_SKILLS => bool_decide (trim (technicalSkills data) ≠ [])
  end.

(** [buildHeadingsListFromData]. *)
Definition buildHeadingsListFromData (data : ResumeData) : list text :=
  map heading (filter (fun s => dataCheck s data = true) RESUME_SECTIONS).

(** [FlattenedResumeData] is a [Record<string, string>] created by the
    object literal [{}]: its own properties are a finite map, and a key that
    is not an own property is looked up on [Object.prototype]. *)
Abbreviation FlattenedResumeData := (gmap text text).

(** The property names of [Object.prototype]. *)
Definition objectPrototypeKeys : list text :=
  map T ["constructor"; "hasOwnProperty"; "isPrototypeOf";
         "propertyIsEnumerable"; "toLocaleString"; "toString"; "valueOf";
         "__proto__"; "__defineGetter__"; "__defineSetter__";
         "__lookupGetter__"; "__lookupSetter__"]%string.

(** What [data\[key\]] evaluates to. *)
Inductive JSValue :=
| VUndefined
| VString (s : text)
| VInherited.  (* a function or object found on the prototype *)

Definition getProp (data : FlattenedResumeData) (key : text) : JSValue :=
  match data !! key with
  | Some v => VString v
  | None => if bool_decide (key ∈ objectPrototypeKeys) then VInherited
            else VUndefined
  end.

(** What [data\[key\] || ""] evaluates to: a string, or the truthy function
    or object inherited from the prototype. *)
Inductive Resolved :=
| RText (s : text)
| RInherited.

Definition resolve (data : FlattenedResumeData) (key : text) : Resolved :=
  match getProp data key with
  | VUndefined => RText []
  | VString s => RText s
  | VInherited => RInherited
  end.

(** [!value]. *)
Definition isFalsy (v : Resolved) : bool :=
  match v with
  | RText s => negb (truthyText s)
  | RInherited => false
  end.

(* ===================================================================== *)
(** ** The remote store and the world of a run *)
(* ===================================================================== *)

(** The answer of [documents.get]: the call rejects, or it resolves with
    a document, of which the stages read [doc.body?.content]. *)
Inductive Read :=
| Rejects
| Resolves (body : option Content).

(** The two calls of the Docs client the stages use.  [batchUpdate] answers
    the store after the batch, or [None] when the call rejects, and then the
    store keeps its state. *)
Class Remote (Store : Type) := {
  get : Store → Read;
  batchUpdate : Store → list Request → option Store
}.

Inductive Warning :=
| WarnRemoveSection (h : text)
| WarnBoldChunk
| WarnEmptyMarkers
| WarnRemoveParagraph (s e : Z).

Inductive Event :=
| Sent (reqs : list Request)
| Rejected (reqs : list Request)
| Warn (w : Warning).

Record World (Store : Type) := mkWorld {
  store : Store;
  trace : list Event
}.
Arguments mkWorld {Store} _ _.
Arguments store {Store} _.
Arguments trace {Store} _.

(** How an [async] stage ends: it returns, or its promise rejects. *)
Inductive Outcome (Store : Type) :=
| Returned (w : World Store)
| Raised (w : World Store).
Arguments Returned {Store} _.
Arguments Raised {Store} _.

Definition log {Store} (e : Event) (w : World Store) : World Store :=
  mkWorld (store w) (trace w ++ [e]).

(** [await docs.documents.batchUpdate(...)] outside a [try]. *)
Definition send `{Remote Store} (reqs : list Request) (w : World Store)
  : Outcome Store :=
  match batchUpdate (store w) reqs with
  | Some s' => Returned (mkWorld s' (trace w ++ [Sent reqs]))
  | None => Raised (log (Rejected reqs) w)
  end.

(** [try { await batchUpdate(...) } catch (err) { logger.warn(...) }]. *)
Definition trySend `{Remote Store} (reqs : list Request) (wn : Warning)
    (w : World Store) : World Store :=
  match send reqs w with
  | Returned w' => w'
  | Raised w' => log (Warn wn) w'
  end.

(** Sequencing of stages: a rejection skips what follows. *)
Definition andThen {Store} (o : Outcome Store)
    (k : World Store → Outcome Store) : Outcome Store :=
  match o with
  | Returned w => k w
  | Raised w => Raised w
  end.

Notation "o >>> k" := (andThen o k) (at level 61, left associativity).

(** The batches a run sent or tried to send. *)
Definition batches (tr : list Event) : list (list Request) :=
  omap (fun e => match e with
                 | Sent r | Rejected r => Some r
                 | Warn _ => None
                 end) tr.

(* ===================================================================== *)
(** ** Stage 1: SectionPruner *)
(* ===================================================================== *)

(** The boundary test of the second loop of [removeSection]. *)
Definition isOtherHeading (h : text) (item : StructuralElement) : bool :=
  bool_decide (normalized item ∈ getAllHeadings)
  && negb (text_eqb (normalized item) (toUpperCase h)).

(** [startIdx]: the first block whose normalized text is the heading. *)
Definition findStartIdx (content : Content) (h : text) : option nat :=
  fst <$> list_find (fun item => normalized item = toUpperCase h) content.

(** [endIdx]: the block before the next other heading, or the last block. *)
Definition findEndIdx (content : Content) (h : text) (startIdx : nat) : nat :=
  match list_find (fun item => isOtherHeading h item = true)
                  (drop (S startIdx) content) with
  | Some (k, _) => (startIdx + k)%nat
  | None => (length content - 1)%nat
  end.

Inductive SectionPlan :=
| HeadingNotFound
| InvalidRange
| DeleteSection (startIdx endIdx : nat) (rangeStart rangeEnd : Z).

(** The part of [removeSection] between the read and the batch. *)
Definition planSection (content : Content) (h : text) : SectionPlan :=
  match findStartIdx content h with
  | None => HeadingNotFound
  | Some startIdx =>
      let endIdx := findEndIdx content h startIdx in
      match content !! startIdx, content !! endIdx with
      | Some startItem, Some endItem =>
          match startIndex startItem, endIndex endItem with
          | Some s, Some e =>
              if truthyIndex (Some s) && truthyIndex (Some e)
              then DeleteSection startIdx endIdx s e
              else InvalidRange
          | _, _ => InvalidRange
          end
      | _, _ => InvalidRange
      end
  end.

Definition removeSection `{Remote Store} (h : text) (w : World Store)
  : Outcome Store :=
  match get (store w) with
  | Rejects => Raised w
  | Resolves None => Returned w
  | Resolves (Some content) =>
      match planSection content h with
      | DeleteSection _ _ s e =>
          Returned (trySend [DeleteContentRange s e] (WarnRemoveSection h) w)
      | _ => Returned w
      end
  end.

(** [removeEmptySections]: one [removeSection] per absent section, each on
    a fresh read. *)
Definition removeEmptySections `{Remote Store} (data : ResumeData)
    (w : World Store) : Outcome Store :=
  foldl (fun o s => if dataCheck s data then o
                    else o >>> removeSection (heading s))
        (Returned w) RESUME_SECTIONS.

(* ===================================================================== *)
(** ** Stage 2: PlaceholderResolver *)
(* ===================================================================== *)

Definition isBrace (c : ascii) : bool :=
  bool_decide (c = "{"%char) || bool_decide (c = "}"%char).

(** The longest prefix of characters that are not braces, and what follows
    it: the part of the input that [\[^{}\]+] consumes. *)
Fixpoint spanNonBrace (s : text) : text * text :=
  match s with
  | c :: s' => if isBrace c then ([], s)
               else let '(r, rest) := spanNonBrace s' in (c :: r, rest)
  | [] => ([], [])
  end.

(** A match of [/{{(\[^{}\]+)}}/] that starts at the head of [s]: the whole
    token.  The class is greedy and the character after its longest run is
    a brace or the end, so no shorter run can be followed by the closing
    braces. *)
Definition placeholderAt (s : text) : option text :=
  if startsWith (T "{{") s then
    let '(name, rest) := spanNonBrace (drop 2 s) in
    if truthyText name && startsWith (T "}}") rest
    then Some (T "{{" ++ name ++ T "}}")
    else None
  else None.

(** [content.match(placeholderRegex)] with the [g] flag: every match, left
    to right, the search resuming after each one.  [skip] counts the
    characters of the current match still to pass over. *)
Fixpoint matchPlaceholders (s : text) (skip : nat) : list text :=
  match s with
  | [] => []
  | _ :: s' =>
      match skip with
      | S k => matchPlaceholders s' k
      | O => match placeholderAt s with
             | Some tok => tok :: matchPlaceholders s' (length tok - 1)
             | None => matchPlaceholders s' 0
             end
      end
  end.

(** [Set.prototype.add]: insertion order, no duplicate. *)
Definition setAdd (acc : list text) (m : text) : list text :=
  if bool_decide (m ∈ acc) then acc else acc ++ [m].

(** The text runs the scan visits, in document order. *)
Definition textRuns (doc : Content) : list text :=
  item ← doc;
  els ← option_list (paragraphElements item);
  el ← els;
  c ← option_list (content el);
  if truthyText c then [c] else [].

(** The set [placeholders] after the scan of the document. *)
Definition collectPlaceholders (doc : Content) : list text :=
  foldl (fun acc c => foldl setAdd acc (matchPlaceholders c 0))
        [] (textRuns doc).

(** [placeholder.replace(/\[{}\]/g, "").trim()]. *)
Definition keyOf (placeholder : text) : text :=
  trim (filter (fun c => isBrace c = false) placeholder).

Definition isLineTerminator (c : ascii) : bool :=
  bool_decide (c = "010"%char) || bool_decide (c = "013"%char).

(** From just after an opening pair of stars: the shortest run of characters
    other than line terminators that is followed by a closing pair, as the
    lazy [(.*?)\*\*] finds it.  The result is the run. *)
Fixpoint boldBody (s : text) : option text :=
  if startsWith (T "**") s then Some []
  else match s with
       | c :: s' => if isLineTerminator c then None
                    else (c ::.) <$> boldBody s'
       | [] => None
       end.

(** [value.replace(/\*\*(.*?)\*\*/g, "$1")]. *)
Fixpoint stripBoldFrom (s : text) (skip : nat) : text :=
  match s with
  | [] => []
  | c :: s' =>
      match skip with
      | S k => stripBoldFrom s' k
      | O =>
          if startsWith (T "**") s then
            match boldBody (drop 2 s) with
            | Some body => body ++ stripBoldFrom s' (length body + 3)
            | None => c :: stripBoldFrom s' 0
            end
          else c :: stripBoldFrom s' 0
      end
  end.

Definition stripBold (s : text) : text := stripBoldFrom s 0.

Definition EMPTY_LINE_TO_REMOVE : text := T "##EMPTY_LINE_TO_REMOVE##".

Definition isPointKey (key : text) : bool :=
  includes (T "experience_point_") key || includes (T "project_point_") key.

Definition isSkillsKey (key : text) : bool :=
  text_eqb key (T "technical_skills") || text_eqb key (T "language_skills").

(** A JavaScript exception. *)
Inductive Exception := TypeError.

(** The body of the loop over [placeholders]: the request pushed for one
    token, or the exception the body throws. *)
Definition placeholderRequest (data : FlattenedResumeData) (placeholder : text)
  : Exception + Request :=
  let key := keyOf placeholder in
  let value := resolve data key in
  if isPointKey key && isFalsy value then
    inr (ReplaceAllText placeholder true EMPTY_LINE_TO_REMOVE)
  else
    match value with
    | RText v =>
        if isSkillsKey key then inr (ReplaceAllText placeholder true v)
        else inr (ReplaceAllText placeholder true (stripBold v))
    | RInherited =>
        (* no skills key is a property of the prototype, so this is the last
           branch, where [value.replace] is not a function *)
        inl TypeError
    end.

(** The loop: the requests in the order of the set, unless a body throws. *)
Fixpoint placeholderRequests (data : FlattenedResumeData)
    (placeholders : list text) : Exception + list Request :=
  match placeholders with
  | [] => inr []
  | p :: ps =>
      match placeholderRequest data p with
      | inl e => inl e
      | inr r => match placeholderRequests data ps with
                 | inl e => inl e
                 | inr rs => inr (r :: rs)
                 end
      end
  end.

Definition doReplacePlaceholders `{Remote Store}
    (data : FlattenedResumeData) (w : World Store) : Outcome Store :=
  match get (store w) with
  | Rejects => Raised w
  | Resolves None => Returned w
  | Resolves (Some doc) =>
      match placeholderRequests data (collectPlaceholders doc) with
      | inl _ => Raised w
      | inr [] => Returned w
      | inr requests => send requests w
      end
  end.

(* ===================================================================== *)
(** ** Stage 3: MarkerStyler *)
(* ===================================================================== *)

(** The class [\[a-z0-9\]]. *)
Definition isIdChar (c : ascii) : bool :=
  let n := nat_of_ascii c in
  (Nat.leb 97 n && Nat.leb n 122 || Nat.leb 48 n && Nat.leb n 57)%bool.

(** The longest prefix of id characters, and what follows it. *)
Fixpoint spanId (s : text) : text * text :=
  match s with
  | c :: s' => if isIdChar c
               then let '(r, rest) := spanId s' in (c :: r, rest)
               else ([], s)
  | [] => ([], [])
  end.

Definition openMarker (id : text) : text := T "@@BOLD-" ++ id ++ T "@@".
Definition closeMarker (id : text) : text := T "@@BOLD-" ++ id ++ T "-END@@".

(** The shortest non-empty run, of any characters, that is followed by
    [close]: what the lazy [(\[^\]+?)] captures. *)
Fixpoint markerPayload (close s : text) : option text :=
  match s with
  | [] => None
  | c :: s' => if startsWith close s' then Some [c]
               else (c ::.) <$> markerPayload close s'
  end.

(** A match of [markerRegex] that starts at the head of [s]: the whole
    match and the second group.  The id is the longest run of id characters:
    after a shorter one comes an id character, not the [@@] the pattern
    asks for. *)
Definition markerAt (s : text) : option (text * text) :=
  if startsWith (T "@@BOLD-") s then
    let '(id, rest) := spanId (drop 7 s) in
    if truthyText id && startsWith (T "@@") rest then
      match markerPayload (closeMarker id) (drop 2 rest) with
      | Some boldText => Some (openMarker id ++ boldText ++ closeMarker id,
                               boldText)
      | None => None
      end
    else None
  else None.

(** [pText.match(markerRegex)]: the leftmost match. *)
Fixpoint matchMarker (s : text) : option (text * text) :=
  match markerAt s with
  | Some m => Some m
  | None => match s with
            | [] => None
            | _ :: s' => matchMarker s'
            end
  end.

(** The first paragraph, in block order, whose text has a match. *)
Fixpoint firstMarker (doc : Content) : option (text * text) :=
  match doc with
  | [] => None
  | item :: rest =>
      match matchMarker (getParagraphText item) with
      | Some m => Some m
      | None => firstMarker rest
      end
  end.

(** The positions that the loop on [c.indexOf(t, pos + t.length)] visits:
    the occurrences of [t] in [s], left to right, without overlap.  [pos] is
    the position of the head of [s]. *)
Fixpoint occurrences (t s : text) (skip pos : nat) : list nat :=
  match s with
  | [] => []
  | _ :: s' =>
      match skip with
      | S k => occurrences t s' k (S pos)
      | O => if startsWith t s
             then pos :: occurrences t s' (length t - 1) (S pos)
             else occurrences t s' 0 (S pos)
      end
  end.

(** The style requests of one text run. *)
Definition runBoldRequests (t : text) (el : ParagraphElement) : list Request :=
  match content el, el_startIndex el with
  | Some c, Some start =>
      if truthyText c then
        map (fun pos => let globalStart := start + Z.of_nat pos in
                        UpdateTextStyleBold globalStart
                          (globalStart + Z.of_nat (length t)))
            (occurrences t c 0 0)
      else []
  | _, _ => []
  end.

(** [boldRequests] after the scan of the re-read document. *)
Definition boldRequests (doc : Content) (t : text) : list Request :=
  item ← doc;
  match paragraphElements item with
  | Some els =>
      if includes t (getParagraphText item)
      then els ≫= runBoldRequests t
      else []
  | None => []
  end.

Definition BATCH_SIZE : nat := 10.

(** [boldRequests.slice(i, i + BATCH_SIZE)] for [i = 0, 10, 20, ...]. *)
Fixpoint chunksOf (fuel : nat) (l : list Request) : list (list Request) :=
  match fuel, l with
  | S fuel', _ :: _ => take BATCH_SIZE l :: chunksOf fuel' (drop BATCH_SIZE l)
  | _, _ => []
  end.

Definition chunks (l : list Request) : list (list Request) :=
  chunksOf (length l) l.

(** The [while] loop of [applyBoldMarkers].  [left] is the number of passes
    the guard [passCount < 50] still allows and [doc] the variable [doc];
    the result carries the final [passCount].  The two reads of a pass are
    awaited outside a [try]. *)
Fixpoint boldLoop `{Remote Store} (left passCount : nat)
    (doc : option Content) (w : World Store) : nat * Outcome Store :=
  match left with
  | O => (passCount, Returned w)
  | S left' =>
      let passCount := S passCount in
      match doc with
      | None => (passCount, Returned w)
      | Some content =>
          match firstMarker content with
          | None => (passCount, Returned w)
          | Some (entire, boldText) =>
              match send [ReplaceAllText entire true boldText] w with
              | Raised w1 => (passCount, Raised w1)
              | Returned w1 =>
                  match get (store w1) with
                  | Rejects => (passCount, Raised w1)
                  | Resolves None => (passCount, Returned w1)
                  | Resolves (Some content1) =>
                      if negb (truthyText (trim boldText))
                      then boldLoop left' passCount (Some content1) w1
                      else
                        match boldRequests content1 boldText with
                        | [] => boldLoop left' passCount (Some content1) w1
                        | reqs =>
                            let w2 :=
                              foldl (fun w c => trySend c WarnBoldChunk w)
                                    w1 (chunks reqs) in
                            match get (store w2) with
                            | Rejects => (passCount, Raised w2)
                            | Resolves doc2 =>
                                boldLoop left' passCount doc2 w2
                            end
                        end
                  end
              end
          end
      end
  end.

Arguments boldLoop : simpl never.

Definition PASS_CEILING : nat := 50.

Definition applyBoldMarkersPasses `{Remote Store} (w : World Store)
  : nat * Outcome Store :=
  match get (store w) with
  | Rejects => (O, Raised w)
  | Resolves None => (O, Returned w)
  | Resolves (Some content) => boldLoop PASS_CEILING 0 (Some content) w
  end.

Definition applyBoldMarkers `{Remote Store} (w : World Store)
  : Outcome Store := snd (applyBoldMarkersPasses w).

(* ===================================================================== *)
(** ** Stage 4: the marker-cleanup pass *)
(* ===================================================================== *)

Definition removeEmptyMarkers `{Remote Store} (w : World Store)
  : Outcome Store :=
  Returned (trySend [ReplaceAllText EMPTY_LINE_TO_REMOVE true []]
                    WarnEmptyMarkers w).

(* ===================================================================== *)
(** ** Stage 5: EmptyLineSweeper *)
(* ===================================================================== *)

(** The [paragraphs] array before it is sorted. *)
Definition collectParagraphs (doc : Content) : list (Z * Z) :=
  item ← doc;
  match paragraphElements item, startIndex item, endIndex item with
  | Some _, Some s, Some e => [(s, e)]
  | _, _, _ => []
  end.

(** Insertion in a list sorted by [(a, b) => b.startIndex - a.startIndex],
    before the entries that do not come strictly first. *)
Fixpoint insertDesc (p : Z * Z) (l : list (Z * Z)) : list (Z * Z) :=
  match l with
  | [] => [p]
  | q :: l' => if p.1 <? q.1 then q :: insertDesc p l' else p :: l
  end.

(** [paragraphs.sort(...)]: descending start, stable. *)
Definition sortDesc (l : list (Z * Z)) : list (Z * Z) :=
  foldr insertDesc [] l.

(** [findParagraphByRange]: the first paragraph at the least distance from
    [target]; [None] in the accumulator is the initial [Infinity]. *)
Definition findParagraphByRange (doc : Content) (target : Z)
  : option StructuralElement :=
  snd <$>
  foldl (fun best item =>
           match paragraph item, startIndex item, endIndex item with
           | Some _, Some s, Some _ =>
               let delta := Z.abs (s - target) in
               match best with
               | Some (bestDelta, _) =>
                   if delta <? bestDelta then Some (delta, item) else best
               | None => Some (delta, item)
               end
           | _, _, _ => best
           end) None doc.

(** [doc.body.content.findIndex(x => x.startIndex === paragraph.startIndex)]. *)
Definition findIndexOf (doc : Content) (par : StructuralElement) : option nat :=
  fst <$> list_find (fun x => startIndex x = startIndex par) doc.

(** [headingsList.some(h => h.toUpperCase() === t)]. *)
Definition isHeadingText (headingsList : list text) (t : text) : bool :=
  existsb (fun h => text_eqb (toUpperCase h) t) headingsList.

Definition isImmediatelyAfterHeading (doc : Content) (par : StructuralElement)
    (headingsList : list text) : bool :=
  match findIndexOf doc par with
  | Some (S i) =>
      match doc !! i with
      | Some prevItem => isHeadingText headingsList (normalized prevItem)
      | None => false
      end
  | _ => false
  end.

Definition isImmediatelyBeforeHeading (doc : Content) (par : StructuralElement)
    (headingsList : list text) : bool :=
  match findIndexOf doc par with
  | Some i =>
      if bool_decide (length doc - 1 ≤ i)%nat then false
      else match doc !! S i with
           | Some nextItem => isHeadingText headingsList (normalized nextItem)
           | None => false
           end
  | None => false
  end.

(** The test on the trimmed text of the candidate. *)
Definition isBar (t : text) : bool :=
  bool_decide (t ∈ [T "|"; T "| "; T " |"; T " | "]).

Definition isEmptyText (t : text) : bool := text_eqb t [].

(** [x ?? 0]. *)
Definition orZero (i : option Z) : Z := default 0 i.

(** One iteration of the loop on a fresh read: the paragraph to delete, if
    the iteration reaches the batch. *)
Definition sweepTarget (doc : Content) (headingsList : list text)
    (recorded : Z * Z) : option StructuralElement :=
  match findParagraphByRange doc recorded.1 with
  | None => None
  | Some m =>
      let t := trim (getParagraphText m) in
      if negb (isEmptyText t) && negb (isBar t) then None
      else if isImmediatelyAfterHeading doc m headingsList then None
      else if isImmediatelyBeforeHeading doc m headingsList then None
      else Some m
  end.

Definition deleteParagraph (m : StructuralElement) : Request :=
  DeleteContentRange (orZero (startIndex m)) (orZero (endIndex m)).

(** The loop over the recorded paragraphs; its read is awaited outside the
    [try], and the loop ends when a read has no content. *)
Fixpoint sweepLoop `{Remote Store} (headingsList : list text)
    (paragraphs : list (Z * Z)) (w : World Store) : Outcome Store :=
  match paragraphs with
  | [] => Returned w
  | p :: rest =>
      match get (store w) with
      | Rejects => Raised w
      | Resolves None => Returned w
      | Resolves (Some doc) =>
          match sweepTarget doc headingsList p with
          | Some m =>
              sweepLoop headingsList rest
                (trySend [deleteParagraph m]
                   (WarnRemoveParagraph (orZero (startIndex m))
                                        (orZero (endIndex m))) w)
          | None => sweepLoop headingsList rest w
          end
      end
  end.

Definition removeEmptyBarLinesOneByOne `{Remote Store}
    (headingsList : list text) (w : World Store) : Outcome Store :=
  match get (store w) with
  | Rejects => Raised w
  | Resolves None => Returned w
  | Resolves (Some doc) =>
      sweepLoop headingsList (sortDesc (collectParagraphs doc)) w
  end.

(* ===================================================================== *)
(** ** Stage 6: SeparatorFixer *)
(* ===================================================================== *)

(** The template literal [`${prefix}${i}`] for a one-digit [i]. *)
Definition indexedKey (prefix : string) (i : nat) : text :=
  T prefix ++ [ascii_of_nat (48 + i)].

(** [data\[key\]] for a key that is not a property name of the prototype:
    the own property, or [undefined]. *)
Definition ownField (data : FlattenedResumeData) (key : text) : option text :=
  data !! key.

(** The request of one pair, when both values are truthy. *)
Definition barRequest (data : FlattenedResumeData) (k1 k2 : text)
  : list Request :=
  match ownField data k1, ownField data k2 with
  | Some a, Some b =>
      if truthyText a && truthyText b
      then [ReplaceAllText (a ++ T " " ++ b) true (a ++ T " | " ++ b)]
      else []
  | _, _ => []
  end.

(** The pairs of fields of the two loops, in the order of the loops. *)
Definition barPairs : list (text * text) :=
  map (fun i => (indexedKey "company_" i, indexedKey "company_location_" i))
      (seq 1 5)
  ++ map (fun i => (indexedKey "institution_" i, indexedKey "degree_" i))
         (seq 1 5).

Definition barRequests (data : FlattenedResumeData) : list Request :=
  '(k1, k2) ← barPairs; barRequest data k1 k2.

Definition fixCompanyLocationBars `{Remote Store}
    (data : FlattenedResumeData) (w : World Store) : Outcome Store :=
  match barRequests data with
  | [] => Returned w
  | requests => send requests w
  end.

(* ===================================================================== *)
(** ** The pipeline *)
(* ===================================================================== *)

Definition replacePlaceholders `{Remote Store} (data : FlattenedResumeData)
    (structuredData : option ResumeData) (headingsList : option (list text))
    (w : World Store) : Outcome Store :=
  (match structuredData with
   | Some sd => removeEmptySections sd w
   | None => Returned w
   end)
  >>> doReplacePlaceholders data
  >>> applyBoldMarkers
  >>> removeEmptyMarkers
  >>> (fun w => match headingsList with
                | Some hl => removeEmptyBarLinesOneByOne hl w
                | None => Returned w
                end)
  >>> fixCompanyLocationBars data.

(* ===================================================================== *)
(** ** A reference store *)
(* ===================================================================== *)

(** The Docs service is not part of the repository.  The reference store
    below is the document of the data model of the specification: an ordered
    sequence of paragraphs over one linear buffer of styled characters, the
    body starting at index 1.  It implements the three request shapes the
    stages send: replacement of every occurrence of a literal text within a
    paragraph, deletion of an absolute range, and bold style on an absolute
    range.  It holds paragraphs only and accepts every batch. *)

Abbreviation Glyph := (ascii * bool)%type.
Abbreviation Para := (list Glyph).
Abbreviation Doc := (list Para).

Definition paraText (p : Para) : text := map fst p.

(** The text runs of a paragraph: the maximal runs of one style. *)
Fixpoint groupRuns (p : Para) : list (bool * text) :=
  match p with
  | [] => []
  | (c, b) :: p' =>
      match groupRuns p' with
      | (b', t) :: rs => if bool_decide (b = b') then (b, c :: t) :: rs
                         else (b, [c]) :: (b', t) :: rs
      | [] => [(b, [c])]
      end
  end.

Fixpoint runElements (start : Z) (runs : list (bool * text))
  : list ParagraphElement :=
  match runs with
  | [] => []
  | (_, t) :: rs =>
      mkElement (Some start) (Some t)
        :: runElements (start + Z.of_nat (length t)) rs
  end.

Fixpoint snapshotFrom (start : Z) (d : Doc) : Content :=
  match d with
  | [] => []
  | p :: d' =>
      let stop := start + Z.of_nat (length p) in
      mkStructural (Some start) (Some stop)
        (Some (mkParagraph (Some (runElements start (groupRuns p)))))
        :: snapshotFrom stop d'
  end.

Definition snapshot (d : Doc) : Content := snapshotFrom 1 d.

(** The item of a paragraph in the snapshot. *)
Definition paragraphItem (start : Z) (p : Para) : StructuralElement :=
  mkStructural (Some start) (Some (start + Z.of_nat (length p)))
    (Some (mkParagraph (Some (runElements start (groupRuns p))))).

(** Replacement of the occurrences of [m] in one paragraph, left to right
    and without overlap; the inserted text takes the style of the first
    character it replaces. *)
Fixpoint replaceIn (m r : text) (p : Para) (skip : nat) : Para :=
  match p with
  | [] => []
  | (c, b) :: p' =>
      match skip with
      | S k => replaceIn m r p' k
      | O => if startsWith m (paraText p)
             then map (fun x => (x, b)) r ++ replaceIn m r p' (length m - 1)
             else (c, b) :: replaceIn m r p' 0
      end
  end.

Definition replaceAllIn (m r : text) (p : Para) : Para :=
  if truthyText m then replaceIn m r p 0 else p.

(** Bold style on the characters of a paragraph whose index is in
    [\[s, e)]; [i] is the index of the head. *)
Fixpoint boldGlyphs (s e i : Z) (p : Para) : Para :=
  match p with
  | [] => []
  | (c, b) :: p' =>
      (c, b || (s <=? i) && (i <? e)) :: boldGlyphs s e (i + 1) p'
  end.

Fixpoint boldFrom (s e start : Z) (d : Doc) : Doc :=
  match d with
  | [] => []
  | p :: d' =>
      boldGlyphs s e start p :: boldFrom s e (start + Z.of_nat (length p)) d'
  end.

(** Deletion of the characters whose index is in [\[s, e)]. *)
Fixpoint deleteGlyphs (s e i : Z) (p : Para) : Para :=
  match p with
  | [] => []
  | g :: p' =>
      if (s <=? i) && (i <? e) then deleteGlyphs s e (i + 1) p'
      else g :: deleteGlyphs s e (i + 1) p'
  end.

(** A paragraph that loses all its characters leaves the document. *)
Fixpoint deleteFrom (s e start : Z) (d : Doc) : Doc :=
  match d with
  | [] => []
  | p :: d' =>
      let rest := deleteFrom s e (start + Z.of_nat (length p)) d' in
      match p, deleteGlyphs s e start p with
      | _ :: _, [] => rest
      | _, p1 => p1 :: rest
      end
  end.

Definition applyRequest (d : Doc) (r : Request) : Doc :=
  match r with
  | ReplaceAllText m _ t => map (replaceAllIn m t) d
  | DeleteContentRange s e => deleteFrom s e 1 d
  | UpdateTextStyleBold s e => boldFrom s e 1 d
  end.

Definition applyBatch (d : Doc) (reqs : list Request) : Doc :=
  foldl applyRequest d reqs.

Global Instance DocRemote : Remote Doc := {
  get d := Resolves (Some (snapshot d));
  batchUpdate d reqs := Some (applyBatch d reqs)
}.

(** A store that accepts [credit] batches and rejects the later ones. *)
Record Flaky := mkFlaky {
  flaky_doc : Doc;
  credit : nat
}.

Global Instance FlakyRemote : Remote Flaky := {
  get f := Resolves (Some (snapshot (flaky_doc f)));
  batchUpdate f reqs :=
    match credit f with
    | O => None
    | S n => Some (mkFlaky (applyBatch (flaky_doc f) reqs) n)
    end
}.

(** A store that answers one given snapshot, whatever is sent to it: the
    way to present a stage with a snapshot of any shape the type
    [Schema$Document] allows. *)
Record Fixed := mkFixed { fixed_content : option Content }.

Global Instance FixedRemote : Remote Fixed := {
  get f := Resolves (fixed_content f);
  batchUpdate f _ := Some f
}.

(** A store whose reads reject once [reads_after] batches were accepted. *)
Record Offline := mkOffline {
  offline_doc : Doc;
  reads_after : nat
}.

Global Instance OfflineRemote : Remote Offline := {
  get f := match reads_after f with
           | O => Rejects
           | S _ => Resolves (Some (snapshot (offline_doc f)))
           end;
  batchUpdate f reqs :=
    Some (mkOffline (applyBatch (offline_doc f) reqs) (pred (reads_after f)))
}.

(** A paragraph of plain, unstyled text. *)
Definition plain (s : string) : Para := map (fun c => (c, false)) (T s).

Definition start `{Remote Store} (s : Store) : World Store := mkWorld s [].

Definition outcomeWorld {Store} (o : Outcome Store) : World Store :=
  match o with Returned w | Raised w => w end.


(* ===================================================================== *)
(** ** Predicates of the specification *)
(* ===================================================================== *)

Definition nl : ascii := "010"%char.

(** A line of text as a paragraph of the reference store. *)
Definition line (s : string) : Para := plain s ++ [(nl, false)].

(** Block [i] belongs to the section whose heading is [P]: it is a heading
    block of [P] or one of the blocks that follow it up to the next block
    that carries another declared heading. *)
Definition inSection (doc : Content) (P : text) (i : nat) : Prop :=
  ∃ p hd, (p ≤ i)%nat ∧ doc !! p = Some hd ∧ normalized hd = toUpperCase P ∧
    ∀ j item, (p < j ≤ i)%nat → doc !! j = Some item →
              isOtherHeading P item = false.

(** The offsets of the blocks follow the block order. *)
Definition ordered (doc : Content) : Prop :=
  ∀ i j x y xe ys, (i < j)%nat → doc !! i = Some x → doc !! j = Some y →
    endIndex x = Some xe → startIndex y = Some ys → xe ≤ ys.

(** No two blocks have the same start offset. *)
Definition distinctStarts (doc : Content) : Prop :=
  ∀ i j x y, doc !! i = Some x → doc !! j = Some y →
    is_Some (startIndex x) → startIndex x = startIndex y → i = j.

(** A block that [findParagraphByRange] considers. *)
Definition locatable (item : StructuralElement) : Prop :=
  is_Some (paragraph item) ∧ is_Some (startIndex item)
  ∧ is_Some (endIndex item).

Definition distanceTo (target : Z) (item : StructuralElement) : Z :=
  Z.abs (default 0 (startIndex item) - target).

(** The candidate test of the sweeper on a block. *)
Definition blankOrBar (m : StructuralElement) : bool :=
  let t := trim (getParagraphText m) in isEmptyText t || isBar t.

(** The tests of the sweeper on a paragraph of the reference store. *)
Definition blankOrBarPara (p : Para) : bool :=
  let t := trim (paraText p) in isEmptyText t || isBar t.

Definition headingPara (headingsList : list text) (p : option Para) : bool :=
  from_option
    (fun p => isHeadingText headingsList (toUpperCase (trim (paraText p))))
    false p.

(** The sweep as the specification states it, by original document order:
    a paragraph leaves the document when it is blank or a bar and neither
    the paragraph before it nor the paragraph after it, in the document as
    it was before the sweep, is a retained heading.  [prev] is the
    paragraph before the head of [d]. *)
Fixpoint sweepSpec (headingsList : list text) (prev : option Para) (d : Doc)
  : Doc :=
  match d with
  | [] => []
  | p :: rest =>
      if blankOrBarPara p
         && negb (headingPara headingsList prev)
         && negb (headingPara headingsList (head rest))
      then sweepSpec headingsList (Some p) rest
      else p :: sweepSpec headingsList (Some p) rest
  end.

(* ===================================================================== *)
(** ** Sample documents *)
(* ===================================================================== *)

(** A resume with three sections. *)
Definition sampleResume : Doc :=
  [line "EXPERIENCE"; line "Acme"; line "PROJECTS"; line "{{project_1}}";
   line "EDUCATION"; line "MIT"].

(** A snapshot whose only block is the heading of the projects section,
    with no start offset. *)
Definition headingWithoutStart : Content :=
  [mkStructural None (Some 10)
     (Some (mkParagraph (Some [mkElement (Some 1) (Some (T "PROJECTS" ++ [nl]))])))].

(** A snapshot in which the heading of the projects section has its
    offsets and the last block of the section has the end offset 0. *)
Definition lastBlockEndZero : Content :=
  [mkStructural (Some 1) (Some 10)
     (Some (mkParagraph (Some [mkElement (Some 1) (Some (T "PROJECTS" ++ [nl]))])));
   mkStructural (Some 10) (Some 0)
     (Some (mkParagraph (Some [mkElement (Some 10) (Some (T "Compiler" ++ [nl]))])))].

(** A record without projects. *)
Definition withoutProjects : ResumeData :=
  mkResume [mkExperience (T "Acme") (T "Remote") (T "2020") (T "Engineer") []]
           []
           [mkEducation (T "MIT") (T "BSc") (T "2019")]
           (T "English") (T "Rocq").

(** Scenario D: a bar line under a retained heading, and the same line
    between two lines of text. *)
Definition barLines : Doc :=
  [line "EXPERIENCE"; line " | "; line "Acme"; line " | "; line "Remote"].

(** A snapshot in which a block that is no paragraph has the start offset
    of the blank paragraph that stands before the heading. *)
Definition sharedStart : Content :=
  [mkStructural (Some 6) (Some 6) None;
   paragraphItem 1 (line "Acme");
   paragraphItem 6 (line "");
   paragraphItem 7 (line "EDUCATION")].

(** A snapshot in which the blank paragraph between two lines of text has
    no offsets. *)
Definition blankWithoutOffsets : Content :=
  [paragraphItem 1 (line "Acme");
   mkStructural None None
     (Some (mkParagraph (Some [mkElement (Some 6) (Some [nl])])));
   paragraphItem 7 (line "Remote")].

(** A blank line before a bar line, between two lines of text. *)
Definition blankBeforeBar : Doc :=
  [line "Acme"; line ""; line "|"; line "Remote"].

(** The replacement text of the resolution policy, for a value that is a
    string: the removal marker for an empty list-bullet field, the value
    itself for a skills field, the value without its [**] pairs
    otherwise. *)
Definition replacementFor (key value : text) : text :=
  if isPointKey key && negb (truthyText value) then EMPTY_LINE_TO_REMOVE
  else if isSkillsKey key then value
  else stripBold value.

(** The string that [data\[key\] || ""] is when [key] is an own property
    or is unknown. *)
Definition fieldText (data : FlattenedResumeData) (key : text) : text :=
  default [] (data !! key).

(* ===================================================================== *)
(** ** Well-formed marker spans *)
(* ===================================================================== *)

(** The text of a whole span. *)
Definition markerText (id payload : text) : text :=
  openMarker id ++ payload ++ closeMarker id.

(** A paragraph seen as a sequence of segments: text outside the spans, the
    payload of a span whose delimiters the styler has removed, and a span
    still to process. *)
Inductive Seg :=
| Plain (t : text)
| Done (payload : text)
| Marked (id payload : text).

Definition segText (s : Seg) : text :=
  match s with
  | Plain t => t
  | Done p => p
  | Marked id p => markerText id p
  end.

Definition segsText (segs : list Seg) : text := segs ≫= segText.

Definition noAt (t : text) : Prop := Forall (fun c => c ≠ "@"%char) t.

Definition validId (id : text) : Prop :=
  id ≠ [] ∧ Forall (fun c => isIdChar c = true) id.

(** The text with which every delimiter begins. *)
Definition KEYWORD : text := T "@@BOLD-".

(** The text holds the beginning of no delimiter. *)
Definition noKeyword (t : text) : Prop := includes KEYWORD t = false.

(** The text that follows a delimiter does not turn the two [@] that end
    the delimiter, or the last of them, into the beginning of another
    one. *)
Definition cleanAfter (t : text) : Prop :=
  startsWith (T "BOLD-") t = false ∧ startsWith (T "@BOLD-") t = false.

(** A payload that the styler does style: not blank. *)
Definition styledPayload (p : text) : Prop := trim p ≠ [].

(** No occurrence of the payload begins in the text before it and runs
    into it. *)
Definition unshadowed (pre p : text) : Prop :=
  ∀ q, (q < length pre)%nat → (length pre < q + length p)%nat →
       startsWith p (drop q (pre ++ p)) = false.

(** The spans are spans of the pattern, an id of its class and a payload
    that is not empty, and what follows their delimiters is clean. *)
Fixpoint spansOK (segs : list Seg) : Prop :=
  match segs with
  | [] => True
  | Marked id p :: r =>
      validId id ∧ p ≠ [] ∧ cleanAfter p ∧ cleanAfter (segsText r)
      ∧ spansOK r
  | _ :: r => spansOK r
  end.

(** The segments once the delimiters of a span are removed. *)
Definition settle (s : Seg) : Seg :=
  match s with
  | Marked _ p => Done p
  | _ => s
  end.

(** The text of a paragraph without its delimiters. *)
Definition settledText (segs : list Seg) : text := segsText (map settle segs).

(** Well-formed segments: spans of the pattern, and no beginning of a
    delimiter in the text outside the delimiters. *)
Definition wfSegs (segs : list Seg) : Prop :=
  spansOK segs ∧ noKeyword (settledText segs).

(** The spans still to process, in document order. *)
Definition spansOf (segs : list Seg) : list (text * text) :=
  omap (fun s => match s with
                 | Marked id p => Some (id, p)
                 | _ => None
                 end) segs.

Definition docSpans (ds : list (list Seg)) : list (text * text) :=
  ds ≫= spansOf.

(** A document of well-formed spans with pairwise distinct ids. *)
Definition wfDoc (ds : list (list Seg)) : Prop :=
  Forall wfSegs ds ∧ NoDup (docSpans ds).*1.

(** The glyphs of a segment that stands after the text [pre] of its
    paragraph: the text of the segment, and bold style on a payload that
    the styler does style and that no earlier occurrence of its text
    shadows. *)
Definition glyphsOf (pre : text) (s : Seg) (g : Para) : Prop :=
  paraText g = segText s ∧
  match s with
  | Done p => styledPayload p → unshadowed pre p →
              Forall (fun x => x.2 = true) g
  | _ => True
  end.

(** The glyphs of a paragraph against its segments; the text before a
    segment is counted without the delimiters. *)
Inductive relFrom : text → list Seg → Para → Prop :=
| relFrom_nil pre : relFrom pre [] []
| relFrom_cons pre s r g1 g2 :
    glyphsOf pre s g1 → relFrom (pre ++ segText (settle s)) r g2 →
    relFrom pre (s :: r) (g1 ++ g2).

Definition relSegs (segs : list Seg) (g : Para) : Prop := relFrom [] segs g.

Definition relDoc (ds : list (list Seg)) (d : Doc) : Prop :=
  Forall2 relSegs ds d.

(** The replacements of marker spans that a run sent, in order. *)
Definition markerEdits (tr : list Event) : list (text * text) :=
  omap (fun e => match e with
                 | Sent [ReplaceAllText m _ r] => Some (m, r)
                 | _ => None
                 end) tr.

(** No match of the marker pattern starts inside [l] when [rest] follows. *)
Definition noStart (l rest : text) : Prop :=
  ∀ q, (q < length l)%nat → markerAt (drop q (l ++ rest)) = None.

(** The same text, with at least the bold style of before. *)
Definition glyphLe (g g' : Glyph) : Prop :=
  g.1 = g'.1 ∧ (g.2 = true → g'.2 = true).

Definition paraLe (p p' : Para) : Prop := Forall2 glyphLe p p'.

Definition docLe (d d' : Doc) : Prop := Forall2 paraLe d d'.

(** The [n] glyphs from offset [o] of paragraph [i] are bold. *)
Definition boldAt (d : Doc) (i o n : nat) : Prop :=
  ∃ g, d !! i = Some g ∧
       ∀ j, (j < n)%nat → ∃ c, g !! (o + j)%nat = Some (c, true).

(** The number of characters of a document. *)
Definition docLength (d : Doc) : nat := length (concat d).

Definition isBoldRequest (r : Request) : Prop :=
  match r with UpdateTextStyleBold _ _ => True | _ => False end.

(** The document of the segments, in plain style. *)
Definition plainDoc (ds : list (list Seg)) : Doc :=
  map (fun segs => map (fun c => (c, false)) (segsText segs)) ds.

Definition isPending (s : Seg) : Prop :=
  match s with Done _ => False | _ => True end.

(** Two lines with one span each. *)
Definition twoSpans : list (list Seg) :=
  [[Plain (T "Led "); Marked (T "a1") (T "React"); Plain (T " team" ++ [nl])];
   [Marked (T "b2") (T "AWS"); Plain [nl]]].

(** Fifty-one lines with one span each; the id of line [i] is [i + 1]
    times the letter a. *)
Definition manySpans : list (list Seg) :=
  map (fun i => [Marked (replicate (S i) "a"%char) (T "ok"); Plain [nl]])
      (seq 0 51).

(** A line with a span whose payload is blank. *)
Definition blankSpan : list (list Seg) :=
  [[Plain (T "a"); Marked (T "k") (T " "); Plain (T "b" ++ [nl])]].

(** A line in which the text before the span and the beginning of the
    payload read as the payload. *)
Definition shadowedSpan : list (list Seg) :=
  [[Plain (T "tes"); Marked (T "k") (T "test"); Plain [nl]]].

(** A line whose text holds an opening delimiter before the span. *)
Definition strayDelimiter : list (list Seg) :=
  [[Plain (T "@@BOLD-a@@x "); Marked (T "a") (T "y"); Plain [nl]]].

(** Two lines in which payloads and the text after a span begin with the
    keyword without its two [@]. *)
Definition keywordAfterDelimiter : list (list Seg) :=
  [[Marked (T "x") (T "BOLD-y"); Plain [nl]];
   [Marked (T "a") (T "ok"); Plain (T "BOLD-x");
    Marked (T "y") (T "BOLD-x-END"); Plain [nl]]].

(** Two lines with the same span. *)
Definition sameSpanTwice : list (list Seg) :=
  [[Marked (T "a1") (T "React"); Plain [nl]];
   [Marked (T "a1") (T "React"); Plain [nl]]].

(** The shape of a batch of the styler: the replacement of one span by its
    payload, or at most ten style requests. *)
Definition stylerBatch (b : list Request) : Prop :=
  (∃ m r, b = [ReplaceAllText m true r])
  ∨ (Forall isBoldRequest b ∧ (0 < length b ≤ BATCH_SIZE)%nat).


(* ===================================================================== *)
(** ** The flattening of the structured record *)
(* ===================================================================== *)

(** [data.basicInfo].  [ResumeData] of the source has this field beside the
    ones above; only [flattenStructuredData] reads it, and it is a separate
    argument here. *)
Record BasicInfo := mkBasicInfo {
  bi_name : text; bi_phone : text; bi_location : text; bi_email : text;
  bi_link : text
}.

(** A number in a template literal: its decimal digits. *)
Definition decimal (n : nat) : text :=
  list_ascii_of_string
    (DecimalString.NilEmpty.string_of_uint (Nat.to_uint n)).

(** [`${prefix}${i}`] and [`${prefix}${i}_${j}`]. *)
Definition fieldKey (prefix : string) (i : nat) : text :=
  T prefix ++ decimal i.

Definition pointKey (prefix : string) (i j : nat) : text :=
  T prefix ++ decimal i ++ T "_" ++ decimal j.

(** The assignments [flat\[key\] = value] of [flattenStructuredData], in the
    order the function makes them.  First the points of one entry: the
    [forEach] over the points, then the loop that fills up to five. *)
Definition pointAssignments (prefix : string) (idx : nat) (points : list text)
  : list (text * text) :=
  imap (fun pIdx p => (pointKey prefix idx (pIdx + 1), p)) points
  ++ map (fun j => (pointKey prefix idx j, []))
         (seq (length points + 1) (5 - length points)).

(** The loop [for (let j = 1; j <= 5; j++)] of an entry that is not there. *)
Definition emptyPoints (prefix : string) (i : nat) : list (text * text) :=
  map (fun j => (pointKey prefix i j, [])) (seq 1 5).

Definition experienceAssignments (idx : nat) (exp : ExperienceEntry)
  : list (text * text) :=
  [(fieldKey "company_" idx, company exp);
   (fieldKey "company_location_" idx, companyLocation exp);
   (fieldKey "experience_date_" idx, exp_date exp);
   (fieldKey "position_" idx, position exp)]
  ++ pointAssignments "experience_point_" idx (exp_points exp).

Definition emptyExperience (i : nat) : list (text * text) :=
  [(fieldKey "company_" i, []);
   (fieldKey "company_location_" i, []);
   (fieldKey "experience_date_" i, []);
   (fieldKey "position_" i, [])]
  ++ emptyPoints "experience_point_" i.

Definition projectAssignments (idx : nat) (proj : ProjectEntry)
  : list (text * text) :=
  [(fieldKey "project_" idx, proj_name proj)]
  ++ pointAssignments "project_point_" idx (proj_points proj).

Definition emptyProject (i : nat) : list (text * text) :=
  [(fieldKey "project_" i, [])] ++ emptyPoints "project_point_" i.

Definition educationAssignments (idx : nat) (edu : EducationEntry)
  : list (text * text) :=
  [(fieldKey "institution_" idx, institution edu);
   (fieldKey "degree_" idx, degree edu);
   (fieldKey "education_date_" idx, edu_date edu)].

Definition emptyEducation (i : nat) : list (text * text) :=
  [(fieldKey "institution_" i, []);
   (fieldKey "degree_" i, []);
   (fieldKey "education_date_" i, [])].

(** The entries [i = length + 1, ..., limit] that a fill loop visits. *)
Definition fillFrom (len limit : nat) : list nat :=
  seq (len + 1) (limit - len).

Definition flattenAssignments (basicInfo : BasicInfo) (data : ResumeData)
  : list (text * text) :=
  [(T "name", bi_name basicInfo);
   (T "phone", bi_phone basicInfo);
   (T "location", bi_location basicInfo);
   (T "email", bi_email basicInfo);
   (T "link", bi_link basicInfo)]
  ++ mjoin (imap (fun i exp => experienceAssignments (i + 1) exp)
                 (experience data))
  ++ (fillFrom (length (experience data)) 5 ≫= emptyExperience)
  ++ mjoin (imap (fun i proj => projectAssignments (i + 1) proj)
                 (projects data))
  ++ (fillFrom (length (projects data)) 3 ≫= emptyProject)
  ++ mjoin (imap (fun i edu => educationAssignments (i + 1) edu)
                 (education data))
  ++ (fillFrom (length (education data)) 5 ≫= emptyEducation)
  ++ [(T "language_skills", languageSkills data);
      (T "technical_skills", technicalSkills data)].

(** [flattenStructuredData]: the object after the assignments. *)
Definition flattenStructuredData (basicInfo : BasicInfo) (data : ResumeData)
  : FlattenedResumeData :=
  foldl (fun flat kv => <[kv.1 := kv.2]> flat) ∅
        (flattenAssignments basicInfo data).

(** A decimal digit. *)
Definition isDigit (c : ascii) : bool :=
  let n := nat_of_ascii c in (Nat.leb 48 n && Nat.leb n 57)%bool.

(** The part of a key before its first digit, and the rest. *)
Fixpoint splitAtDigit (k : text) : text * text :=
  match k with
  | c :: k' => if isDigit c then ([], k)
               else let '(a, b) := splitAtDigit k' in (c :: a, b)
  | [] => ([], [])
  end.

(** The value of field [f] of entry [i] of a list, or the empty text that
    the fill loops assign. *)
Definition fieldOr {A} (f : A → text) (l : list A) (i : nat) : text :=
  from_option f [] (l !! i).

(** The request of the fixer for one pair of values. *)
Definition separatorRequest (a b : text) : list Request :=
  if truthyText a && truthyText b
  then [ReplaceAllText (a ++ T " " ++ b) true (a ++ T " | " ++ b)]
  else [].

(* ===================================================================== *)
(** * Properties *)
(* ===================================================================== *)

(** ** Text lemmas *)

Lemma toUpperCase_heading (s : Section_) : toUpperCase (heading s) = heading s.
Proof. by destruct s. Qed.

Lemma heading_inj (a b : Section_) : heading a = heading b → a = b.
Proof. by destruct a, b. Qed.

Lemma heading_declared (s : Section_) : heading s ∈ getAllHeadings.
Proof. destruct s; rewrite /getAllHeadings /=; set_solver. Qed.

Lemma text_eqb_eq (a b : text) : text_eqb a b = true ↔ a = b.
Proof. rewrite /text_eqb. by rewrite bool_decide_eq_true. Qed.

Lemma trimStart_head (s : text) c r : trimStart s = c :: r → isSpace c = false.
Proof.
  induction s as [|a s IH]; simpl; first done.
  destruct (isSpace a) eqn:Ha; first done.
  intros [= -> _]. done.
Qed.

Lemma trimStart_nonspace c r : isSpace c = false → trimStart (c :: r) = c :: r.
Proof. intros H. simpl. by rewrite H. Qed.

Lemma trimStart_snoc (l : text) c :
  isSpace c = false → ∃ l', trimStart (l ++ [c]) = l' ++ [c].
Proof.
  intros Hc. induction l as [|a l IH]; simpl.
  - rewrite Hc. by exists [].
  - destruct (isSpace a); first done. by exists (a :: l).
Qed.

(** The trimmed text neither starts nor ends with white space. *)
Lemma trim_edges (s : text) :
  trim s = [] ∨
  ∃ c r, trim s = c :: r ∧ isSpace c = false
         ∧ ∃ c' r', reverse (trim s) = c' :: r' ∧ isSpace c' = false.
Proof.
  rewrite /trim /trimEnd.
  destruct (trimStart s) as [|c r] eqn:Hs; first by left.
  right. pose proof (trimStart_head _ _ _ Hs) as Hc.
  rewrite reverse_cons.
  destruct (trimStart_snoc (reverse r) c Hc) as [l' Hl'].
  rewrite Hl' reverse_app /=.
  exists c, (reverse l'). split; first done. split; first done.
  rewrite reverse_cons reverse_involutive -Hl'.
  destruct (trimStart (reverse r ++ [c])) as [|c' r'] eqn:Hr.
  { by destruct l'. }
  exists c', r'. split; first done. by eapply trimStart_head.
Qed.

(** On a trimmed text the bar test accepts the bare glyph only. *)
Lemma isBar_trim (s : text) : isBar (trim s) = true ↔ trim s = T "|".
Proof.
  rewrite /isBar bool_decide_eq_true.
  split; last by (intros ->; rewrite elem_of_cons; left).
  intros Hin. destruct (trim_edges s) as [E|(c & r & E & Hc & c' & r' & E' & Hc')].
  { rewrite E !elem_of_cons elem_of_nil in Hin.
    by destruct Hin as [H|[H|[H|[H|H]]]]. }
  rewrite !elem_of_cons in Hin.
  destruct Hin as [H|[H|[H|[H|H]]]]; first done.
  - rewrite H in E'. by injection E' as <- _.
  - rewrite H in E. by injection E as <- _.
  - rewrite H in E. by injection E as <- _.
  - by apply elem_of_nil in H.
Qed.

(* ===================================================================== *)
(** ** The snapshot of the reference store *)
(* ===================================================================== *)

Lemma groupRuns_text (p : Para) : concat (groupRuns p).*2 = paraText p.
Proof.
  induction p as [|[c b] p IH]; first done.
  simpl. destruct (groupRuns p) as [|[b' t] rs]; simpl in *.
  - by rewrite -IH.
  - case_bool_decide; simpl; by rewrite -IH.
Qed.

Lemma foldl_run_text (acc : text) start (runs : list (bool * text)) :
  foldl (fun acc el =>
           match content el with
           | Some c => if truthyText c then acc ++ c else acc
           | None => acc
           end) acc (runElements start runs)
  = acc ++ concat runs.*2.
Proof.
  revert acc start. induction runs as [|[b t] runs IH]; intros acc start.
  - by rewrite /= app_nil_r.
  - rewrite /= IH. destruct t as [|c t]; simpl; by rewrite -?app_assoc.
Qed.

Lemma paragraphItem_text start p :
  getParagraphText (paragraphItem start p) = paraText p.
Proof.
  by rewrite /getParagraphText /= foldl_run_text groupRuns_text.
Qed.

Lemma snapshotFrom_cons start p d :
  snapshotFrom start (p :: d)
  = paragraphItem start p :: snapshotFrom (start + Z.of_nat (length p)) d.
Proof. done. Qed.

Lemma snapshotFrom_app start d1 d2 :
  snapshotFrom start (d1 ++ d2)
  = snapshotFrom start d1
    ++ snapshotFrom (start + Z.of_nat (docLength d1)) d2.
Proof.
  revert start. induction d1 as [|p d1 IH]; intros start.
  - by rewrite /docLength /= Z.add_0_r.
  - rewrite -app_comm_cons !snapshotFrom_cons IH -app_comm_cons.
    replace (start + Z.of_nat (length p) + Z.of_nat (docLength d1))
      with (start + Z.of_nat (docLength (p :: d1))); first done.
    rewrite /docLength /= length_app. lia.
Qed.

Lemma snapshotFrom_length start d : length (snapshotFrom start d) = length d.
Proof.
  revert start. induction d as [|p d IH]; intros start; first done.
  by rewrite snapshotFrom_cons /= IH.
Qed.

Lemma docLength_app d1 d2 :
  docLength (d1 ++ d2) = (docLength d1 + docLength d2)%nat.
Proof. by rewrite /docLength concat_app length_app. Qed.

Lemma docLength_cons p d : docLength (p :: d) = (length p + docLength d)%nat.
Proof. by rewrite /docLength /= length_app. Qed.

(** Block [i] of the snapshot is paragraph [i] of the store, at the offset
    that the paragraphs before it fill. *)
Lemma snapshotFrom_lookup start (d : Doc) i p :
  d !! i = Some p →
  snapshotFrom start d !! i
  = Some (paragraphItem (start + Z.of_nat (docLength (take i d))) p).
Proof.
  intros Hi. rewrite -{1}(take_drop_middle d i p Hi) snapshotFrom_app.
  rewrite lookup_app_r snapshotFrom_length length_take_le;
    try (apply lookup_lt_Some in Hi; lia).
  by rewrite Nat.sub_diag snapshotFrom_cons.
Qed.

Lemma snapshotFrom_lookup_inv start (d : Doc) i m :
  snapshotFrom start d !! i = Some m →
  ∃ p, d !! i = Some p
       ∧ m = paragraphItem (start + Z.of_nat (docLength (take i d))) p.
Proof.
  intros Hm. pose proof (lookup_lt_Some _ _ _ Hm) as Hlt.
  rewrite snapshotFrom_length in Hlt.
  destruct (lookup_lt_is_Some_2 d i Hlt) as [p Hp].
  exists p. split; first done.
  rewrite (snapshotFrom_lookup start d i p Hp) in Hm. by injection Hm.
Qed.

Lemma docLength_take_lt (d : Doc) i j :
  Forall (fun p => p ≠ []) d → (i < j ≤ length d)%nat →
  (docLength (take i d) < docLength (take j d))%nat.
Proof.
  intros Hne [Hij Hj].
  rewrite -(take_drop i (take j d)) take_take Nat.min_l; first lia.
  rewrite docLength_app.
  destruct (drop i (take j d)) as [|p r] eqn:E.
  { apply (f_equal length) in E. rewrite length_drop length_take /= in E. lia. }
  assert (p ∈ d) as Hp.
  { apply (subseteq_take j), (subseteq_drop i). rewrite E. by left. }
  rewrite Forall_forall in Hne. specialize (Hne p Hp).
  rewrite docLength_cons. destruct p; [done|simpl; lia].
Qed.

(** Paragraphs that hold at least one character start at distinct
    offsets. *)
Lemma snapshot_distinctStarts start (d : Doc) :
  Forall (fun p => p ≠ []) d → distinctStarts (snapshotFrom start d).
Proof.
  intros Hne i j x y Hi Hj _ E.
  destruct (snapshotFrom_lookup_inv _ _ _ _ Hi) as (p & Hp & ->).
  destruct (snapshotFrom_lookup_inv _ _ _ _ Hj) as (q & Hq & ->).
  simpl in E. injection E as E.
  apply lookup_lt_Some in Hp, Hq.
  destruct (Nat.lt_trichotomy i j) as [Hlt|[->|Hlt]]; [|done|].
  - pose proof (docLength_take_lt d i j Hne). lia.
  - pose proof (docLength_take_lt d j i Hne). lia.
Qed.

(* ===================================================================== *)
(** ** Deletion in the reference store *)
(* ===================================================================== *)

Lemma deleteGlyphs_outside s e i (p : Para) :
  i + Z.of_nat (length p) ≤ s ∨ e ≤ i → deleteGlyphs s e i p = p.
Proof.
  revert i. induction p as [|g p IH]; intros i Hout; first done.
  cbn [deleteGlyphs length] in *.
  assert ((s <=? i) && (i <? e) = false) as ->.
  { apply andb_false_iff. rewrite Z.leb_gt Z.ltb_ge. lia. }
  rewrite IH; [lia|done].
Qed.

Lemma deleteGlyphs_inside s e i (p : Para) :
  s ≤ i → i + Z.of_nat (length p) ≤ e → deleteGlyphs s e i p = [].
Proof.
  revert i. induction p as [|g p IH]; intros i Hs He; first done.
  cbn [deleteGlyphs length] in *.
  assert ((s <=? i) && (i <? e) = true) as ->.
  { apply andb_true_iff. rewrite Z.leb_le Z.ltb_lt. lia. }
  apply IH; lia.
Qed.

Lemma deleteFrom_outside s e start (d : Doc) :
  start + Z.of_nat (docLength d) ≤ s ∨ e ≤ start →
  deleteFrom s e start d = d.
Proof.
  revert start. induction d as [|p d IH]; intros start Hout; first done.
  rewrite docLength_cons in Hout. cbn [deleteFrom].
  rewrite IH; first lia.
  destruct p as [|g p]; first done.
  rewrite (deleteGlyphs_outside s e start (g :: p)); [lia|done].
Qed.

Lemma deleteFrom_inside s e start (d : Doc) :
  Forall (fun p => p ≠ []) d →
  s ≤ start → start + Z.of_nat (docLength d) ≤ e →
  deleteFrom s e start d = [].
Proof.
  revert start. induction d as [|p d IH]; intros start Hne Hs He; first done.
  apply Forall_cons in Hne as [Hp Hne].
  rewrite docLength_cons in He. cbn [deleteFrom].
  rewrite IH; [done|lia..|].
  destruct p as [|g p]; first done.
  rewrite (deleteGlyphs_inside s e start (g :: p)); [lia..|done].
Qed.

Lemma deleteFrom_app s e start (d1 d2 : Doc) :
  deleteFrom s e start (d1 ++ d2)
  = deleteFrom s e start d1
    ++ deleteFrom s e (start + Z.of_nat (docLength d1)) d2.
Proof.
  revert start. induction d1 as [|p d1 IH]; intros start.
  - by rewrite /docLength /= Z.add_0_r.
  - rewrite -app_comm_cons. cbn [deleteFrom]. rewrite IH docLength_cons.
    replace (start + Z.of_nat (length p) + Z.of_nat (docLength d1))
      with (start + Z.of_nat (length p + docLength d1)) by lia.
    by destruct p, (deleteGlyphs s e start _).
Qed.

(** The deletion of the range that a run of whole paragraphs fills removes
    these paragraphs and nothing else. *)
Lemma deleteFrom_span start (A B C : Doc) :
  Forall (fun p => p ≠ []) B →
  deleteFrom (start + Z.of_nat (docLength A))
             (start + Z.of_nat (docLength A) + Z.of_nat (docLength B))
             start (A ++ B ++ C)
  = A ++ C.
Proof.
  intros HB. rewrite !deleteFrom_app.
  rewrite deleteFrom_outside; first lia.
  rewrite deleteFrom_inside; [done|lia..|].
  rewrite deleteFrom_outside; [lia|done].
Qed.

(* ===================================================================== *)
(** ** SeparatorFixer *)
(* ===================================================================== *)

(** The keys the fixer reads are not property names of the prototype, so
    [data\[key\]] is an own property or [undefined]. *)
Lemma barPairs_own (data : FlattenedResumeData) k1 k2 :
  (k1, k2) ∈ barPairs →
  getProp data k1 = from_option VString VUndefined (ownField data k1) ∧
  getProp data k2 = from_option VString VUndefined (ownField data k2).
Proof.
  intros Hin. rewrite /getProp /ownField.
  assert ((k1 ∉ objectPrototypeKeys) ∧ (k2 ∉ objectPrototypeKeys)) as [N1 N2].
  { rewrite /barPairs /= !elem_of_cons elem_of_nil in Hin.
    destruct Hin as [H|[H|[H|[H|[H|[H|[H|[H|[H|[H|H]]]]]]]]]]; try done;
      injection H as -> ->;
      split; apply (bool_decide_unpack _); by vm_compute. }
  destruct (data !! k1), (data !! k2); simpl; by repeat case_bool_decide.
Qed.

Lemma barRequest_spec (data : FlattenedResumeData) k1 k2 r :
  r ∈ barRequest data k1 k2 ↔
  ∃ a b, data !! k1 = Some a ∧ data !! k2 = Some b ∧ a ≠ [] ∧ b ≠ [] ∧
         r = ReplaceAllText (a ++ T " " ++ b) true (a ++ T " | " ++ b).
Proof.
  rewrite /barRequest /ownField. split.
  - destruct (data !! k1) as [a|], (data !! k2) as [b|];
      rewrite ?elem_of_nil //.
    destruct a as [|x a], b as [|y b]; rewrite /= ?elem_of_nil //.
    rewrite list_elem_of_singleton. intros ->. by eexists _, _.
  - intros (a & b & -> & -> & Ha & Hb & ->).
    destruct a, b; try done. simpl. by apply list_elem_of_singleton.
Qed.

Lemma indexedKey_fieldKey (P : string) i :
  (i < 5)%nat → indexedKey P (S i) = fieldKey P (S i).
Proof.
  intros Hi. rewrite /indexedKey /fieldKey. f_equal.
  do 5 (destruct i as [|i]; first done). lia.
Qed.

Lemma barRequests_pairs (data : FlattenedResumeData) :
  barRequests data
  = (seq 0 5 ≫= fun i => barRequest data (indexedKey "company_" (S i))
                           (indexedKey "company_location_" (S i)))
    ++ (seq 0 5 ≫= fun i => barRequest data (indexedKey "institution_" (S i))
                              (indexedKey "degree_" (S i))).
Proof.
  rewrite /barRequests /barPairs.
  cbn [seq map app mbind list_bind]. by rewrite -!app_assoc !app_nil_r.
Qed.

Lemma bind_first_five {A} (f g : nat → list A) :
  (∀ i, (i < 5)%nat → f i = g i) → seq 0 5 ≫= f = seq 0 5 ≫= g.
Proof.
  intros Hfg. cbn [seq mbind list_bind].
  rewrite !Hfg; [lia..|done].
Qed.

(** The request of a pair of keys is the request for the two values, a key
    without a value counting as the empty text. *)
Lemma barRequest_separator (data : FlattenedResumeData) k1 k2 :
  barRequest data k1 k2
  = separatorRequest (fieldText data k1) (fieldText data k2).
Proof.
  rewrite /barRequest /ownField /fieldText /separatorRequest.
  destruct (data !! k1) as [a|], (data !! k2) as [b|]; simpl; try done.
  by rewrite andb_false_r.
Qed.

Lemma separatorRequest_spec (a b : text) r :
  r ∈ separatorRequest a b
  ↔ a ≠ [] ∧ b ≠ []
    ∧ r = ReplaceAllText (a ++ T " " ++ b) true (a ++ T " | " ++ b).
Proof.
  rewrite /separatorRequest.
  destruct a as [|x a], b as [|y b]; simpl;
    rewrite ?elem_of_nil ?list_elem_of_singleton;
    (split; [intros Hr; try done | by intros (Ha & Hb & Hr)]).
Qed.

(** The values of the pairs of fields that the fixer reads, in the order
    of its two loops. *)
Lemma barRequests_fields (data : FlattenedResumeData) :
  barRequests data
  = (map (fun i => (fieldText data (fieldKey "company_" i),
                    fieldText data (fieldKey "company_location_" i)))
         (seq 1 5)
     ++ map (fun i => (fieldText data (fieldKey "institution_" i),
                       fieldText data (fieldKey "degree_" i)))
            (seq 1 5))
    ≫= (fun ab => separatorRequest ab.1 ab.2).
Proof.
  rewrite barRequests_pairs bind_app. f_equal.
  - rewrite (bind_first_five _
      (fun i => separatorRequest
                  (fieldText data (fieldKey "company_" (S i)))
                  (fieldText data (fieldKey "company_location_" (S i))))).
    { intros i Hi. by rewrite barRequest_separator !indexedKey_fieldKey. }
    done.
  - rewrite (bind_first_five _
      (fun i => separatorRequest
                  (fieldText data (fieldKey "institution_" (S i)))
                  (fieldText data (fieldKey "degree_" (S i))))).
    { intros i Hi. by rewrite barRequest_separator !indexedKey_fieldKey. }
    done.
Qed.

(** The fixer is the last stage: when it has requests, a run that returns
    ends with its batch. *)
Lemma fixer_batch_last `{Remote Store} (data : FlattenedResumeData)
    sd hl (w w' : World Store) :
  barRequests data ≠ [] →
  replacePlaceholders data sd hl w = Returned w' →
  ∃ tr, trace w' = tr ++ [Sent (barRequests data)].
Proof.
  intros NE. rewrite /replacePlaceholders.
  match goal with
  | |- ?before >>> _ = _ → _ => destruct before as [w1|w1]; last done
  end.
  cbn [andThen]. rewrite /fixCompanyLocationBars.
  destruct (barRequests data) as [|r rs]; first done.
  rewrite /send. destruct (batchUpdate (store w1) (r :: rs)); last done.
  intros [= <-]. by eexists.
Qed.

(** C9.  The pairs of fields that the template prints side by side are
    company and company location, then institution and degree, of the
    entries 1 to 5.  For each pair the fixer builds the request that
    replaces the two values joined by one space with the two values joined
    by space, bar, space if and only if both values are there and not empty.
    When some pair has two values, the requests of all pairs go out as one
    batch, which is the last event of a run of the pipeline that returns;
    when every pair has an empty member, the fixer sends nothing.  On the
    fields of Scenario B the line [Acme Remote] becomes [Acme | Remote]. *)
Theorem separator_fixer_requests `{Remote Store}
    (data : FlattenedResumeData) (w : World Store) :
  let pairs :=
    map (fun i => (fieldText data (fieldKey "company_" i),
                   fieldText data (fieldKey "company_location_" i)))
        (seq 1 5)
    ++ map (fun i => (fieldText data (fieldKey "institution_" i),
                      fieldText data (fieldKey "degree_" i)))
           (seq 1 5) in
  barRequests data = pairs ≫= (fun ab => separatorRequest ab.1 ab.2)
  ∧ (∀ a b r, r ∈ separatorRequest a b
              ↔ a ≠ [] ∧ b ≠ []
                ∧ r = ReplaceAllText (a ++ T " " ++ b) true
                                     (a ++ T " | " ++ b))
  ∧ ((∀ a b, (a, b) ∈ pairs → a = [] ∨ b = []) →
     fixCompanyLocationBars data w = Returned w)
  ∧ ((∃ a b, (a, b) ∈ pairs ∧ a ≠ [] ∧ b ≠ []) →
     fixCompanyLocationBars data w = send (barRequests data) w
     ∧ batches (trace (outcomeWorld (fixCompanyLocationBars data w)))
       = batches (trace w) ++ [barRequests data]
     ∧ ∀ sd hl w', replacePlaceholders data sd hl w = Returned w' →
                   ∃ tr, trace w' = tr ++ [Sent (barRequests data)])
  ∧ (let fields : FlattenedResumeData :=
       <[T "company_1" := T "Acme"]>
         (<[T "company_location_1" := T "Remote"]> ∅) in
     barRequests fields
     = [ReplaceAllText (T "Acme Remote") true (T "Acme | Remote")]
     ∧ fixCompanyLocationBars fields (start [line "Acme Remote"])
       = Returned (mkWorld [line "Acme | Remote"]
                     [Sent [ReplaceAllText (T "Acme Remote") true
                                           (T "Acme | Remote")]])).
Proof.
  intros pairs.
  pose proof (barRequests_fields data) as Hreqs. fold pairs in Hreqs.
  split; first done. split; first by apply separatorRequest_spec.
  split; [|split].
  - intros Hempty.
    assert (barRequests data = []) as E.
    { rewrite Hreqs. clear Hreqs. revert Hempty. generalize pairs.
      intros l. induction l as [|[a b] l IH]; intros Hempty; first done.
      rewrite bind_cons IH; first by (intros ? ? ?; apply Hempty; right).
      rewrite app_nil_r /separatorRequest.
      destruct (Hempty a b) as [-> | ->]; [by left|done|].
      by rewrite andb_false_r. }
    by rewrite /fixCompanyLocationBars E.
  - intros (a & b & Hab & Ha & Hb).
    assert (barRequests data ≠ []) as NE.
    { intros E.
      assert (ReplaceAllText (a ++ T " " ++ b) true (a ++ T " | " ++ b)
              ∈ barRequests data) as Hin; last by rewrite E elem_of_nil in Hin.
      rewrite Hreqs. apply list_elem_of_bind. exists (a, b).
      split; last done. by apply separatorRequest_spec. }
    split; [|split].
    + rewrite /fixCompanyLocationBars.
      by destruct (barRequests data) as [|r rs].
    + rewrite /fixCompanyLocationBars.
      destruct (barRequests data) as [|r rs]; first done.
      rewrite /send. destruct (batchUpdate (store w) (r :: rs)); simpl;
        by rewrite /batches omap_app.
    + intros sd hl w'. by apply fixer_batch_last.
  - by vm_compute.
Qed.

(* ===================================================================== *)
(** ** SectionPruner *)
(* ===================================================================== *)

Lemma findStartIdx_spec (doc : Content) h i :
  findStartIdx doc h = Some i →
  ∃ item, doc !! i = Some item ∧ normalized item = toUpperCase h ∧
          ∀ j y, doc !! j = Some y → (j < i)%nat →
                 normalized y ≠ toUpperCase h.
Proof.
  rewrite /findStartIdx. intros Hf.
  apply fmap_Some in Hf as ([i' item] & Hf & ->).
  apply list_find_Some in Hf as (Hl & Hp & Hlt). by exists item.
Qed.

Lemma findEndIdx_spec (doc : Content) h i :
  (i < length doc)%nat →
  (i ≤ findEndIdx doc h i < length doc)%nat
  ∧ (∀ j item, (i < j ≤ findEndIdx doc h i)%nat → doc !! j = Some item →
               isOtherHeading h item = false)
  ∧ (findEndIdx doc h i = (length doc - 1)%nat
       ∧ (∀ j item, (i < j)%nat → doc !! j = Some item →
                    isOtherHeading h item = false)
     ∨ ∃ item, doc !! S (findEndIdx doc h i) = Some item
               ∧ isOtherHeading h item = true).
Proof.
  intros Hi. rewrite /findEndIdx.
  destruct (list_find _ (drop (S i) doc)) as [[k x]|] eqn:Hf.
  - apply list_find_Some in Hf as (Hl & Hp & Hlt).
    rewrite lookup_drop in Hl.
    pose proof (lookup_lt_Some _ _ _ Hl) as Hlen.
    split; first lia. split.
    + intros j item [Hj1 Hj2] Hitem.
      specialize (Hlt (j - S i)%nat item).
      rewrite lookup_drop in Hlt.
      replace (S i + (j - S i))%nat with j in Hlt by lia.
      apply not_true_is_false. apply Hlt; [done|lia].
    + right. exists x. split; last done.
      by replace (S (i + k)) with (S i + k)%nat by lia.
  - apply list_find_None in Hf. rewrite Forall_forall in Hf.
    assert (∀ j item, (i < j)%nat → doc !! j = Some item →
                      isOtherHeading h item = false) as Hno.
    { intros j item Hj Hitem. apply not_true_is_false, Hf.
      apply list_elem_of_lookup. exists (j - S i)%nat.
      rewrite lookup_drop. by replace (S i + (j - S i))%nat with j by lia. }
    split; first lia. split.
    + intros j item [Hj _]. by apply Hno.
    + by left.
Qed.

(** [removeEmptySections] runs [removeSection] for the sections whose
    presence check is false, in declaration order. *)
Lemma removeEmptySections_absent `{Remote Store} data (w : World Store) :
  removeEmptySections data w
  = foldl (fun o s => o >>> removeSection (heading s)) (Returned w)
          (filter (fun s => dataCheck s data = false) RESUME_SECTIONS).
Proof.
  rewrite /removeEmptySections. generalize (Returned w).
  induction RESUME_SECTIONS as [|s l IH]; intros o; first done.
  rewrite filter_cons /=.
  destruct (dataCheck s data) eqn:E; case_decide; try done; apply IH.
Qed.

(** A block of a section other than [a] lies outside the span that
    [removeSection] computes for [a]. *)
Lemma other_section_outside (doc : Content) (a P : Section_) startIdx i :
  findStartIdx doc (heading a) = Some startIdx →
  P ≠ a →
  inSection doc (heading P) i →
  (i < startIdx ∨ findEndIdx doc (heading a) startIdx < i)%nat.
Proof.
  intros Hs HP (p & hd & Hpi & Hp & Hhd & Hbody).
  destruct (findStartIdx_spec _ _ _ Hs) as (sItem & HsItem & HsN & _).
  pose proof (lookup_lt_Some _ _ _ HsItem) as Hlen.
  destruct (findEndIdx_spec doc (heading a) startIdx Hlen) as (_ & Hin & _).
  rewrite !toUpperCase_heading in Hhd HsN.
  destruct (decide (i < startIdx)%nat) as [|Hge]; first by left.
  destruct (decide (findEndIdx doc (heading a) startIdx < i)%nat) as [|Hle];
    first by right.
  exfalso.
  assert (heading P ≠ heading a) as Hne by (intros E; by apply heading_inj in E).
  destruct (decide (p < startIdx)%nat) as [Hlt|Hnlt].
  - (* the heading of [a] would stand inside the section of [P] *)
    specialize (Hbody startIdx sItem). rewrite /isOtherHeading in Hbody.
    rewrite HsN toUpperCase_heading in Hbody.
    rewrite (bool_decide_eq_true_2 _ (heading_declared a)) in Hbody.
    rewrite /text_eqb bool_decide_eq_false_2 in Hbody; first by auto.
    discriminate Hbody; [lia|done].
  - destruct (decide (p = startIdx)) as [->|Hneq].
    + rewrite HsItem in Hp. injection Hp as ->. by rewrite HsN in Hhd.
    + (* the heading of [P] would stand inside the span of [a] *)
      specialize (Hin p hd). rewrite /isOtherHeading in Hin.
      rewrite Hhd toUpperCase_heading in Hin.
      rewrite (bool_decide_eq_true_2 _ (heading_declared P)) in Hin.
      rewrite /text_eqb bool_decide_eq_false_2 in Hin; first done.
      discriminate Hin; [lia|done].
Qed.

Lemma section_declared (s : Section_) : s ∈ RESUME_SECTIONS.
Proof. destruct s; rewrite /RESUME_SECTIONS; set_solver. Qed.

(** What [removeSection] does once the heading block of [a] is found in
    the snapshot, on any store. *)
Lemma removeSection_found `{Remote Store} (a : Section_) (w : World Store)
    (doc : Content) startIdx :
  get (store w) = Resolves (Some doc) →
  findStartIdx doc (heading a) = Some startIdx →
  let endIdx := findEndIdx doc (heading a) startIdx in
  ∃ startItem endItem,
    doc !! startIdx = Some startItem ∧ doc !! endIdx = Some endItem
    ∧ (startIdx ≤ endIdx < length doc)%nat
    ∧ normalized startItem = heading a
    ∧ (∀ j item, (j < startIdx)%nat → doc !! j = Some item →
                 normalized item ≠ heading a)
    ∧ (∀ j item, (startIdx < j ≤ endIdx)%nat → doc !! j = Some item →
                 isOtherHeading (heading a) item = false)
    ∧ (endIdx = (length doc - 1)%nat
         ∧ (∀ j item, (startIdx < j)%nat → doc !! j = Some item →
                      isOtherHeading (heading a) item = false)
       ∨ ∃ item, doc !! S endIdx = Some item
                 ∧ isOtherHeading (heading a) item = true)
    ∧ (∀ s e, startIndex startItem = Some s → endIndex endItem = Some e →
              s ≠ 0 → e ≠ 0 →
              removeSection (heading a) w
              = Returned (trySend [DeleteContentRange s e]
                                  (WarnRemoveSection (heading a)) w)
              ∧ batches (trace (outcomeWorld (removeSection (heading a) w)))
                = batches (trace w) ++ [[DeleteContentRange s e]])
    ∧ (startIndex startItem = None ∨ startIndex startItem = Some 0
       ∨ endIndex endItem = None ∨ endIndex endItem = Some 0 →
       removeSection (heading a) w = Returned w).
Proof.
  intros Hget Hs endIdx.
  destruct (findStartIdx_spec _ _ _ Hs) as (startItem & HsItem & HsN & Hfirst).
  rewrite toUpperCase_heading in HsN.
  pose proof (lookup_lt_Some _ _ _ HsItem) as Hlen.
  destruct (findEndIdx_spec doc (heading a) startIdx Hlen)
    as (Hrange & Hin & Hend).
  destruct (lookup_lt_is_Some_2 doc endIdx (proj2 Hrange)) as [endItem HeItem].
  exists startItem, endItem.
  split; first done. split; first done. split; first done.
  split; first done. split.
  { intros j item Hj Hitem. rewrite -(toUpperCase_heading a). by eapply Hfirst. }
  split; first done. split; first done. split.
  - intros s e Hss Hee Hs0 He0.
    assert (planSection doc (heading a) = DeleteSection startIdx endIdx s e)
      as Hplan.
    { rewrite /planSection Hs HsItem HeItem Hss Hee /=.
      by rewrite (proj2 (Z.eqb_neq s 0) Hs0) (proj2 (Z.eqb_neq e 0) He0). }
    rewrite /removeSection Hget Hplan. split; first done.
    rewrite /= /trySend /send.
    destruct (batchUpdate _ _); by rewrite /= /batches ?omap_app /= ?app_nil_r.
  - intros Hmissing.
    rewrite /removeSection Hget /planSection Hs HsItem HeItem.
    destruct (startIndex startItem) as [s|], (endIndex endItem) as [e|];
      try done.
    destruct Hmissing as [?|[[= ->]|[?|[= ->]]]]; try done.
    cbn [truthyIndex]. by rewrite andb_false_r.
Qed.

(** On the reference store the blocks of the span leave the document and
    the other blocks stay as they are. *)
Lemma removeSection_reference (a : Section_) (d : Doc) tr startIdx :
  Forall (fun p => p ≠ []) d →
  findStartIdx (snapshot d) (heading a) = Some startIdx →
  let endIdx := findEndIdx (snapshot d) (heading a) startIdx in
  (startIdx ≤ endIdx < length d)%nat
  ∧ store (outcomeWorld (removeSection (heading a) (mkWorld d tr)))
    = take startIdx d ++ drop (S endIdx) d.
Proof.
  intros Hne Hs endIdx.
  destruct (@removeSection_found Doc DocRemote a (mkWorld d tr) (snapshot d)
              startIdx eq_refl Hs)
    as (startItem & endItem & HsItem & HeItem & Hrange & _ & _ & _ & _
        & Hsend & _).
  fold endIdx in HeItem, Hrange.
  rewrite /snapshot snapshotFrom_length in Hrange. split; first done.
  destruct (snapshotFrom_lookup_inv _ _ _ _ HsItem) as (ps & Hps & ->).
  destruct (snapshotFrom_lookup_inv _ _ _ _ HeItem) as (pe & Hpe & ->).
  destruct (Hsend _ _ eq_refl eq_refl) as [-> _]; [lia..|].
  rewrite /trySend /send /=.
  assert (d = take startIdx d ++ drop startIdx (take (S endIdx) d)
                ++ drop (S endIdx) d) as Hd.
  { rewrite app_assoc -{1}(take_drop (S endIdx) d). f_equal.
    rewrite -{1}(take_drop startIdx (take (S endIdx) d)).
    rewrite take_take Nat.min_l; [lia|done]. }
  pose proof (deleteFrom_span 1 (take startIdx d)
                (drop startIdx (take (S endIdx) d)) (drop (S endIdx) d))
    as Hdel.
  rewrite -Hd in Hdel.
  replace (1 + Z.of_nat (docLength (take startIdx d))
           + Z.of_nat (docLength (drop startIdx (take (S endIdx) d))))
    with (1 + Z.of_nat (docLength (take endIdx d)) + Z.of_nat (length pe))
    in Hdel.
  { apply Hdel. apply Forall_drop, Forall_take. done. }
  rewrite (take_S_r d endIdx pe Hpe).
  pose proof (docLength_app (take startIdx (take endIdx d ++ [pe]))
                (drop startIdx (take endIdx d ++ [pe]))) as Hsum.
  rewrite take_drop docLength_app in Hsum.
  rewrite -(take_S_r d endIdx pe Hpe) take_take Nat.min_l in Hsum; first lia.
  rewrite -(take_S_r d endIdx pe Hpe).
  rewrite /docLength /= app_nil_r in Hsum. rewrite /docLength. lia.
Qed.

(** C1 (amended).  The pruner runs [removeSection] for the sections whose
    presence check is false, and for no other.  Let [a] be one of them and
    its heading block be found in the snapshot.  When the heading block has
    a start offset and the last block of the span an end offset, neither
    missing nor zero, [removeSection] sends exactly one batch, made of one
    [DeleteRange] from the start of the heading block to the end of the
    last block before the next block whose normalized text is another
    declared heading, or of the last block of the document when no such
    block follows.  When one of the two offsets is missing or zero, it
    sends nothing.  Every block of a present section, heading or body, lies
    outside the span, and with offsets that follow the block order outside
    the deleted range; on the reference store the document after the stage
    is the document without the blocks of the span, so that every block of
    a present section is still there, unchanged. *)
Theorem removeSection_deletes_span (data : ResumeData) (a : Section_) :
  dataCheck a data = false →
  (∀ Store (R : Remote Store) (w : World Store),
     removeEmptySections data w
     = foldl (fun o s => o >>> removeSection (heading s)) (Returned w)
             (filter (fun s => dataCheck s data = false) RESUME_SECTIONS))
  ∧ a ∈ filter (fun s => dataCheck s data = false) RESUME_SECTIONS
  ∧ (∀ Store (R : Remote Store) (w : World Store) (doc : Content) startIdx,
       get (store w) = Resolves (Some doc) →
       findStartIdx doc (heading a) = Some startIdx →
       let endIdx := findEndIdx doc (heading a) startIdx in
       ∃ startItem endItem,
         doc !! startIdx = Some startItem ∧ doc !! endIdx = Some endItem
         ∧ (startIdx ≤ endIdx < length doc)%nat
         ∧ normalized startItem = heading a
         ∧ (∀ j item, (j < startIdx)%nat → doc !! j = Some item →
                      normalized item ≠ heading a)
         ∧ (∀ j item, (startIdx < j ≤ endIdx)%nat → doc !! j = Some item →
                      isOtherHeading (heading a) item = false)
         ∧ (endIdx = (length doc - 1)%nat
              ∧ (∀ j item, (startIdx < j)%nat → doc !! j = Some item →
                           isOtherHeading (heading a) item = false)
            ∨ ∃ item, doc !! S endIdx = Some item
                      ∧ isOtherHeading (heading a) item = true)
         ∧ (∀ s e, startIndex startItem = Some s →
                   endIndex endItem = Some e → s ≠ 0 → e ≠ 0 →
              batches (trace (outcomeWorld (removeSection (heading a) w)))
              = batches (trace w) ++ [[DeleteContentRange s e]]
              ∧ (ordered doc →
                 ∀ P i blk bs be, dataCheck P data = true →
                   inSection doc (heading P) i → doc !! i = Some blk →
                   startIndex blk = Some bs → endIndex blk = Some be →
                   be ≤ s ∨ e ≤ bs))
         ∧ (startIndex startItem = None ∨ startIndex startItem = Some 0
            ∨ endIndex endItem = None ∨ endIndex endItem = Some 0 →
            removeSection (heading a) w = Returned w)
         ∧ (∀ P i, dataCheck P data = true → inSection doc (heading P) i →
                   (i < startIdx ∨ endIdx < i)%nat))
  ∧ (∀ (d : Doc) tr startIdx,
       Forall (fun p => p ≠ []) d →
       findStartIdx (snapshot d) (heading a) = Some startIdx →
       let endIdx := findEndIdx (snapshot d) (heading a) startIdx in
       let d' := store (outcomeWorld
                          (removeSection (heading a) (mkWorld d tr))) in
       d' = take startIdx d ++ drop (S endIdx) d
       ∧ ∀ P i p, dataCheck P data = true →
           inSection (snapshot d) (heading P) i → d !! i = Some p →
           (i < startIdx)%nat ∧ d' !! i = Some p
           ∨ (endIdx < i)%nat
             ∧ d' !! (i - (endIdx - startIdx + 1))%nat = Some p).
Proof.
  intros Habsent.
  assert (∀ P, dataCheck P data = true → P ≠ a) as Hother
    by (intros P HP ->; congruence).
  split; first by (intros; apply removeEmptySections_absent).
  split.
  { apply list_elem_of_filter. split; [done|apply section_declared]. }
  split.
  - intros Store R w doc startIdx Hget Hs endIdx.
    destruct (removeSection_found a w doc startIdx Hget Hs)
      as (startItem & endItem & HsItem & HeItem & Hrange & HsN & Hfirst & Hin
          & Hend & Hsend & Hnone).
    exists startItem, endItem.
    do 7 (split; first done). split; [|split; first done].
    + intros s e Hss Hee Hs0 He0.
      split; first by apply (Hsend s e).
      intros Hord P i blk bs be HP Hsec Hblk Hbs Hbe.
      destruct (other_section_outside doc a P startIdx i Hs (Hother P HP) Hsec)
        as [Hlt|Hgt].
      * left. by eapply (Hord i startIdx).
      * right. by eapply (Hord (findEndIdx doc (heading a) startIdx) i).
    + intros P i HP Hsec. eapply other_section_outside; eauto.
  - intros d tr startIdx Hne Hs endIdx d'.
    destruct (removeSection_reference a d tr startIdx Hne Hs) as [Hrange Hd'].
    fold endIdx in Hrange, Hd'. fold d' in Hd'.
    split; first done.
    intros P i p HP Hsec Hp.
    destruct (other_section_outside (snapshot d) a P startIdx i Hs
                (Hother P HP) Hsec) as [Hlt|Hgt].
    + left. split; first done.
      rewrite Hd' lookup_app_l; first (rewrite length_take; lia).
      by rewrite lookup_take_lt.
    + right. fold endIdx in Hgt. split; first done.
      rewrite Hd' lookup_app_r length_take; first lia.
      rewrite lookup_drop -Hp. f_equal. lia.
Qed.

Lemma removeSection_deletes_span_witness :
  store (outcomeWorld (removeSection (heading PROJECTS) (start sampleResume)))
  = [line "EXPERIENCE"; line "Acme"; line "EDUCATION"; line "MIT"].
Proof.
  refine (proj1 (proj2 (proj2 (proj2
            (removeSection_deletes_span withoutProjects PROJECTS _)))
            sampleResume [] 2%nat _ _)).
  - reflexivity.
  - repeat (constructor; first done). constructor.
  - by vm_compute.
Defined.

(** C1 as stated fails at the guard of [removeSection]: the heading block
    is found, but it has no start offset, or the last block of the span has
    the end offset 0, and nothing is sent. *)
Lemma removeSection_guard_counterexample :
  (findStartIdx headingWithoutStart (heading PROJECTS) = Some 0%nat
   ∧ removeSection (heading PROJECTS)
                   (start (mkFixed (Some headingWithoutStart)))
     = Returned (start (mkFixed (Some headingWithoutStart))))
  ∧ (findStartIdx lastBlockEndZero (heading PROJECTS) = Some 0%nat
     ∧ removeSection (heading PROJECTS)
                     (start (mkFixed (Some lastBlockEndZero)))
       = Returned (start (mkFixed (Some lastBlockEndZero))))
  ∧ ¬ (∀ (data : ResumeData) (doc : Content) (a : Section_) startIdx,
         dataCheck a data = false →
         findStartIdx doc (heading a) = Some startIdx →
         ∃ s e,
           batches (trace (outcomeWorld
                             (removeSection (heading a)
                                            (start (mkFixed (Some doc))))))
           = [[DeleteContentRange s e]]).
Proof.
  split; first by vm_compute. split; first by vm_compute.
  intros Hall.
  destruct (Hall withoutProjects lastBlockEndZero PROJECTS 0%nat)
    as (s & e & Hb); [reflexivity|by vm_compute|].
  by vm_compute in Hb.
Qed.

(* ===================================================================== *)
(** ** EmptyLineSweeper *)
(* ===================================================================== *)

Lemma findParagraphByRange_spec (doc : Content) target :
  match findParagraphByRange doc target with
  | Some m => m ∈ doc ∧ locatable m
              ∧ ∀ x, x ∈ doc → locatable x →
                     distanceTo target m ≤ distanceTo target x
  | None => ∀ x, x ∈ doc → ¬ locatable x
  end.
Proof.
  rewrite /findParagraphByRange.
  set (step := fun best item => _).
  assert (∀ l,
    match foldl step None l with
    | Some (d, m) => d = distanceTo target m ∧ m ∈ l ∧ locatable m
                     ∧ ∀ x, x ∈ l → locatable x → d ≤ distanceTo target x
    | None => ∀ x, x ∈ l → ¬ locatable x
    end) as Hinv.
  { induction l as [|item l IH] using rev_ind.
    { simpl. intros x Hx. by apply elem_of_nil in Hx. }
    rewrite foldl_app /=. rewrite {1}/step.
    destruct (paragraph item) as [par|] eqn:Hpar,
             (startIndex item) as [s|] eqn:Hst,
             (endIndex item) as [e|] eqn:Hen;
      try (destruct (foldl step None l) as [[d m]|];
           [destruct IH as (Hd & Hm & Hloc & Hmin);
            split; [done|]; split; [set_solver|]; split; [done|];
            intros x [Hx|Hx%list_elem_of_singleton]%elem_of_app Hlx;
            [by apply Hmin|];
            subst x; destruct Hlx as ([? ?] & [? ?] & [? ?]); congruence
           |intros x [Hx|Hx%list_elem_of_singleton]%elem_of_app Hlx;
            [by eapply IH|];
            subst x; destruct Hlx as ([? ?] & [? ?] & [? ?]); congruence]).
    assert (locatable item) as Hitem by (rewrite /locatable Hpar Hst Hen; eauto).
    assert (distanceTo target item = Z.abs (s - target)) as Hdist
      by (by rewrite /distanceTo Hst).
    destruct (foldl step None l) as [[d m]|].
    - destruct IH as (Hd & Hm & Hloc & Hmin).
      destruct (Z.ltb_spec (Z.abs (s - target)) d) as [Hlt|Hge].
      + split; first done. split; first set_solver. split; first done.
        intros x [Hx|Hx%list_elem_of_singleton]%elem_of_app Hlx.
        * specialize (Hmin x Hx Hlx). lia.
        * subst x. lia.
      + split; first done. split; first set_solver. split; first done.
        intros x [Hx|Hx%list_elem_of_singleton]%elem_of_app Hlx.
        * by apply Hmin.
        * subst x. lia.
    - split; first done. split; first set_solver. split; first done.
      intros x [Hx|Hx%list_elem_of_singleton]%elem_of_app Hlx.
      + by destruct (IH x Hx).
      + subst x. lia. }
  specialize (Hinv doc).
  destruct (foldl step None doc) as [[d m]|]; simpl; last done.
  destruct Hinv as (-> & ? & ? & ?). done.
Qed.

(** With distinct start offsets, the paragraph recorded at offset [s] is
    the one that is located again. *)
Lemma findParagraphByRange_exact (doc : Content) i m s :
  distinctStarts doc → doc !! i = Some m → locatable m →
  startIndex m = Some s →
  findParagraphByRange doc s = Some m.
Proof.
  intros Hdist Hi Hloc Hs.
  pose proof (findParagraphByRange_spec doc s) as Hspec.
  assert (m ∈ doc) as Hm by (apply list_elem_of_lookup; eauto).
  destruct (findParagraphByRange doc s) as [m'|]; last by destruct (Hspec m).
  destruct Hspec as (Hm' & Hloc' & Hmin).
  specialize (Hmin m Hm Hloc).
  rewrite /distanceTo Hs /= in Hmin.
  destruct Hloc' as (_ & [s' Hs'] & _). rewrite Hs' /= in Hmin.
  assert (s' = s) as -> by lia.
  apply list_elem_of_lookup in Hm' as [j Hj].
  f_equal. assert (j = i) as ->; last congruence.
  eapply Hdist; eauto. congruence.
Qed.

Lemma findIndexOf_exact (doc : Content) i m :
  distinctStarts doc → doc !! i = Some m → is_Some (startIndex m) →
  findIndexOf doc m = Some i.
Proof.
  intros Hdist Hi Hs. rewrite /findIndexOf.
  assert (list_find (λ x, startIndex x = startIndex m) doc = Some (i, m)) as ->;
    last done.
  apply list_find_Some. split; first done. split; first done.
  intros j y Hj Hlt E.
  assert (i = j); last lia.
  eapply Hdist; eauto.
Qed.

Lemma after_heading_exact (doc : Content) hl i m :
  distinctStarts doc → doc !! i = Some m → is_Some (startIndex m) →
  isImmediatelyAfterHeading doc m hl
  = match i with
    | O => false
    | S j => from_option (fun prev => isHeadingText hl (normalized prev))
                         false (doc !! j)
    end.
Proof.
  intros Hd Hi Hs. rewrite /isImmediatelyAfterHeading.
  rewrite (findIndexOf_exact doc i m Hd Hi Hs).
  destruct i as [|j]; first done. by destruct (doc !! j).
Qed.

Lemma before_heading_exact (doc : Content) hl i m :
  distinctStarts doc → doc !! i = Some m → is_Some (startIndex m) →
  isImmediatelyBeforeHeading doc m hl
  = from_option (fun next => isHeadingText hl (normalized next))
                false (doc !! S i).
Proof.
  intros Hd Hi Hs. rewrite /isImmediatelyBeforeHeading.
  rewrite (findIndexOf_exact doc i m Hd Hi Hs).
  case_bool_decide as Hlen.
  - rewrite lookup_ge_None_2 //. lia.
  - by destruct (doc !! S i).
Qed.

Lemma sweepTarget_locatable (doc : Content) hl recorded m :
  sweepTarget doc hl recorded = Some m → m ∈ doc ∧ locatable m.
Proof.
  rewrite /sweepTarget.
  pose proof (findParagraphByRange_spec doc recorded.1) as Hspec.
  destruct (findParagraphByRange doc recorded.1) as [m'|]; last done.
  repeat case_match; try done. intros [= <-]. by destruct Hspec as (? & ? & _).
Qed.


(** One iteration of the loop. *)
Lemma sweepLoop_step `{Remote Store} hl p rest (w : World Store) doc :
  get (store w) = Resolves (Some doc) →
  sweepLoop hl (p :: rest) w
  = match sweepTarget doc hl p with
    | Some m =>
        sweepLoop hl rest
          (trySend [deleteParagraph m]
             (WarnRemoveParagraph (orZero (startIndex m))
                                  (orZero (endIndex m))) w)
    | None => sweepLoop hl rest w
    end.
Proof. intros Hget. by rewrite /= Hget. Qed.

(** What an iteration chooses on a snapshot with distinct start offsets. *)
Lemma sweepTarget_sound (doc : Content) hl recorded m :
  distinctStarts doc →
  sweepTarget doc hl recorded = Some m →
  ∃ i, doc !! i = Some m ∧ blankOrBar m = true
       ∧ (∀ j prev, i = S j → doc !! j = Some prev →
                    isHeadingText hl (normalized prev) = false)
       ∧ (∀ next, doc !! S i = Some next →
                  isHeadingText hl (normalized next) = false).
Proof.
  intros Hdist Ht.
  destruct (sweepTarget_locatable _ _ _ _ Ht) as (Hm & _ & Hs & _).
  apply list_elem_of_lookup in Hm as [i Hi]. exists i. split; first done.
  revert Ht. rewrite /sweepTarget.
  destruct (findParagraphByRange doc recorded.1) as [m'|]; last done.
  destruct (negb (isEmptyText _) && negb (isBar _)) eqn:Hkeep; first done.
  destruct (isImmediatelyAfterHeading doc m' hl) eqn:Haft; first done.
  destruct (isImmediatelyBeforeHeading doc m' hl) eqn:Hbef; first done.
  intros [= ->].
  rewrite (after_heading_exact doc hl i m Hdist Hi Hs) in Haft.
  rewrite (before_heading_exact doc hl i m Hdist Hi Hs) in Hbef.
  split.
  { rewrite /blankOrBar.
    destruct (isEmptyText _), (isBar _); simpl in *; done. }
  split.
  - intros j prev -> Hprev. by rewrite Hprev in Haft.
  - intros next Hnext. by rewrite Hnext in Hbef.
Qed.

Lemma sweepTarget_complete (doc : Content) hl i m s e e0 :
  distinctStarts doc →
  doc !! i = Some m → is_Some (paragraph m) →
  startIndex m = Some s → endIndex m = Some e →
  blankOrBar m = true →
  (∀ j prev, i = S j → doc !! j = Some prev →
             isHeadingText hl (normalized prev) = false) →
  (∀ next, doc !! S i = Some next →
           isHeadingText hl (normalized next) = false) →
  sweepTarget doc hl (s, e0) = Some m.
Proof.
  intros Hdist Hi Hpar Hs He Hbb Hprev Hnext.
  assert (is_Some (startIndex m)) as Hs' by (rewrite Hs; eauto).
  assert (locatable m) as Hloc by (rewrite /locatable Hs He; eauto).
  rewrite /sweepTarget /=.
  rewrite (findParagraphByRange_exact doc i m s Hdist Hi Hloc Hs).
  rewrite (after_heading_exact doc hl i m Hdist Hi Hs').
  rewrite (before_heading_exact doc hl i m Hdist Hi Hs').
  rewrite /blankOrBar in Hbb.
  assert (negb (isEmptyText (trim (getParagraphText m)))
          && negb (isBar (trim (getParagraphText m))) = false) as ->.
  { destruct (isEmptyText _), (isBar _); simpl in *; done. }
  assert (match i with
          | O => false
          | S j => from_option
                     (fun prev => isHeadingText hl (normalized prev))
                     false (doc !! j)
          end = false) as ->.
  { destruct i as [|j]; first done.
    destruct (doc !! j) as [prev|] eqn:Hj; last done.
    simpl. by eapply Hprev. }
  destruct (doc !! S i) as [next|] eqn:Hn; last done.
  simpl. by rewrite (Hnext next).
Qed.

(** *** The sweep on the reference store *)

Lemma collectParagraphs_cons start p (d : Doc) :
  collectParagraphs (snapshotFrom start (p :: d))
  = (start, start + Z.of_nat (length p))
      :: collectParagraphs (snapshotFrom (start + Z.of_nat (length p)) d).
Proof. done. Qed.

Lemma collectParagraphs_app start (d1 d2 : Doc) :
  collectParagraphs (snapshotFrom start (d1 ++ d2))
  = collectParagraphs (snapshotFrom start d1)
    ++ collectParagraphs (snapshotFrom (start + Z.of_nat (docLength d1)) d2).
Proof. by rewrite snapshotFrom_app /collectParagraphs bind_app. Qed.

Lemma collectParagraphs_from start (d : Doc) :
  Forall (fun q => start ≤ q.1) (collectParagraphs (snapshotFrom start d)).
Proof.
  revert start. induction d as [|p d IH]; intros start; first done.
  rewrite collectParagraphs_cons. constructor; first (simpl; lia).
  eapply Forall_impl; first apply IH. simpl. lia.
Qed.

Lemma insertDesc_last (x : Z * Z) (l : list (Z * Z)) :
  Forall (fun q => x.1 < q.1) l → insertDesc x l = l ++ [x].
Proof.
  induction 1 as [|q l Hq _ IH]; first done.
  simpl. rewrite (proj2 (Z.ltb_lt _ _) Hq). by rewrite IH.
Qed.

Lemma sortDesc_perm_in (l : list (Z * Z)) (P : Z * Z → Prop) :
  Forall P l → Forall P (sortDesc l).
Proof.
  induction 1 as [|x l Hx _ IH]; first done.
  simpl. revert IH. generalize (sortDesc l). intros s Hs.
  induction Hs as [|q s Hq Hs IHs]; simpl; first by constructor.
  destruct (x.1 <? q.1); repeat (constructor; try done).
Qed.

(** The paragraphs of the reference store are recorded in ascending order
    of their start offsets, so the sort reverses them. *)
Lemma sortDesc_snapshot start (d : Doc) :
  Forall (fun p => p ≠ []) d →
  sortDesc (collectParagraphs (snapshotFrom start d))
  = reverse (collectParagraphs (snapshotFrom start d)).
Proof.
  intros Hne. revert start.
  induction Hne as [|p d Hp Hne IH]; intros start; first done.
  rewrite collectParagraphs_cons reverse_cons /= -/(sortDesc _).
  rewrite insertDesc_last; last by rewrite IH.
  apply sortDesc_perm_in.
  eapply Forall_impl; first apply collectParagraphs_from.
  simpl. intros q. destruct p; [done|simpl; lia].
Qed.

Lemma sweepSpec_Forall hl prev (d : Doc) (P : Para → Prop) :
  Forall P d → Forall P (sweepSpec hl prev d).
Proof.
  intros Hd. revert prev. induction Hd as [|p d Hp _ IH]; intros prev;
    first done.
  simpl. destruct (_ && _); [apply IH|constructor; [done|apply IH]].
Qed.

(** A blank or bar paragraph is no retained heading when no retained
    heading is blank or a bar. *)
Lemma blankOrBar_no_heading hl (p : Para) :
  isHeadingText hl [] = false → isHeadingText hl (T "|") = false →
  blankOrBarPara p = true → headingPara hl (Some p) = false.
Proof.
  intros Hblank Hbar. rewrite /blankOrBarPara /headingPara /=.
  intros [He|Hb]%orb_true_iff.
  - apply text_eqb_eq in He. by rewrite He.
  - apply isBar_trim in Hb. by rewrite Hb.
Qed.

(** The paragraph that follows after the sweep of a suffix is a retained
    heading exactly when the paragraph that followed before is one. *)
Lemma sweepSpec_head hl prev (d : Doc) :
  isHeadingText hl [] = false → isHeadingText hl (T "|") = false →
  headingPara hl (head (sweepSpec hl prev d)) = headingPara hl (head d).
Proof.
  intros Hblank Hbar. revert prev.
  induction d as [|p d IH]; intros prev; first done.
  cbn [sweepSpec].
  destruct (blankOrBarPara p) eqn:Hp; last done.
  destruct (headingPara hl prev); first done.
  destruct (headingPara hl (head d)) eqn:Hnext; first done.
  cbn [andb negb head]. rewrite IH.
  symmetry. by apply blankOrBar_no_heading.
Qed.

Lemma normalized_paragraphItem start (p : Para) :
  normalized (paragraphItem start p) = toUpperCase (trim (paraText p)).
Proof. by rewrite /normalized paragraphItem_text. Qed.

(** The descending loop on the reference store: when the paragraphs from
    [k] on are swept, the iterations for the paragraphs before [k] end with
    the swept document. *)
Lemma sweepLoop_reference hl (d : Doc) k tr :
  Forall (fun p => p ≠ []) d →
  isHeadingText hl [] = false → isHeadingText hl (T "|") = false →
  (k ≤ length d)%nat →
  ∃ tr',
    sweepLoop hl (reverse (collectParagraphs (snapshot (take k d))))
      (mkWorld (take k d ++ sweepSpec hl (last (take k d)) (drop k d)) tr)
    = Returned (mkWorld (sweepSpec hl None d) tr').
Proof.
  intros Hne Hblank Hbar. revert tr.
  induction k as [|k IH]; intros tr Hk.
  { rewrite take_0 drop_0 /=. by eexists. }
  destruct (lookup_lt_is_Some_2 d k) as [p Hp]; first lia.
  rewrite (take_S_r d k p Hp) /snapshot collectParagraphs_app.
  rewrite collectParagraphs_cons reverse_app /= last_snoc.
  set (off := 1 + Z.of_nat (docLength (take k d))).
  set (S' := sweepSpec hl (Some p) (drop (S k) d)).
  set (D := (take k d ++ [p]) ++ S').
  assert (Forall (fun p => p ≠ []) D) as HD.
  { rewrite /D !Forall_app. split; [split|].
    - by apply Forall_take.
    - constructor; last done.
      rewrite Forall_forall in Hne. apply Hne, list_elem_of_lookup. eauto.
    - by apply sweepSpec_Forall, Forall_drop. }
  pose proof (snapshot_distinctStarts 1 D HD) as Hdist.
  assert (length (take k d) = k) as Hlen by (rewrite length_take; lia).
  assert (D !! k = Some p) as HDk.
  { rewrite /D -app_assoc lookup_app_r Hlen; first lia.
    by rewrite Nat.sub_diag. }
  assert (take k D = take k d) as Htake.
  { rewrite /D -app_assoc take_app_le ?Hlen; first lia.
    rewrite take_ge ?Hlen; [lia|done]. }
  pose proof (snapshotFrom_lookup 1 D k p HDk) as Hm.
  rewrite Htake -/off in Hm.
  set (m := paragraphItem off p) in *.
  assert (sweepTarget (snapshot D) hl (off, off + Z.of_nat (length p))
          = if blankOrBarPara p
               && negb (headingPara hl (last (take k d)))
               && negb (headingPara hl (head (drop (S k) d)))
            then Some m else None) as ->.
  { rewrite /sweepTarget /=.
    rewrite (findParagraphByRange_exact (snapshot D) k m off Hdist Hm);
      [by rewrite /locatable /=; eauto|done|].
    rewrite (after_heading_exact (snapshot D) hl k m Hdist Hm);
      first by (simpl; eauto).
    rewrite (before_heading_exact (snapshot D) hl k m Hdist Hm);
      first by (simpl; eauto).
    rewrite paragraphItem_text.
    assert (negb (isEmptyText (trim (paraText p)))
            && negb (isBar (trim (paraText p)))
            = negb (blankOrBarPara p)) as ->.
    { rewrite /blankOrBarPara. by destruct (isEmptyText _), (isBar _). }
    assert (match k with
            | O => false
            | S j => from_option
                       (fun prev => isHeadingText hl (normalized prev))
                       false (snapshot D !! j)
            end = headingPara hl (last (take k d))) as ->.
    { destruct k as [|j]; first done.
      destruct (lookup_lt_is_Some_2 d j) as [q Hq]; first lia.
      rewrite (take_S_r d j q Hq) last_snoc.
      assert (D !! j = Some q) as HDj.
      { rewrite -(lookup_take_lt D (S j) j); first lia.
        rewrite Htake lookup_take_lt; [lia|done]. }
      rewrite /snapshot (snapshotFrom_lookup 1 D j q HDj) /=.
      by rewrite normalized_paragraphItem. }
    assert (from_option (fun next => isHeadingText hl (normalized next))
                        false (snapshot D !! S k)
            = headingPara hl (head (drop (S k) d))) as ->.
    { rewrite -(sweepSpec_head hl (Some p) (drop (S k) d) Hblank Hbar).
      fold S'. destruct S' as [|q S''] eqn:ES.
      - rewrite lookup_ge_None_2 //.
        rewrite /snapshot snapshotFrom_length /D length_app length_app Hlen /=.
        lia.
      - assert (D !! S k = Some q) as HDq.
        { rewrite /D lookup_app_r length_app Hlen /=; first lia.
          by replace (S k - (k + 1))%nat with 0%nat by lia. }
        rewrite /snapshot (snapshotFrom_lookup 1 D (S k) q HDq) /=.
        by rewrite normalized_paragraphItem. }
    by destruct (blankOrBarPara p), (headingPara hl (last (take k d))),
                (headingPara hl (head (drop (S k) d))). }
  assert (drop k d = p :: drop (S k) d) as Hdrop
    by (by rewrite (drop_S d p k Hp)).
  destruct (blankOrBarPara p && negb (headingPara hl (last (take k d)))
            && negb (headingPara hl (head (drop (S k) d)))) eqn:Htest.
  - (* the paragraph is deleted *)
    rewrite /trySend /send /deleteParagraph /=.
    pose proof (deleteFrom_span 1 (take k d) [p] S') as Hdel.
    rewrite -/off in Hdel.
    replace (off + Z.of_nat (docLength [p])) with (off + Z.of_nat (length p))
      in Hdel by (rewrite /docLength /= app_nil_r; lia).
    rewrite /D -app_assoc Hdel.
    { constructor; last done.
      rewrite Forall_forall in Hne. apply Hne, list_elem_of_lookup. eauto. }
    destruct (IH (tr ++ [Sent [DeleteContentRange off
                                 (off + Z.of_nat (length p))]]))
      as [tr' Htr']; first lia.
    exists tr'. rewrite -Htr' Hdrop /= Htest. done.
  - destruct (IH tr) as [tr' Htr']; first lia.
    exists tr'. rewrite -Htr' Hdrop /= Htest /D -app_assoc. done.
Qed.

(** C2 (amended).  On the reference store, whose paragraphs hold at least
    their line end and so start at distinct offsets, and for a list of
    retained headings none of which is blank or a bar, the sweeper returns
    and leaves the document swept by original order: a blank or bar
    paragraph whose paragraph before or after, in the document as it was, is
    a retained heading is still there, a blank or bar paragraph with no
    retained heading beside it is gone, and every other paragraph is
    there.  On any store and any snapshot whose blocks have distinct start
    offsets, an iteration chooses for deletion only a blank or bar paragraph
    whose previous and next blocks both have a normalized text outside the
    retained headings, and a blank or bar paragraph that has its offsets and
    no retained heading before or after it is chosen when its recorded
    offset comes up, its exact range being sent for deletion. *)
Theorem sweeper_adjacency (hl : list text) (d : Doc) :
  Forall (fun p => p ≠ []) d →
  isHeadingText hl [] = false → isHeadingText hl (T "|") = false →
  (∀ tr0, ∃ tr,
     removeEmptyBarLinesOneByOne hl (mkWorld d tr0)
     = Returned (mkWorld (sweepSpec hl None d) tr))
  ∧ (∀ Store (R : Remote Store) (doc : Content),
       distinctStarts doc →
       (∀ recorded m, sweepTarget doc hl recorded = Some m →
          ∃ i, doc !! i = Some m ∧ blankOrBar m = true
               ∧ (∀ j prev, i = S j → doc !! j = Some prev →
                            isHeadingText hl (normalized prev) = false)
               ∧ (∀ next, doc !! S i = Some next →
                          isHeadingText hl (normalized next) = false))
       ∧ (∀ i m s e, doc !! i = Some m → is_Some (paragraph m) →
            startIndex m = Some s → endIndex m = Some e →
            blankOrBar m = true →
            (∀ j prev, i = S j → doc !! j = Some prev →
                       isHeadingText hl (normalized prev) = false) →
            (∀ next, doc !! S i = Some next →
                     isHeadingText hl (normalized next) = false) →
            ∀ e0 rest (w : World Store),
              get (store w) = Resolves (Some doc) →
              sweepLoop hl ((s, e0) :: rest) w
              = sweepLoop hl rest
                  (trySend [DeleteContentRange s e]
                           (WarnRemoveParagraph s e) w))
       ∧ (∀ recorded rest (w : World Store),
            get (store w) = Resolves (Some doc) →
            sweepTarget doc hl recorded = None →
            sweepLoop hl (recorded :: rest) w = sweepLoop hl rest w)).
Proof.
  intros Hne Hblank Hbar. split.
  - intros tr0.
    destruct (sweepLoop_reference hl d (length d) tr0 Hne Hblank Hbar)
      as [tr Htr]; first done.
    exists tr. rewrite -Htr /removeEmptyBarLinesOneByOne /=.
    rewrite /snapshot (sortDesc_snapshot 1 d Hne).
    by rewrite firstn_all drop_all /= app_nil_r.
  - intros Store R doc Hdist. split; [|split].
    + intros recorded m. by apply sweepTarget_sound.
    + intros i m s e Hi Hpar Hs He Hbb Hprev Hnext e0 rest w Hget.
      rewrite (sweepLoop_step hl _ rest w doc Hget).
      rewrite (sweepTarget_complete doc hl i m s e e0) //.
      by rewrite /deleteParagraph Hs He.
    + intros recorded rest w Hget Hnone.
      by rewrite (sweepLoop_step hl _ rest w doc Hget) Hnone.
Qed.

(** Scenario D on the reference store: the bar line under the heading
    stays, the bar line between two lines of text goes. *)
Example sweeper_bar_lines :
  removeEmptyBarLinesOneByOne [T "EXPERIENCE"] (start barLines)
  = Returned
      (mkWorld [line "EXPERIENCE"; line " | "; line "Acme"; line "Remote"]
               [Sent [DeleteContentRange 21 25]]).
Proof. by vm_compute. Qed.

Lemma sweeper_adjacency_witness :
  ∃ tr, removeEmptyBarLinesOneByOne [T "EXPERIENCE"] (start barLines)
        = Returned
            (mkWorld [line "EXPERIENCE"; line " | "; line "Acme";
                      line "Remote"] tr).
Proof.
  refine (proj1 (sweeper_adjacency [T "EXPERIENCE"] barLines _ _ _) []).
  - repeat (constructor; first done). constructor.
  - reflexivity.
  - reflexivity.
Defined.

(** C2 as stated fails in four ways.  On a snapshot in which a block that
    is no paragraph has the start offset of the blank paragraph before the
    heading, the sweeper looks beside that block and deletes the blank
    paragraph.  When a retained heading is itself a bar, the blank line
    before it goes once the bar line has gone.  A blank paragraph without
    offsets is not recorded, and stays between two lines of text.  And
    when the store rejects the batch, the bar line between two lines of
    text stays. *)
Lemma sweeper_adjacency_counterexample :
  (sharedStart !! 2%nat = Some (paragraphItem 6 (line ""))
   ∧ blankOrBar (paragraphItem 6 (line "")) = true
   ∧ (∃ next, sharedStart !! 3%nat = Some next
              ∧ isHeadingText [T "EDUCATION"] (normalized next) = true)
   ∧ removeEmptyBarLinesOneByOne [T "EDUCATION"]
                                 (start (mkFixed (Some sharedStart)))
     = Returned (mkWorld (mkFixed (Some sharedStart))
                         [Sent [DeleteContentRange 6 7]]))
  ∧ (blankBeforeBar !! 1%nat = Some (line "")
     ∧ headingPara [T "|"] (blankBeforeBar !! 2%nat) = true
     ∧ store (outcomeWorld
                (removeEmptyBarLinesOneByOne [T "|"] (start blankBeforeBar)))
       = [line "Acme"; line "Remote"])
  ∧ ((∃ m, blankWithoutOffsets !! 1%nat = Some m ∧ blankOrBar m = true)
     ∧ removeEmptyBarLinesOneByOne []
                                   (start (mkFixed (Some blankWithoutOffsets)))
       = Returned (start (mkFixed (Some blankWithoutOffsets))))
  ∧ removeEmptyBarLinesOneByOne [T "EXPERIENCE"] (start (mkFlaky barLines 0))
    = Returned (mkWorld (mkFlaky barLines 0)
                  [Rejected [DeleteContentRange 21 25];
                   Warn (WarnRemoveParagraph 21 25)]).
Proof.
  split; [|split; [|split]]; last by vm_compute.
  - split; first done. split; first by vm_compute.
    split; last by vm_compute.
    eexists. split; first done. by vm_compute.
  - by vm_compute.
  - split; last by vm_compute.
    eexists. split; first done. by vm_compute.
Qed.

(* ===================================================================== *)
(** ** PlaceholderResolver *)
(* ===================================================================== *)

Lemma setAdd_NoDup acc m : NoDup acc → NoDup (setAdd acc m).
Proof.
  intros Hnd. rewrite /setAdd. case_bool_decide; first done.
  apply NoDup_app. split; first done. split.
  - intros x Hx ->%list_elem_of_singleton. done.
  - apply NoDup_singleton.
Qed.

Lemma setAdd_elem acc m x : x ∈ setAdd acc m ↔ x ∈ acc ∨ x = m.
Proof.
  rewrite /setAdd. case_bool_decide as Hm.
  - split; [by left|]. intros [?| ->]; done.
  - by rewrite elem_of_app list_elem_of_singleton.
Qed.

Lemma foldl_setAdd_NoDup ms acc : NoDup acc → NoDup (foldl setAdd acc ms).
Proof.
  revert acc. induction ms as [|m ms IH]; intros acc Hnd; first done.
  simpl. by apply IH, setAdd_NoDup.
Qed.

Lemma foldl_setAdd_elem ms acc x :
  x ∈ foldl setAdd acc ms ↔ x ∈ acc ∨ x ∈ ms.
Proof.
  revert acc. induction ms as [|m ms IH]; intros acc; simpl.
  - rewrite elem_of_nil. tauto.
  - rewrite IH setAdd_elem elem_of_cons. tauto.
Qed.

(** The set of tokens has no duplicate, and holds exactly the matches of
    the pattern in the text runs. *)
Lemma collectPlaceholders_spec (doc : Content) :
  NoDup (collectPlaceholders doc)
  ∧ ∀ tok, tok ∈ collectPlaceholders doc
           ↔ ∃ c, c ∈ textRuns doc ∧ tok ∈ matchPlaceholders c 0.
Proof.
  rewrite /collectPlaceholders.
  assert (∀ runs acc, NoDup acc →
    NoDup (foldl (λ acc c, foldl setAdd acc (matchPlaceholders c 0)) acc runs)
    ∧ ∀ tok, tok ∈ foldl (λ acc c, foldl setAdd acc (matchPlaceholders c 0))
                       acc runs
             ↔ tok ∈ acc ∨ ∃ c, c ∈ runs ∧ tok ∈ matchPlaceholders c 0) as Hgen.
  { induction runs as [|c runs IH]; intros acc Hnd; simpl.
    - split; first done. intros tok. split; first by left.
      intros [?|(c & Hc & _)]; first done. by apply elem_of_nil in Hc.
    - destruct (IH (foldl setAdd acc (matchPlaceholders c 0))) as [Hn He];
        first by apply foldl_setAdd_NoDup.
      split; first done. intros tok. rewrite He foldl_setAdd_elem. split.
      + intros [[?|?]|(c' & Hc' & ?)]; [by left|right..].
        * exists c. split; [by left|done].
        * exists c'. split; [by right|done].
      + intros [?|(c' & [->|Hc']%elem_of_cons & ?)].
        * by left; left.
        * by left; right.
        * right. by exists c'. }
  destruct (Hgen (textRuns doc) [] (NoDup_nil_2)) as [Hn He].
  split; first done. intros tok. rewrite He elem_of_nil. tauto.
Qed.

(** No key of the prototype is a skills key or a key of a list bullet. *)
Lemma inherited_key_plain key :
  key ∈ objectPrototypeKeys → isSkillsKey key = false ∧ isPointKey key = false.
Proof.
  rewrite /objectPrototypeKeys /= !elem_of_cons elem_of_nil.
  intros H. repeat (destruct H as [->|H]; first by vm_compute). done.
Qed.

(** The request of a token whose key is an own property or is unknown:
    the replacement text follows the resolution policy. *)
Lemma placeholderRequest_policy (data : FlattenedResumeData) tok :
  getProp data (keyOf tok) ≠ VInherited →
  placeholderRequest data tok
  = inr (ReplaceAllText tok true
           (replacementFor (keyOf tok) (fieldText data (keyOf tok)))).
Proof.
  rewrite /placeholderRequest /resolve /replacementFor /fieldText /getProp.
  destruct (data !! keyOf tok) as [v|]; simpl.
  - intros _. by destruct (isPointKey _), (truthyText v), (isSkillsKey _).
  - case_bool_decide; first done. intros _.
    by destruct (isPointKey _), (isSkillsKey _).
Qed.

Lemma placeholderRequests_policy (data : FlattenedResumeData) toks :
  (∀ tok, tok ∈ toks → getProp data (keyOf tok) ≠ VInherited) →
  placeholderRequests data toks
  = inr (map (fun tok => ReplaceAllText tok true
                (replacementFor (keyOf tok) (fieldText data (keyOf tok))))
             toks).
Proof.
  induction toks as [|tok toks IH]; intros Hall; first done.
  simpl. rewrite placeholderRequest_policy; first by (apply Hall; left).
  rewrite IH; first by (intros ? ?; apply Hall; right). done.
Qed.

(** A token whose key is found on the prototype only makes the loop throw:
    no request is sent. *)
Lemma placeholderRequests_inherited (data : FlattenedResumeData) toks tok :
  tok ∈ toks → getProp data (keyOf tok) = VInherited →
  placeholderRequests data toks = inl TypeError.
Proof.
  induction toks as [|t toks IH]; first by intros ?%elem_of_nil.
  intros [<-|Hin]%elem_of_cons Hk; simpl.
  - assert (placeholderRequest data tok = inl TypeError) as ->; last done.
    rewrite /placeholderRequest /resolve Hk /=.
    revert Hk. rewrite /getProp. destruct (data !! keyOf tok); first done.
    case_bool_decide as Hp; last done. intros _.
    destruct (inherited_key_plain _ Hp) as [_ ->]. done.
  - destruct (placeholderRequest data t) as [[]|r]; first done.
    by rewrite (IH Hin Hk).
Qed.

(** C3, at the input where it fails.  The template holds the token
    [{{toString}}] and the field map has no such key: the lookup finds the
    function of the prototype, the last branch calls [replace] on it, and
    the stage throws before any request is sent. *)
Theorem placeholder_inherited_key_throws :
  collectPlaceholders (snapshot [line "Name: {{toString}}"])
  = [T "{{toString}}"]
  ∧ placeholderRequest ∅ (T "{{toString}}") = inl TypeError
  ∧ doReplacePlaceholders ∅ (start [line "Name: {{toString}}"])
    = Raised (start [line "Name: {{toString}}"]).
Proof. by vm_compute. Qed.

(** C10, at the input where it fails.  The key [constructor] is absent
    from the field map and is not a key of a list bullet; its token is not
    replaced by the empty string: the stage throws and the token stays in
    the document. *)
Theorem unknown_key_constructor_throws :
  (∅ : FlattenedResumeData) !! T "constructor" = None
  ∧ isPointKey (T "constructor") = false
  ∧ doReplacePlaceholders ∅ (start [line "{{constructor}}"; line "{{name}}"])
    = Raised (start [line "{{constructor}}"; line "{{name}}"])
  ∧ replacePlaceholders ∅ None None
      (start [line "{{constructor}}"; line "{{name}}"])
    = Raised (start [line "{{constructor}}"; line "{{name}}"]).
Proof. by vm_compute. Qed.

(** For any other unknown or empty key that is not a key of a list bullet,
    the request replaces the token with the empty string. *)
Lemma unknown_key_replaced_by_empty (data : FlattenedResumeData) tok :
  keyOf tok ∉ objectPrototypeKeys →
  fieldText data (keyOf tok) = [] →
  isPointKey (keyOf tok) = false →
  placeholderRequest data tok = inr (ReplaceAllText tok true []).
Proof.
  intros Hp Hv Hk. rewrite placeholderRequest_policy.
  - rewrite /getProp. destruct (data !! keyOf tok); first done.
    by rewrite bool_decide_eq_false_2.
  - rewrite /replacementFor Hv Hk /=. by destruct (isSkillsKey _).
Qed.

(* ===================================================================== *)
(** ** Failing batches *)
(* ===================================================================== *)

(** A rejected batch of [removeSection] is logged and the stage returns. *)
Lemma removeSection_rejected `{Remote Store} h (w : World Store) doc
    si ei s e :
  get (store w) = Resolves (Some doc) →
  planSection doc h = DeleteSection si ei s e →
  batchUpdate (store w) [DeleteContentRange s e] = None →
  removeSection h w
  = Returned (log (Warn (WarnRemoveSection h))
                  (log (Rejected [DeleteContentRange s e]) w)).
Proof.
  intros Hget Hplan Hrej.
  by rewrite /removeSection Hget Hplan /trySend /send Hrej.
Qed.

(** A rejected batch of [doReplacePlaceholders] is not caught: the stage
    rejects, and with it every pipeline it is part of. *)
Lemma doReplacePlaceholders_rejected `{Remote Store}
    (data : FlattenedResumeData) (w : World Store) doc r rs :
  get (store w) = Resolves (Some doc) →
  placeholderRequests data (collectPlaceholders doc) = inr (r :: rs) →
  batchUpdate (store w) (r :: rs) = None →
  doReplacePlaceholders data w = Raised (log (Rejected (r :: rs)) w)
  ∧ ∀ hl, replacePlaceholders data None hl w
          = Raised (log (Rejected (r :: rs)) w).
Proof.
  intros Hget Hreqs Hrej.
  assert (doReplacePlaceholders data w = Raised (log (Rejected (r :: rs)) w))
    as Hd by by rewrite /doReplacePlaceholders Hget Hreqs /send Hrej.
  split; first done.
  intros hl. by rewrite /replacePlaceholders /= Hd.
Qed.

(** C7, at the input where it fails.  The store rejects the batch of the
    placeholder stage: the rejection is not logged as a warning, and the
    pipeline stops there, with no later stage run; the batch of the fixer,
    which a completed run sends, is never tried. *)
Theorem placeholder_batch_failure_aborts :
  let data : FlattenedResumeData :=
    <[T "company_1" := T "Acme"]> (<[T "company_location_1" := T "Remote"]> ∅) in
  let doc := [line "{{company_1}} {{company_location_1}}"] in
  replacePlaceholders data None (Some []) (start (mkFlaky doc 0))
  = Raised (mkWorld (mkFlaky doc 0)
              [Rejected [ReplaceAllText (T "{{company_1}}") true (T "Acme");
                         ReplaceAllText (T "{{company_location_1}}") true
                                        (T "Remote")]])
  ∧ batches (trace (outcomeWorld
       (replacePlaceholders data None (Some []) (start (mkFlaky doc 5)))))
    = [[ReplaceAllText (T "{{company_1}}") true (T "Acme");
        ReplaceAllText (T "{{company_location_1}}") true (T "Remote")];
       [ReplaceAllText EMPTY_LINE_TO_REMOVE true []];
       [ReplaceAllText (T "Acme Remote") true (T "Acme | Remote")]].
Proof. by vm_compute. Qed.

(* ===================================================================== *)
(** ** The marker-cleanup pass *)
(* ===================================================================== *)

(** A replacement of text never removes a paragraph from the reference
    store. *)
Lemma replaceAllText_keeps_paragraphs (d : Doc) m c r :
  length (applyRequest d (ReplaceAllText m c r)) = length d.
Proof. by rewrite /= length_map. Qed.

(** C6, at the input where it fails.  The field map has no key
    [experience_point_1_3]; the resolver puts the removal marker in place
    of the token, and the cleanup pass replaces the marker with the empty
    text: the line that held it is still in the document, as an empty line
    or with the rest of its text. *)
Theorem empty_marker_line_remains :
  let doc := [line "Acme"; line "{{experience_point_1_3}}";
              line "Led {{experience_point_1_3}} team"; line "EDUCATION"] in
  (doReplacePlaceholders ∅ (start doc) >>> applyBoldMarkers)
  = Returned (mkWorld
      [line "Acme"; line "##EMPTY_LINE_TO_REMOVE##";
       line "Led ##EMPTY_LINE_TO_REMOVE## team"; line "EDUCATION"]
      [Sent [ReplaceAllText (T "{{experience_point_1_3}}") true
                            EMPTY_LINE_TO_REMOVE]])
  ∧ store (outcomeWorld
      (doReplacePlaceholders ∅ (start doc) >>> applyBoldMarkers
       >>> removeEmptyMarkers))
    = [line "Acme"; line ""; line "Led  team"; line "EDUCATION"].
Proof. by vm_compute. Qed.

(* ===================================================================== *)
(** ** A document without tokens or markers *)
(* ===================================================================== *)

Lemma collectPlaceholders_none (doc : Content) :
  (∀ c, c ∈ textRuns doc → matchPlaceholders c 0 = []) →
  collectPlaceholders doc = [].
Proof.
  intros Hnone.
  destruct (collectPlaceholders doc) as [|tok toks] eqn:E; first done.
  destruct (collectPlaceholders_spec doc) as [_ He].
  destruct (proj1 (He tok)) as (c & Hc & Htok); first by (rewrite E; left).
  rewrite (Hnone c Hc) in Htok. by apply elem_of_nil in Htok.
Qed.

Lemma firstMarker_none (doc : Content) :
  (∀ item, item ∈ doc → matchMarker (getParagraphText item) = None) →
  firstMarker doc = None.
Proof.
  induction doc as [|item doc IH]; intros Hnone; first done.
  simpl. rewrite (Hnone item); first by left.
  apply IH. intros ? ?. apply Hnone. by right.
Qed.

(** A pass that finds no marker ends the loop. *)
Lemma boldLoop_no_marker `{Remote Store} budget n doc (w : World Store) :
  firstMarker doc = None →
  boldLoop (S budget) n (Some doc) w = (S n, Returned w).
Proof. intros Hnone. by rewrite /boldLoop Hnone. Qed.

(** C8.  When no text run of the document has a slot token and no
    paragraph has a marker span, the resolver followed by the styler leaves
    the world as it was given: the same store, so no text and no style has
    changed, and the same trace, so no batch was sent; and unless the read
    of the document rejects, the two stages return. *)
Theorem resolver_styler_noop `{Remote Store}
    (data : FlattenedResumeData) (w : World Store) :
  (∀ doc, get (store w) = Resolves (Some doc) →
     (∀ c, c ∈ textRuns doc → matchPlaceholders c 0 = [])
     ∧ (∀ item, item ∈ doc → matchMarker (getParagraphText item) = None)) →
  outcomeWorld (doReplacePlaceholders data w >>> applyBoldMarkers) = w
  ∧ (get (store w) ≠ Rejects →
     doReplacePlaceholders data w >>> applyBoldMarkers = Returned w).
Proof.
  intros Hclean. rewrite /doReplacePlaceholders.
  destruct (get (store w)) as [|[doc|]] eqn:Hget.
  - done.
  - destruct (Hclean doc eq_refl) as [Htok Hmark].
    rewrite (collectPlaceholders_none doc Htok).
    cbn [placeholderRequests andThen].
    rewrite /applyBoldMarkers /applyBoldMarkersPasses Hget.
    by rewrite (boldLoop_no_marker _ _ _ _ (firstMarker_none doc Hmark)).
  - cbn [andThen]. by rewrite /applyBoldMarkers /applyBoldMarkersPasses Hget.
Qed.

Lemma resolver_styler_noop_witness :
  doReplacePlaceholders ∅ (start [line "Jane Doe"; line "EXPERIENCE"])
    >>> applyBoldMarkers
  = Returned (start [line "Jane Doe"; line "EXPERIENCE"]).
Proof.
  refine (proj2 (resolver_styler_noop ∅
                   (start [line "Jane Doe"; line "EXPERIENCE"]) _) _);
    last done.
  intros doc [= <-].
  split; apply Forall_forall; apply (bool_decide_unpack _); by vm_compute.
Defined.

(* ===================================================================== *)
(** ** The marker pattern on well-formed text *)
(* ===================================================================== *)

Lemma startsWith_spec (p s : text) :
  startsWith p s = true ↔ ∃ r, s = p ++ r.
Proof.
  revert s. induction p as [|a p IH]; intros s; simpl.
  - split; [by exists s|done].
  - destruct s as [|b s].
    + split; [done|]. by intros [r ?].
    + rewrite andb_true_iff bool_decide_eq_true IH. split.
      * intros [-> [r ->]]. by exists r.
      * intros [r [= -> ->]]. split; [done|by exists r].
Qed.

Lemma startsWith_app (p s : text) : startsWith p (p ++ s) = true.
Proof. apply startsWith_spec. by exists s. Qed.

Lemma startsWith_head (a : ascii) p c s :
  c ≠ a → startsWith (a :: p) (c :: s) = false.
Proof. intros Hne. simpl. by rewrite bool_decide_eq_false_2. Qed.

Lemma startsWith_app_false (p t s : text) :
  startsWith p t = false → (length p ≤ length t)%nat →
  startsWith p (t ++ s) = false.
Proof.
  revert t. induction p as [|a p IH]; intros t; simpl; first done.
  destruct t as [|b t]; simpl; first by (intros _ ?; lia).
  intros H Hlen. case_bool_decide; simpl in *; last done.
  apply IH; [done|lia].
Qed.

Lemma startsWith_short (p a b : text) :
  (length p ≤ length a)%nat → startsWith p (a ++ b) = startsWith p a.
Proof.
  revert a. induction p as [|c p IH]; intros a Hlen; first done.
  destruct a as [|c' a]; simpl in *; first lia.
  rewrite IH; [lia|done].
Qed.

Lemma startsWith_prefix (a b s : text) :
  startsWith (a ++ b) s = true → startsWith a s = true.
Proof.
  intros [r ->]%startsWith_spec. rewrite -app_assoc. apply startsWith_app.
Qed.

Lemma indexOf_unfold (p s : text) :
  indexOf p s = if startsWith p s then Some 0%nat
                else match s with
                     | [] => None
                     | _ :: s' => S <$> indexOf p s'
                     end.
Proof. by destruct s. Qed.

(** A text does not include [p] when [p] begins at none of its
    positions. *)
Lemma includes_false (p s : text) :
  includes p s = false ↔ ∀ q, startsWith p (drop q s) = false.
Proof.
  rewrite /includes bool_decide_eq_false.
  induction s as [|c s IH]; rewrite indexOf_unfold.
  - split.
    + intros Hn q. rewrite drop_nil.
      destruct (startsWith p []); [by destruct Hn; eexists|done].
    + intros Hq. by rewrite (Hq 0%nat) -eq_None_not_Some.
  - split.
    + intros Hn [|q].
      * rewrite drop_0. destruct (startsWith p (c :: s)); last done.
        destruct Hn. by eexists.
      * simpl. apply IH. intros [n Hs].
        destruct (startsWith p (c :: s)); apply Hn; first by eexists.
        rewrite Hs. by eexists.
    + intros Hq. rewrite (Hq 0%nat). intros [n Hs].
      destruct (indexOf p s) as [m|] eqn:E; last done.
      apply (proj2 IH); last by eexists.
      intros q. apply (Hq (S q)).
Qed.

Lemma noKeyword_app (a b : text) :
  noKeyword (a ++ b) → noKeyword a ∧ noKeyword b.
Proof.
  rewrite /noKeyword !includes_false. intros H. split; intros q.
  - destruct (decide (q ≤ length a)%nat) as [Hle|Hgt].
    + apply not_true_is_false. intros [r Hr]%startsWith_spec.
      specialize (H q). rewrite drop_app_le // Hr -app_assoc in H.
      by rewrite startsWith_app in H.
    + rewrite drop_ge; [lia|done].
  - specialize (H (length a + q)%nat).
    by rewrite drop_app_ge ?Nat.add_sub' in H; first lia.
Qed.

(** The keyword does not begin in a text and end in a keyword that
    follows the text: it has no period. *)
Lemma keyword_border (x y : text) :
  (0 < length x < 7)%nat → startsWith KEYWORD (x ++ KEYWORD ++ y) = false.
Proof.
  intros [H0 H7]. rewrite /KEYWORD.
  do 7 (destruct x as [|? x];
        [simpl in *; try lia; repeat case_bool_decide; by simplify_eq/=|]).
  simpl in H7. lia.
Qed.

(** In a text without the keyword that a keyword follows, the keyword
    begins at the end only. *)
Lemma keyword_not_in (pre y : text) q :
  noKeyword pre → (q < length pre)%nat →
  startsWith KEYWORD (drop q (pre ++ KEYWORD ++ y)) = false.
Proof.
  intros Hno Hq. rewrite drop_app_le; first lia.
  destruct (decide (7 ≤ length (drop q pre))%nat) as [Hlong|Hshort].
  - rewrite startsWith_short //. by apply includes_false.
  - apply keyword_border. rewrite length_drop in Hshort |- *. lia.
Qed.

(** A text that is clean after a delimiter stays so when an [@] follows
    it. *)
Lemma cleanAfter_across (p s : text) :
  p ≠ [] → cleanAfter p → cleanAfter (p ++ "@"%char :: s).
Proof.
  intros Hne [H5 H6]. split.
  - destruct (decide (5 ≤ length p)%nat) as [Hlen|Hlen].
    { by apply startsWith_app_false. }
    do 5 (destruct p as [|? p];
          [simpl; repeat case_bool_decide; by simplify_eq/=|]).
    simpl in Hlen. lia.
  - destruct (decide (6 ≤ length p)%nat) as [Hlen|Hlen].
    { by apply startsWith_app_false. }
    do 6 (destruct p as [|? p];
          [simpl; repeat case_bool_decide; by simplify_eq/=|]).
    simpl in Hlen. lia.
Qed.

Lemma markerAt_no_keyword (s : text) :
  startsWith KEYWORD s = false → markerAt s = None.
Proof. intros Hs. by rewrite /markerAt -/KEYWORD Hs. Qed.

Lemma markerAt_not_at c s : c ≠ "@"%char → markerAt (c :: s) = None.
Proof. intros Hc. by rewrite /markerAt startsWith_head. Qed.

Lemma idChar_not_at c : isIdChar c = true → c ≠ "@"%char.
Proof. by intros H ->. Qed.

Lemma validId_noAt id : validId id → noAt id.
Proof.
  intros [_ Hid]. eapply Forall_impl; first done.
  intros c. apply idChar_not_at.
Qed.

(** The id group takes the whole id when a character outside the class
    follows. *)
Lemma spanId_id (id rest : text) :
  Forall (fun c => isIdChar c = true) id →
  match rest with [] => True | c :: _ => isIdChar c = false end →
  spanId (id ++ rest) = (id, rest).
Proof.
  intros Hid Hrest. induction Hid as [|c id Hc Hid IH]; simpl.
  - destruct rest as [|c r]; simpl in *; first done. by rewrite Hrest.
  - by rewrite Hc IH.
Qed.

Lemma markerPayload_cons close c s :
  markerPayload close (c :: s)
  = if startsWith close s then Some [c] else (c ::.) <$> markerPayload close s.
Proof. done. Qed.

(** The lazy payload group stops at the first closing delimiter. *)
Lemma markerPayload_found (close p rest : text) :
  p ≠ [] →
  (∀ j, (0 < j < length p)%nat →
        startsWith close (drop j (p ++ close ++ rest)) = false) →
  markerPayload close (p ++ close ++ rest) = Some p.
Proof.
  induction p as [|c p IH]; first done. intros _ Hno.
  rewrite -app_comm_cons markerPayload_cons.
  destruct p as [|c' p].
  - by rewrite app_nil_l startsWith_app.
  - rewrite (Hno 1%nat ltac:(simpl; lia)) IH //.
    intros j Hj. apply (Hno (S j)). simpl in *. lia.
Qed.

Lemma markerText_cons id p :
  markerText id p
  = T "@@BOLD-" ++ id ++ T "@@" ++ p ++ T "@@BOLD-" ++ id ++ T "-END@@".
Proof. by rewrite /markerText /openMarker /closeMarker -!app_assoc. Qed.

(** The pattern at a text that begins with an opening delimiter. *)
Lemma markerAt_open (id rest : text) :
  validId id →
  markerAt (T "@@BOLD-" ++ id ++ T "@@" ++ rest)
  = match markerPayload (closeMarker id) rest with
    | Some b => Some (openMarker id ++ b ++ closeMarker id, b)
    | None => None
    end.
Proof.
  intros [Hne Hid]. rewrite /markerAt startsWith_app.
  change (drop 7 (T "@@BOLD-" ++ ?x)) with x.
  rewrite (spanId_id id (T "@@" ++ rest) Hid); first done.
  rewrite startsWith_app.
  change (drop 2 (T "@@" ++ ?x)) with x.
  by destruct id.
Qed.

(** At the start of a well-formed span the pattern matches the span. *)
Lemma markerAt_span (id p rest : text) :
  validId id → noKeyword p → p ≠ [] →
  markerAt (markerText id p ++ rest) = Some (markerText id p, p).
Proof.
  intros Hid Hno Hp.
  assert (markerText id p ++ rest
          = T "@@BOLD-" ++ id ++ T "@@" ++ (p ++ closeMarker id ++ rest)) as ->.
  { rewrite /markerText /openMarker. by rewrite -!app_assoc. }
  rewrite (markerAt_open id _ Hid).
  rewrite (markerPayload_found (closeMarker id) p rest Hp) //.
  intros j Hj. apply not_true_is_false.
  rewrite /closeMarker -/KEYWORD -!app_assoc.
  intros Hocc%startsWith_prefix.
  rewrite keyword_not_in // in Hocc. lia.
Qed.

Lemma noStart_nil rest : noStart [] rest.
Proof. intros q Hq. by inversion Hq. Qed.

Lemma noStart_cons c l rest :
  markerAt (c :: l ++ rest) = None → noStart l rest → noStart (c :: l) rest.
Proof.
  intros Hc Hl [|q] Hq; first exact Hc.
  simpl in *. apply Hl. lia.
Qed.

Lemma noStart_app l1 l2 rest :
  noStart l1 (l2 ++ rest) → noStart l2 rest → noStart (l1 ++ l2) rest.
Proof.
  intros H1 H2 q Hq. rewrite -app_assoc.
  destruct (decide (q < length l1)%nat) as [Hlt|Hge]; first by apply H1.
  rewrite drop_app_ge; first lia.
  apply H2. rewrite length_app in Hq. lia.
Qed.

Lemma noStart_noAt l rest : noAt l → noStart l rest.
Proof.
  intros Hat. induction Hat as [|c l Hc Hat IH]; first apply noStart_nil.
  apply noStart_cons; [by apply markerAt_not_at|done].
Qed.

(** After a closing delimiter's id comes [-END], not the [@@] that the
    pattern asks for after the id. *)
Lemma markerAt_close (id rest : text) :
  validId id → markerAt (closeMarker id ++ rest) = None.
Proof.
  intros [Hne Hid]. rewrite /closeMarker -!app_assoc /markerAt startsWith_app.
  change (drop 7 (T "@@BOLD-" ++ ?x)) with x.
  by rewrite (spanId_id id (T "-END@@" ++ rest) Hid) // andb_false_r.
Qed.

Lemma noStart_keyword (l rest : text) :
  (∀ q, (q < length l)%nat →
        startsWith KEYWORD (drop q (l ++ rest)) = false) →
  noStart l rest.
Proof. intros H q Hq. by apply markerAt_no_keyword, H. Qed.

Lemma markerAt_one_at (x : text) :
  startsWith (T "@BOLD-") x = false → markerAt ("@"%char :: x) = None.
Proof.
  intros Hx. rewrite /markerAt.
  change (startsWith (T "@@BOLD-") ("@"%char :: x))
    with (startsWith (T "@BOLD-") x).
  by rewrite Hx.
Qed.

Lemma markerAt_two_ats (x : text) :
  startsWith (T "BOLD-") x = false →
  markerAt ("@"%char :: "@"%char :: x) = None.
Proof. intros Hx. by apply markerAt_one_at. Qed.

(** No match starts strictly inside a well-formed span. *)
Lemma noStart_inside_span (id p rest : text) :
  validId id → p ≠ [] → noKeyword p → cleanAfter p → cleanAfter rest →
  ∀ q, (0 < q < length (markerText id p))%nat →
       markerAt (drop q (markerText id p ++ rest)) = None.
Proof.
  intros Hid Hp Hno Hclean [Hrest Hrest'].
  assert (noAt id) as Hidat by by apply validId_noAt.
  destruct (cleanAfter_across p (T "@BOLD-" ++ id ++ T "-END@@" ++ rest)
              Hp Hclean) as [Hp5 Hp6].
  assert (∃ tl, markerText id p = "@"%char :: tl ∧ noStart tl rest)
    as (tl & Hshape & Hin); last first.
  { intros q [Hq0 Hq]. destruct q as [|q]; first lia.
    rewrite Hshape in Hq |- *. cbn [length] in Hq.
    change (drop (S q) (("@"%char :: tl) ++ rest)) with (drop q (tl ++ rest)).
    apply Hin. lia. }
  exists (["@"%char] ++ (T "BOLD-" ++ id) ++ ["@"%char]
              ++ ["@"%char] ++ p ++ ["@"%char] ++ ["@"%char]
              ++ (T "BOLD-" ++ id ++ T "-END") ++ ["@"%char] ++ ["@"%char]).
  split.
  { rewrite markerText_cons. by rewrite -!app_assoc. }
  { apply noStart_app.
    { apply noStart_cons; [by apply markerAt_one_at|apply noStart_nil]. }
    apply noStart_app.
    { apply noStart_noAt. rewrite /noAt. apply Forall_app. split; last done.
      by repeat constructor. }
    apply noStart_app.
    { apply noStart_cons; last apply noStart_nil.
      rewrite -!app_assoc. cbn [app].
      apply markerAt_two_ats.
      exact Hp5. }
    apply noStart_app.
    { apply noStart_cons; last apply noStart_nil.
      rewrite -!app_assoc. cbn [app]. apply markerAt_one_at.
      exact Hp6. }
    apply noStart_app.
    { apply noStart_keyword. intros q Hq.
      replace (p ++ (["@"%char] ++ ["@"%char]
                     ++ (T "BOLD-" ++ id ++ T "-END")
                     ++ ["@"%char] ++ ["@"%char]) ++ rest)
        with (p ++ KEYWORD ++ (id ++ T "-END@@" ++ rest))
        by by rewrite /KEYWORD -!app_assoc.
      by apply keyword_not_in. }
    apply noStart_app.
    { apply noStart_cons; last apply noStart_nil.
      rewrite -!app_assoc. cbn [app].
      replace ("@"%char :: "@"%char :: T "BOLD-" ++ id ++ T "-END"
                 ++ "@"%char :: "@"%char :: rest)
        with (closeMarker id ++ rest); first by apply markerAt_close.
      rewrite /closeMarker. by rewrite -!app_assoc. }
    apply noStart_app.
    { apply noStart_cons; [by apply markerAt_one_at|apply noStart_nil]. }
    apply noStart_app.
    { apply noStart_noAt. rewrite /noAt. apply Forall_app. split.
      - by repeat constructor.
      - apply Forall_app. split; first done. by repeat constructor. }
    apply noStart_app.
    { apply noStart_cons; last apply noStart_nil.
      rewrite -?app_assoc. cbn [app]. by apply markerAt_two_ats. }
    apply noStart_cons; last apply noStart_nil.
    by apply markerAt_one_at. }
Qed.

Lemma segsText_cons s r : segsText (s :: r) = segText s ++ segsText r.
Proof. done. Qed.

Lemma segsText_app s1 s2 : segsText (s1 ++ s2) = segsText s1 ++ segsText s2.
Proof. by rewrite /segsText bind_app. Qed.

Lemma settledText_cons s r :
  settledText (s :: r) = segText (settle s) ++ settledText r.
Proof. done. Qed.

Lemma settledText_app s1 s2 :
  settledText (s1 ++ s2) = settledText s1 ++ settledText s2.
Proof. by rewrite /settledText map_app segsText_app. Qed.

Lemma spansOK_tail s r : spansOK (s :: r) → spansOK r.
Proof. destruct s; simpl; tauto. Qed.

Lemma wfSegs_tail s r : wfSegs (s :: r) → wfSegs r.
Proof.
  intros [Hok Hno]. split; first by eapply spansOK_tail.
  rewrite settledText_cons in Hno. by apply noKeyword_app in Hno as [_ ?].
Qed.

Lemma wfSegs_app_r s1 s2 : wfSegs (s1 ++ s2) → wfSegs s2.
Proof.
  induction s1 as [|s s1 IH]; first done.
  intros H. by apply IH, (wfSegs_tail s).
Qed.

(** The keyword does not begin in the text before segments whose text,
    without the delimiters, completes none. *)
Lemma keyword_settled (segs : list Seg) (pre : text) q :
  noKeyword (pre ++ settledText segs) → (q < length pre)%nat →
  startsWith KEYWORD (drop q (pre ++ segsText segs)) = false.
Proof.
  revert pre. induction segs as [|s r IH]; intros pre Hno Hq.
  { change (settledText []) with ([] : text) in Hno.
    change (segsText []) with ([] : text).
    by apply (proj1 (includes_false _ _)). }
  rewrite segsText_cons. rewrite settledText_cons in Hno.
  destruct s as [t|p|id p]; cbn [settle segText] in *.
  - rewrite app_assoc. apply IH; first by rewrite -app_assoc.
    rewrite length_app. lia.
  - rewrite app_assoc. apply IH; first by rewrite -app_assoc.
    rewrite length_app. lia.
  - rewrite markerText_cons -/KEYWORD -!app_assoc.
    apply keyword_not_in; last done.
    by apply noKeyword_app in Hno as [? _].
Qed.

Lemma noStart_settled (t : text) (r : list Seg) :
  noKeyword (t ++ settledText r) → noStart t (segsText r).
Proof.
  intros Hno. apply noStart_keyword. intros q Hq. by apply keyword_settled.
Qed.

(** A match of the pattern in the text of well-formed segments starts at a
    span and is that span. *)
Lemma markerAt_genuine (segs : list Seg) q ent pay :
  wfSegs segs →
  markerAt (drop q (segsText segs)) = Some (ent, pay) →
  ∃ s1 id s2, segs = s1 ++ Marked id pay :: s2
              ∧ q = length (segsText s1) ∧ ent = markerText id pay.
Proof.
  revert q. induction segs as [|s r IH]; intros q Hwf Hm.
  { by rewrite /segsText /= drop_nil in Hm. }
  rewrite segsText_cons in Hm.
  destruct (decide (length (segText s) ≤ q)%nat) as [Hge|Hlt].
  - rewrite drop_app_ge in Hm; first done.
    destruct (IH _ (wfSegs_tail _ _ Hwf) Hm) as (s1 & id & s2 & -> & Hq & ->).
    exists (s :: s1), id, s2. split; first done. split; last done.
    rewrite segsText_cons length_app. lia.
  - destruct Hwf as [Hok Hno]. rewrite settledText_cons in Hno.
    destruct s as [t|p|id p]; cbn [segText settle] in Hlt, Hm, Hno.
    + by rewrite (noStart_settled t r Hno q ltac:(lia)) in Hm.
    + by rewrite (noStart_settled p r Hno q ltac:(lia)) in Hm.
    + destruct Hok as (Hid & Hp & Hclean & Hrest & Hr).
      apply noKeyword_app in Hno as [Hnop _].
      destruct q as [|q].
      * rewrite drop_0 /= (markerAt_span id p _ Hid Hnop Hp) in Hm.
        injection Hm as <- <-. by exists [], id, r.
      * by rewrite (noStart_inside_span id p (segsText r) Hid Hp Hnop Hclean
                      Hrest (S q) ltac:(lia)) in Hm.
Qed.

Lemma matchMarker_unfold (s : text) :
  matchMarker s = match markerAt s with
                  | Some m => Some m
                  | None => match s with
                            | [] => None
                            | _ :: s' => matchMarker s'
                            end
                  end.
Proof. by destruct s. Qed.

Lemma matchMarker_skip (l rest : text) :
  noStart l rest → matchMarker (l ++ rest) = matchMarker rest.
Proof.
  induction l as [|c l IH]; intros Hno; first done.
  rewrite matchMarker_unfold (Hno 0%nat ltac:(simpl; lia)) /=.
  apply IH. intros q Hq. apply (Hno (S q)). simpl. lia.
Qed.

(** The leftmost match in the text of well-formed segments is the first
    span that is still to process. *)
Lemma matchMarker_segs (segs : list Seg) :
  wfSegs segs →
  matchMarker (segsText segs)
  = (fun sp => (markerText sp.1 sp.2, sp.2)) <$> head (spansOf segs).
Proof.
  induction segs as [|s r IH]; intros Hwf; first done.
  pose proof (wfSegs_tail _ _ Hwf) as Hr.
  destruct Hwf as [Hok Hno]. rewrite settledText_cons in Hno.
  rewrite segsText_cons. destruct s as [t|p|id p]; cbn [segText settle] in *.
  - rewrite (matchMarker_skip _ _ (noStart_settled t r Hno)). by apply IH.
  - rewrite (matchMarker_skip _ _ (noStart_settled p r Hno)). by apply IH.
  - destruct Hok as (Hid & Hp & _).
    apply noKeyword_app in Hno as [Hnop _].
    by rewrite matchMarker_unfold /= (markerAt_span id p _ Hid Hnop Hp).
Qed.

Lemma markerPayload_exists (close p rest : text) :
  p ≠ [] → is_Some (markerPayload close (p ++ close ++ rest)).
Proof.
  induction p as [|c p IH]; first done. intros _.
  rewrite -app_comm_cons markerPayload_cons.
  destruct (startsWith close (p ++ close ++ rest)) eqn:Hs; first by eexists.
  destruct p as [|c' p].
  - by rewrite app_nil_l startsWith_app in Hs.
  - destruct IH as [b Hb]; first done. rewrite Hb. by eexists.
Qed.

(** An occurrence of the text of a span is a match of the pattern, with
    the id of the span. *)
Lemma occurrence_is_match (id p s : text) :
  validId id → p ≠ [] →
  startsWith (markerText id p) s = true →
  ∃ pay, markerAt s = Some (markerText id pay, pay).
Proof.
  intros Hid Hp [r ->]%startsWith_spec.
  assert (markerText id p ++ r
          = T "@@BOLD-" ++ id ++ T "@@" ++ (p ++ closeMarker id ++ r)) as ->.
  { rewrite /markerText /openMarker. by rewrite -!app_assoc. }
  rewrite (markerAt_open id _ Hid).
  destruct (markerPayload_exists (closeMarker id) p r Hp) as [b ->].
  by exists b.
Qed.

Lemma id_before_at (x y a b : text) :
  noAt x → noAt y → x ++ "@"%char :: a = y ++ "@"%char :: b → x = y.
Proof.
  intros Hx. revert y. induction Hx as [|c x Hc Hx IH]; intros y Hy.
  - destruct Hy as [|c y Hc' _]; first done. by intros [= <- _].
  - destruct Hy as [|c' y Hc' Hy]; first by intros [= -> _].
    intros [= -> E]. f_equal. by apply IH.
Qed.

Lemma markerText_id_inj (x y p q : text) :
  validId x → validId y → markerText x p = markerText y q → x = y.
Proof.
  intros Hx Hy. rewrite !markerText_cons.
  intros E%app_inv_head.
  exact (id_before_at x y _ _ (validId_noAt _ Hx) (validId_noAt _ Hy) E).
Qed.

(* ===================================================================== *)
(** ** The replacement of a span on the reference store *)
(* ===================================================================== *)

Lemma spansOf_app s1 s2 : spansOf (s1 ++ s2) = spansOf s1 ++ spansOf s2.
Proof. by rewrite /spansOf omap_app. Qed.

Lemma wfSegs_marked_valid s1 id p s2 :
  wfSegs (s1 ++ Marked id p :: s2) → validId id ∧ p ≠ [] ∧ noKeyword p.
Proof.
  intros [Hok Hno]%wfSegs_app_r. rewrite settledText_cons in Hno.
  apply noKeyword_app in Hno as [Hno _]. simpl in Hok. tauto.
Qed.

Lemma marked_id_in s1 id p s2 : id ∈ (spansOf (s1 ++ Marked id p :: s2)).*1.
Proof.
  apply list_elem_of_fmap. exists (id, p). split; first done.
  rewrite spansOf_app. apply elem_of_app. right. by left.
Qed.

Lemma spans_ids_app s1 s2 :
  (spansOf (s1 ++ s2)).*1 = (spansOf s1).*1 ++ (spansOf s2).*1.
Proof. rewrite spansOf_app. apply (fmap_app fst). Qed.

(** The text of a span whose id no segment carries occurs nowhere. *)
Lemma no_occurrence_other (segs : list Seg) x p :
  wfSegs segs → validId x → p ≠ [] → x ∉ (spansOf segs).*1 →
  ∀ q, startsWith (markerText x p) (drop q (segsText segs)) = false.
Proof.
  intros Hwf Hx Hp Hnot q. apply not_true_is_false. intros Hocc.
  destruct (occurrence_is_match x p _ Hx Hp Hocc) as [pay Hm].
  destruct (markerAt_genuine segs q _ _ Hwf Hm) as (s1 & id & s2 & -> & _ & E).
  destruct (wfSegs_marked_valid _ _ _ _ Hwf) as (Hid & _).
  apply markerText_id_inj in E as ->; [|done..].
  apply Hnot, marked_id_in.
Qed.

Lemma spans_unique (s1 s1' s2 s2' : list Seg) x p p' :
  NoDup (spansOf (s1 ++ Marked x p :: s2)).*1 →
  s1 ++ Marked x p :: s2 = s1' ++ Marked x p' :: s2' → s1 = s1'.
Proof.
  revert s1'. induction s1 as [|a s1 IH]; intros s1' Hnd E.
  - destruct s1' as [|a' s1']; first done. exfalso.
    injection E as <- ->. simpl in Hnd. apply NoDup_cons in Hnd as [Hnot _].
    apply Hnot, marked_id_in.
  - destruct s1' as [|a' s1'].
    + exfalso. injection E as -> <-. simpl in Hnd.
      apply NoDup_cons in Hnd as [Hnot _].
      apply Hnot, marked_id_in.
    + injection E as <- E. f_equal. apply (IH s1'); last done.
      destruct a; simpl in Hnd; try done. by apply NoDup_cons in Hnd as [_ ?].
Qed.

(** With distinct ids, the text of a span occurs at the span only. *)
Lemma occurrence_unique (s1 s2 : list Seg) x p q :
  wfSegs (s1 ++ Marked x p :: s2) →
  NoDup (spansOf (s1 ++ Marked x p :: s2)).*1 →
  startsWith (markerText x p) (drop q (segsText (s1 ++ Marked x p :: s2)))
    = true →
  q = length (segsText s1).
Proof.
  intros Hwf Hnd Hocc.
  destruct (wfSegs_marked_valid _ _ _ _ Hwf) as (Hx & Hp & _).
  destruct (occurrence_is_match x p _ Hx Hp Hocc) as [pay Hm].
  destruct (markerAt_genuine _ q _ _ Hwf Hm) as (s1' & id & s2' & E & -> & E').
  assert (validId id) as Hid.
  { rewrite E in Hwf. by destruct (wfSegs_marked_valid _ _ _ _ Hwf). }
  apply markerText_id_inj in E' as <-; [|done..].
  by rewrite (spans_unique s1 s1' s2 s2' x p pay Hnd E).
Qed.

Lemma paraText_app (a b : Para) : paraText (a ++ b) = paraText a ++ paraText b.
Proof. by rewrite /paraText map_app. Qed.

Lemma replaceIn_cons m r c b g skip :
  replaceIn m r ((c, b) :: g) skip
  = match skip with
    | S k => replaceIn m r g k
    | O => if startsWith m (paraText ((c, b) :: g))
           then map (fun x => (x, b)) r ++ replaceIn m r g (length m - 1)
           else (c, b) :: replaceIn m r g 0
    end.
Proof. done. Qed.

Lemma replaceIn_skipn m r (M B : Para) :
  replaceIn m r (M ++ B) (length M) = replaceIn m r B 0.
Proof.
  induction M as [|[c b] M IH]; first done.
  by rewrite -app_comm_cons replaceIn_cons.
Qed.

Lemma replaceIn_none m r (g : Para) :
  (∀ q, startsWith m (drop q (paraText g)) = false) → replaceIn m r g 0 = g.
Proof.
  induction g as [|[c b] g IH]; intros Hno; first done.
  rewrite replaceIn_cons (Hno 0%nat). f_equal.
  apply IH. intros q. apply (Hno (S q)).
Qed.

(** The replacement of the one occurrence of [m]: the glyphs before and
    after stay, the inserted text takes the style of the first glyph. *)
Lemma replaceIn_first m r (A M B : Para) c b M' :
  M = (c, b) :: M' → paraText M = m →
  (∀ q, (q < length A)%nat →
        startsWith m (drop q (paraText (A ++ M ++ B))) = false) →
  (∀ q, startsWith m (drop q (paraText B)) = false) →
  replaceIn m r (A ++ M ++ B) 0 = A ++ map (fun x => (x, b)) r ++ B.
Proof.
  intros -> Hm HA HB. induction A as [|[c' b'] A IH].
  - rewrite app_nil_l -app_comm_cons replaceIn_cons.
    rewrite app_comm_cons paraText_app Hm startsWith_app.
    assert (length m = S (length M')) as ->.
    { by rewrite -Hm /paraText /= length_map. }
    by rewrite /= Nat.sub_0_r replaceIn_skipn (replaceIn_none _ _ _ HB).
  - rewrite -app_comm_cons replaceIn_cons.
    rewrite (HA 0%nat ltac:(simpl; lia)). cbn [app]. f_equal.
    apply IH. intros q Hq. apply (HA (S q)). simpl. lia.
Qed.

Lemma relFrom_text pre segs g : relFrom pre segs g → paraText g = segsText segs.
Proof.
  induction 1 as [|pre s r g1 g2 [Hs _] _ IH]; first done.
  by rewrite paraText_app segsText_cons Hs IH.
Qed.

Lemma relSegs_text segs g : relSegs segs g → paraText g = segsText segs.
Proof. apply relFrom_text. Qed.

Lemma relFrom_app pre s1 s2 g1 g2 :
  relFrom pre s1 g1 → relFrom (pre ++ settledText s1) s2 g2 →
  relFrom pre (s1 ++ s2) (g1 ++ g2).
Proof.
  induction 1 as [pre|pre s r a b Hs _ IH]; intros H2.
  - by rewrite /settledText /segsText /= app_nil_r in H2.
  - rewrite -app_assoc -app_comm_cons. constructor; first done.
    apply IH. by rewrite settledText_cons app_assoc in H2.
Qed.

Lemma relFrom_app_inv pre s1 s2 g :
  relFrom pre (s1 ++ s2) g →
  ∃ g1 g2, g = g1 ++ g2 ∧ relFrom pre s1 g1
           ∧ relFrom (pre ++ settledText s1) s2 g2.
Proof.
  revert pre g. induction s1 as [|s s1 IH]; intros pre g H.
  - exists [], g. split; first done. split; first constructor.
    by rewrite /settledText /segsText /= app_nil_r.
  - inversion H as [|? ? ? a b Hs Hr]; subst.
    destruct (IH _ _ Hr) as (g1 & g2 & -> & H1 & H2).
    exists (a ++ g1), g2. rewrite app_assoc. split; first done.
    split; first by constructor.
    by rewrite settledText_cons app_assoc.
Qed.

Lemma markerText_nonempty id p : markerText id p ≠ [].
Proof. by rewrite markerText_cons. Qed.

Lemma markerText_truthy id p : truthyText (markerText id p) = true.
Proof. by rewrite markerText_cons. Qed.

(** A paragraph that does not hold the span is left as it is. *)
Lemma replaceAllIn_other (segs : list Seg) g x p :
  wfSegs segs → relSegs segs g → validId x → p ≠ [] →
  x ∉ (spansOf segs).*1 →
  replaceAllIn (markerText x p) p g = g.
Proof.
  intros Hwf Hrel Hx Hp Hnot. rewrite /replaceAllIn markerText_truthy.
  apply replaceIn_none. intros q.
  rewrite (relSegs_text _ _ Hrel). by apply no_occurrence_other.
Qed.

(** In the paragraph of the span, the span is replaced with its payload in
    one style; the glyphs around it stay. *)
Lemma replaceAllIn_span (s1 s2 : list Seg) g x p :
  wfSegs (s1 ++ Marked x p :: s2) →
  NoDup (spansOf (s1 ++ Marked x p :: s2)).*1 →
  relSegs (s1 ++ Marked x p :: s2) g →
  ∃ A M B b, g = A ++ M ++ B ∧ relSegs s1 A
             ∧ paraText M = markerText x p
             ∧ relFrom (settledText s1 ++ p) s2 B
             ∧ replaceAllIn (markerText x p) p g
               = A ++ map (fun c => (c, b)) p ++ B.
Proof.
  intros Hwf Hnd Hrel.
  destruct (relFrom_app_inv _ _ _ _ Hrel) as (A & MB & -> & HA & HMB).
  inversion HMB as [|? ? ? M B [HM _] HB]; subst.
  simpl in HM.
  destruct M as [|[c b] M'].
  { exfalso. by apply (markerText_nonempty x p). }
  exists A, ((c, b) :: M'), B, b. split; first done. split; first done.
  split; first done. split; first done.
  rewrite /replaceAllIn markerText_truthy.
  apply (replaceIn_first _ _ A _ B c b M' eq_refl HM).
  - intros q Hq. apply not_true_is_false. intros Hocc.
    rewrite (relSegs_text _ _ Hrel) in Hocc.
    apply occurrence_unique in Hocc; [|done..].
    rewrite -(relSegs_text _ _ HA) /paraText length_map in Hocc. lia.
  - intros q. rewrite (relFrom_text _ _ _ HB).
    destruct (wfSegs_marked_valid _ _ _ _ Hwf) as (Hx & Hp & _).
    apply no_occurrence_other; [|done..|].
    + apply wfSegs_app_r in Hwf. by apply (wfSegs_tail _ _ Hwf).
    + rewrite spans_ids_app /= in Hnd.
      apply NoDup_app in Hnd as (_ & _ & Hnd).
      by apply NoDup_cons in Hnd as [? _].
Qed.
Lemma relDoc_wf_head ds d :
  relDoc ds d → Forall wfSegs ds →
  ∀ start,
    firstMarker (snapshotFrom start d)
    = (fun sp => (markerText sp.1 sp.2, sp.2)) <$> head (docSpans ds).
Proof.
  induction 1 as [|segs g ds d Hg Hd IH]; intros Hwf start; first done.
  apply Forall_cons in Hwf as [Hs Hwf].
  rewrite snapshotFrom_cons /= paragraphItem_text (relSegs_text _ _ Hg).
  rewrite (matchMarker_segs segs Hs) /docSpans /=.
  destruct (spansOf segs) as [|sp sps]; simpl; last done.
  by apply IH.
Qed.

(* ===================================================================== *)
(** ** The style requests of a payload *)
(* ===================================================================== *)

Lemma startsWith_nil_r (p : text) : p ≠ [] → startsWith p [] = false.
Proof. by destruct p. Qed.

(** The scan finds an occurrence when no occurrence begins before it and
    runs into it. *)
Lemma occurrences_found (p s : text) skip pos k :
  p ≠ [] → (skip ≤ k)%nat →
  (∀ j, (j < k)%nat → (k < j + length p)%nat →
        startsWith p (drop j s) = false) →
  startsWith p (drop k s) = true →
  (pos + k)%nat ∈ occurrences p s skip pos.
Proof.
  intros Hp. revert skip pos k.
  induction s as [|c s IH]; intros skip pos k Hskip Hclear Hk.
  { by rewrite drop_nil startsWith_nil_r in Hk. }
  destruct skip as [|skip]; simpl.
  - destruct (startsWith p (c :: s)) eqn:H0.
    + destruct k as [|k].
      * rewrite Nat.add_0_r. by left.
      * right. replace (pos + S k)%nat with (S pos + k)%nat by lia.
        destruct (decide (S k < length p)%nat) as [Hlt|Hge].
        { by rewrite (Hclear 0%nat ltac:(lia) ltac:(lia)) in H0. }
        apply IH; [lia| |done].
        intros j Hj Hj'. apply (Hclear (S j)); lia.
    + destruct k as [|k]; first by rewrite drop_0 H0 in Hk.
      replace (pos + S k)%nat with (S pos + k)%nat by lia.
      apply IH; [lia| |done].
      intros j Hj Hj'. apply (Hclear (S j)); lia.
  - destruct k as [|k]; first lia.
    replace (pos + S k)%nat with (S pos + k)%nat by lia.
    apply IH; [lia| |done].
    intros j Hj Hj'. apply (Hclear (S j)); lia.
Qed.

Lemma groupRuns_cons c b (p : Para) :
  groupRuns ((c, b) :: p)
  = match groupRuns p with
    | (b', t) :: rs => if bool_decide (b = b') then (b, c :: t) :: rs
                       else (b, [c]) :: (b', t) :: rs
    | [] => [(b, [c])]
    end.
Proof. done. Qed.

(** A text inserted in one style lies within one run. *)
Lemma groupRuns_uniform (p : text) b (B : Para) :
  p ≠ [] →
  ∃ v rs, groupRuns (map (fun c => (c, b)) p ++ B) = (b, p ++ v) :: rs.
Proof.
  induction p as [|c p IH]; first done. intros _.
  cbn [map app]. rewrite groupRuns_cons. destruct p as [|c' p].
  - cbn [map app]. destruct (groupRuns B) as [|[b' t] rs]; first by exists [], [].
    case_bool_decide; [by exists t, rs|by exists [], ((b', t) :: rs)].
  - destruct IH as (v & rs & ->); first done.
    rewrite bool_decide_eq_true_2 //. by exists v, rs.
Qed.

Lemma groupRuns_contains (A B : Para) (p : text) b :
  p ≠ [] →
  ∃ rs1 u v rs2,
    groupRuns (A ++ map (fun c => (c, b)) p ++ B)
    = rs1 ++ (b, u ++ p ++ v) :: rs2
    ∧ (length (concat rs1.*2) + length u = length A)%nat.
Proof.
  intros Hp. induction A as [|[c b0] A IH].
  - destruct (groupRuns_uniform p b B Hp) as (v & rs & E).
    exists [], [], v, rs. by rewrite /= E.
  - destruct IH as (rs1 & u & v & rs2 & E & Hlen).
    rewrite -app_comm_cons groupRuns_cons E.
    destruct rs1 as [|[b1 t1] rs1]; simpl in *.
    + case_bool_decide as Hb.
      * subst b0. exists [], (c :: u), v, rs2. split; first done. simpl. lia.
      * exists [(b0, [c])], u, v, rs2. split; first done. simpl. lia.
    + case_bool_decide as Hb.
      * exists ((b0, c :: t1) :: rs1), u, v, rs2. split; first done.
        simpl in *. rewrite length_app in Hlen. rewrite length_app. lia.
      * exists ((b0, [c]) :: (b1, t1) :: rs1), u, v, rs2. split; first done.
        simpl in *. lia.
Qed.

Lemma runElements_app start rs1 rs2 :
  runElements start (rs1 ++ rs2)
  = runElements start rs1
    ++ runElements (start + Z.of_nat (length (concat rs1.*2))) rs2.
Proof.
  revert start. induction rs1 as [|[b t] rs1 IH]; intros start.
  - by rewrite /= Z.add_0_r.
  - rewrite /= IH length_app.
    by replace (start + Z.of_nat (length t)
                + Z.of_nat (length (concat rs1.*2)))
      with (start + Z.of_nat (length t + length (concat rs1.*2))) by lia.
Qed.

Lemma includes_middle (p a b : text) : includes p (a ++ p ++ b) = true.
Proof.
  rewrite /includes bool_decide_eq_true.
  induction a as [|c a IH]; rewrite indexOf_unfold.
  - rewrite app_nil_l startsWith_app. by eexists.
  - destruct (startsWith p ((c :: a) ++ p ++ b)); first by eexists.
    rewrite -app_comm_cons. destruct IH as [n ->]. by eexists.
Qed.

Lemma startsWith_drop_short (p a b : text) j :
  (j + length p ≤ length a)%nat →
  startsWith p (drop j (a ++ b)) = startsWith p (drop j a).
Proof.
  intros Hlen. rewrite drop_app_le; first lia.
  apply startsWith_short. rewrite length_drop. lia.
Qed.

(** The requests of the styler hold the range of the payload inserted in
    paragraph [A ++ F ++ B], when no occurrence of the payload begins in
    the text of [A] and runs into the payload. *)
Lemma boldRequests_covers (dA dB : Doc) (A B : Para) (p : text) b start :
  p ≠ [] → unshadowed (paraText A) p →
  let F := map (fun c => (c, b)) p in
  let s := start + Z.of_nat (docLength dA) + Z.of_nat (length A) in
  UpdateTextStyleBold s (s + Z.of_nat (length p))
  ∈ boldRequests (snapshotFrom start (dA ++ (A ++ F ++ B) :: dB)) p.
Proof.
  intros Hp Hun F s. subst F s.
  rewrite /boldRequests snapshotFrom_app snapshotFrom_cons.
  apply list_elem_of_bind.
  exists (paragraphItem (start + Z.of_nat (docLength dA))
                        (A ++ map (fun c => (c, b)) p ++ B)).
  split; last (apply elem_of_app; right; by left).
  rewrite paragraphItem_text. cbn [paragraphElements paragraphItem paragraph
                                    elements mbind option_bind].
  rewrite !paraText_app.
  assert (paraText (map (fun c => (c, b)) p) = p) as Hpt.
  { rewrite /paraText map_map /=. apply map_id. }
  rewrite Hpt includes_middle.
  destruct (groupRuns_contains A B p b Hp) as (rs1 & u & v & rs2 & E & Hlen).
  (* the run of the payload begins with the end of the text of [A] *)
  assert (paraText A = concat rs1.*2 ++ u) as HA.
  { pose proof (groupRuns_text (A ++ map (fun c => (c, b)) p ++ B)) as Ht.
    rewrite E fmap_app concat_app /= !paraText_app Hpt in Ht.
    rewrite -!app_assoc in Ht.
    rewrite (app_assoc (concat rs1.*2) u) in Ht.
    apply app_inj_1 in Ht as [Ht _]; first done.
    by rewrite length_app Hlen /paraText length_map. }
  rewrite E.
  apply list_elem_of_bind.
  exists (mkElement (Some (start + Z.of_nat (docLength dA)
                           + Z.of_nat (length (concat rs1.*2))))
                    (Some (u ++ p ++ v))).
  split.
  - rewrite /runBoldRequests /=.
    assert (truthyText (u ++ p ++ v) = true) as ->.
    { destruct u; first by destruct p. done. }
    apply list_elem_of_fmap. exists (length u). split.
    + f_equal; lia.
    + apply (occurrences_found p (u ++ p ++ v) 0 0 (length u) Hp);
        first lia.
      * intros j Hj Hj'. apply not_true_is_false. intros Hocc.
        rewrite app_assoc startsWith_drop_short in Hocc;
          first by (rewrite length_app; lia).
        specialize (Hun (length (concat rs1.*2) + j)%nat).
        rewrite HA -app_assoc drop_app_ge ?Nat.add_sub' in Hun; first lia.
        rewrite length_app in Hun. rewrite Hun in Hocc; [lia..|done].
      * by rewrite drop_app_length startsWith_app.
  - rewrite runElements_app. apply elem_of_app. right. by left.
Qed.

(* ===================================================================== *)
(** ** Bold style on the reference store *)
(* ===================================================================== *)

Lemma paraLe_refl (p : Para) : paraLe p p.
Proof. apply Forall2_same_length_lookup_2; first done.
  intros i x y Hx Hy. rewrite Hx in Hy. injection Hy as <-. by split. Qed.

Lemma docLe_refl (d : Doc) : docLe d d.
Proof.
  apply Forall2_same_length_lookup_2; first done.
  intros i x y Hx Hy. rewrite Hx in Hy. injection Hy as <-. apply paraLe_refl.
Qed.

Lemma glyphLe_trans (a b c : Glyph) : glyphLe a b → glyphLe b c → glyphLe a c.
Proof. intros [E1 H1] [E2 H2]. split; [congruence|auto]. Qed.

Lemma paraLe_trans (a b c : Para) : paraLe a b → paraLe b c → paraLe a c.
Proof.
  intros H1. revert c. induction H1 as [|x y a b Hxy _ IH]; intros c H2.
  - exact H2.
  - inversion H2 as [|? z ? c' Hyz Hbc]; subst.
    constructor; [by eapply glyphLe_trans|by apply IH].
Qed.

Lemma docLe_trans (a b c : Doc) : docLe a b → docLe b c → docLe a c.
Proof.
  intros H1. revert c. induction H1 as [|x y a b Hxy _ IH]; intros c H2.
  - exact H2.
  - inversion H2 as [|? z ? c' Hyz Hbc]; subst.
    constructor; [by eapply paraLe_trans|by apply IH].
Qed.

Lemma paraLe_text (p p' : Para) : paraLe p p' → paraText p = paraText p'.
Proof.
  induction 1 as [|x y p p' [E _] _ IH]; first done.
  rewrite /paraText /= E. f_equal. exact IH.
Qed.

Lemma paraLe_length (p p' : Para) : paraLe p p' → length p = length p'.
Proof. apply Forall2_length. Qed.

Lemma docLe_docLength_take (d d' : Doc) i :
  docLe d d' → docLength (take i d) = docLength (take i d').
Proof.
  intros H. revert i. induction H as [|p p' d d' Hp _ IH]; intros i.
  - done.
  - destruct i as [|i]; first done.
    rewrite /docLength /= !length_app (paraLe_length _ _ Hp).
    specialize (IH i). rewrite /docLength in IH. lia.
Qed.

Lemma paraLe_bold (p p' : Para) :
  paraLe p p' → Forall (fun x => x.2 = true) p → Forall (fun x => x.2 = true) p'.
Proof.
  induction 1 as [|x y p p' [_ Hb] _ IH]; first done.
  intros [Hx Hp]%Forall_cons. constructor; [auto|by apply IH].
Qed.

Lemma glyphsOf_le pre s (g g' : Para) :
  glyphsOf pre s g → paraLe g g' → glyphsOf pre s g'.
Proof.
  intros [Ht Hb] Hle. split; first by rewrite -(paraLe_text _ _ Hle).
  destruct s; try done. intros Hs Hun. by eapply paraLe_bold; eauto.
Qed.

Lemma relFrom_le pre segs (g g' : Para) :
  relFrom pre segs g → paraLe g g' → relFrom pre segs g'.
Proof.
  intros H. revert g'. induction H as [pre|pre s r g1 g2 Hs _ IH]; intros g' Hle.
  - inversion Hle. constructor.
  - apply Forall2_app_inv_l in Hle as (g1' & g2' & H1 & H2 & ->).
    constructor; [by eapply glyphsOf_le|by apply IH].
Qed.

Lemma relSegs_le segs (g g' : Para) : relSegs segs g → paraLe g g' → relSegs segs g'.
Proof. apply relFrom_le. Qed.

Lemma relDoc_le ds (d d' : Doc) : relDoc ds d → docLe d d' → relDoc ds d'.
Proof.
  intros H. revert d'. induction H as [|segs g ds d Hg _ IH]; intros d' Hle.
  - inversion Hle. constructor.
  - inversion Hle as [|? g' ? d2 Hgg Hdd]; subst.
    constructor; [by eapply relSegs_le|by apply IH].
Qed.

Lemma boldGlyphs_lookup s e i (g : Para) k :
  boldGlyphs s e i g !! k
  = (fun x : Glyph => (x.1, x.2 || (s <=? i + Z.of_nat k)
                                   && (i + Z.of_nat k <? e)))
    <$> g !! k.
Proof.
  revert i k. induction g as [|[c b] g IH]; intros i k; first done.
  destruct k as [|k]; simpl.
  - by rewrite Z.add_0_r.
  - rewrite IH. by replace (i + 1 + Z.of_nat k) with (i + Z.of_nat (S k)) by lia.
Qed.

Lemma boldGlyphs_length s e i (g : Para) : length (boldGlyphs s e i g) = length g.
Proof.
  revert i. induction g as [|[c b] g IH]; intros i; first done.
  by rewrite /= IH.
Qed.

Lemma boldGlyphs_le s e i (g : Para) : paraLe g (boldGlyphs s e i g).
Proof.
  revert i. induction g as [|[c b] g IH]; intros i; first by constructor.
  constructor; last by apply IH.
  split; first done. simpl. by intros ->.
Qed.

Lemma boldFrom_le s e start (d : Doc) : docLe d (boldFrom s e start d).
Proof.
  revert start. induction d as [|p d IH]; intros start; first by constructor.
  constructor; [apply boldGlyphs_le|apply IH].
Qed.

Lemma boldFrom_lookup s e start (d : Doc) i :
  boldFrom s e start d !! i
  = boldGlyphs s e (start + Z.of_nat (docLength (take i d))) <$> d !! i.
Proof.
  revert start i. induction d as [|p d IH]; intros start i; first done.
  destruct i as [|i]; simpl.
  - by rewrite /docLength /= Z.add_0_r.
  - rewrite IH. do 2 f_equal. rewrite /docLength /= length_app. lia.
Qed.

Lemma boldAt_le (d d' : Doc) i o n : docLe d d' → boldAt d i o n → boldAt d' i o n.
Proof.
  intros Hle (g & Hg & Hb).
  destruct (Forall2_lookup_l _ _ _ _ _ Hle Hg) as (g' & Hg' & Hgg).
  exists g'. split; first done. intros j Hj.
  destruct (Hb j Hj) as [c Hc].
  destruct (Forall2_lookup_l _ _ _ _ _ Hgg Hc) as ([c' b'] & Hc' & [E Hbold]).
  simpl in *. subst c'. exists c. rewrite Hc'. by rewrite Hbold.
Qed.

(** A style request sets the glyphs of its range. *)
Lemma boldFrom_boldAt s e start (d : Doc) i o n g :
  d !! i = Some g → (o + n ≤ length g)%nat →
  s = start + Z.of_nat (docLength (take i d)) + Z.of_nat o →
  e = s + Z.of_nat n →
  boldAt (boldFrom s e start d) i o n.
Proof.
  intros Hg Hlen -> ->.
  exists (boldGlyphs (start + Z.of_nat (docLength (take i d)) + Z.of_nat o)
            (start + Z.of_nat (docLength (take i d)) + Z.of_nat o + Z.of_nat n)
            (start + Z.of_nat (docLength (take i d))) g).
  split; first by rewrite boldFrom_lookup Hg.
  intros j Hj. rewrite boldGlyphs_lookup.
  destruct (lookup_lt_is_Some_2 g (o + j)%nat ltac:(lia)) as [[c b] ->].
  exists c. simpl. do 2 f_equal.
  rewrite orb_true_iff. right. rewrite andb_true_iff. split.
  - apply Z.leb_le. lia.
  - apply Z.ltb_lt. lia.
Qed.

Lemma applyRequest_bold_le (d : Doc) r : isBoldRequest r → docLe d (applyRequest d r).
Proof. destruct r; try done. intros _. apply boldFrom_le. Qed.

Lemma applyBatch_bold_le (d : Doc) reqs :
  Forall isBoldRequest reqs → docLe d (applyBatch d reqs).
Proof.
  intros H. revert d. induction H as [|r reqs Hr _ IH]; intros d.
  - apply docLe_refl.
  - eapply docLe_trans; first by apply applyRequest_bold_le. apply IH.
Qed.

(** A batch of style requests sets the range of each of its requests. *)
Lemma applyBatch_boldAt (d : Doc) reqs i o n g :
  Forall isBoldRequest reqs →
  d !! i = Some g → (o + n ≤ length g)%nat →
  UpdateTextStyleBold (1 + Z.of_nat (docLength (take i d)) + Z.of_nat o)
    (1 + Z.of_nat (docLength (take i d)) + Z.of_nat o + Z.of_nat n) ∈ reqs →
  boldAt (applyBatch d reqs) i o n.
Proof.
  intros H. revert d g. induction H as [|r reqs Hr Hrs IH]; intros d g Hg Hlen Hin.
  { by apply elem_of_nil in Hin. }
  apply elem_of_cons in Hin as [<-|Hin].
  - eapply boldAt_le; first by apply (applyBatch_bold_le _ reqs).
    by eapply boldFrom_boldAt.
  - pose proof (applyRequest_bold_le d r Hr) as Hle.
    destruct (Forall2_lookup_l _ _ _ _ _ Hle Hg) as (g' & Hg' & Hgg).
    apply (IH _ g' Hg').
    + by rewrite -(paraLe_length _ _ Hgg).
    + by rewrite -(docLe_docLength_take _ _ i Hle).
Qed.

Lemma boldRequests_bold (doc : Content) t : Forall isBoldRequest (boldRequests doc t).
Proof.
  apply Forall_forall. intros r Hr.
  rewrite /boldRequests in Hr.
  apply list_elem_of_bind in Hr as (item & Hr & _).
  destruct (paragraphElements item) as [els|]; last by apply elem_of_nil in Hr.
  destruct (includes _ _); last by apply elem_of_nil in Hr.
  apply list_elem_of_bind in Hr as (el & Hr & _).
  rewrite /runBoldRequests in Hr.
  destruct (content el), (el_startIndex el); try by apply elem_of_nil in Hr.
  destruct (truthyText _); last by apply elem_of_nil in Hr.
  by apply list_elem_of_fmap in Hr as (pos & -> & _).
Qed.

Lemma chunksOf_concat fuel (l : list Request) :
  (length l ≤ fuel)%nat → concat (chunksOf fuel l) = l.
Proof.
  revert l. induction fuel as [|fuel IH]; intros l Hlen.
  - destruct l; [done|simpl in Hlen; lia].
  - destruct l as [|r l]; first done.
    rewrite /chunksOf -/chunksOf. cbn [concat].
    rewrite IH; first last.
    { by rewrite take_drop. }
    rewrite length_drop. simpl in *. rewrite /BATCH_SIZE. lia.
Qed.

Lemma chunks_concat (l : list Request) : concat (chunks l) = l.
Proof. by apply chunksOf_concat. Qed.

Lemma applyBatch_app (d : Doc) r1 r2 :
  applyBatch d (r1 ++ r2) = applyBatch (applyBatch d r1) r2.
Proof. by rewrite /applyBatch foldl_app. Qed.

(** The chunks of style requests on the reference store: each is sent and
    applied. *)
Lemma send_chunks (w : World Doc) (cs : list (list Request)) :
  foldl (fun w c => trySend c WarnBoldChunk w) w cs
  = mkWorld (applyBatch (store w) (concat cs)) (trace w ++ (Sent <$> cs)).
Proof.
  revert w. induction cs as [|c cs IH]; intros [d tr].
  - by rewrite /= app_nil_r.
  - rewrite /= IH /= applyBatch_app. f_equal. by rewrite -app_assoc.
Qed.

(* ===================================================================== *)
(** ** One pass of the styler *)
(* ===================================================================== *)

Lemma spansOf_first (segs : list Seg) x p tl :
  spansOf segs = (x, p) :: tl →
  ∃ s1 s2, segs = s1 ++ Marked x p :: s2 ∧ spansOf s1 = [] ∧ tl = spansOf s2.
Proof.
  induction segs as [|s r IH]; first done.
  destruct s as [t|q|id q]; simpl.
  - intros (s1 & s2 & -> & H1 & H2)%IH. by exists (Plain t :: s1), s2.
  - intros (s1 & s2 & -> & H1 & H2)%IH. by exists (Done q :: s1), s2.
  - intros [= -> -> <-]. by exists [], r.
Qed.

Lemma docSpans_cons segs ds : docSpans (segs :: ds) = spansOf segs ++ docSpans ds.
Proof. done. Qed.

Lemma docSpans_app ds1 ds2 : docSpans (ds1 ++ ds2) = docSpans ds1 ++ docSpans ds2.
Proof. by rewrite /docSpans bind_app. Qed.

(** The first span of the document: the paragraphs before it and the
    segments before it in its paragraph hold no span. *)
Lemma docSpans_first (ds : list (list Seg)) x p rest :
  docSpans ds = (x, p) :: rest →
  ∃ dsA s1 s2 dsB,
    ds = dsA ++ (s1 ++ Marked x p :: s2) :: dsB
    ∧ docSpans dsA = [] ∧ spansOf s1 = []
    ∧ rest = spansOf s2 ++ docSpans dsB.
Proof.
  induction ds as [|segs ds IH]; first done.
  rewrite docSpans_cons.
  destruct (spansOf segs) as [|sp tl] eqn:Es.
  - intros (dsA & s1 & s2 & dsB & -> & HA & H1 & Hr)%IH.
    exists (segs :: dsA), s1, s2, dsB. split; first done.
    split; last done. by rewrite docSpans_cons Es.
  - intros [= -> <-].
    destruct (spansOf_first _ _ _ _ Es) as (s1 & s2 & -> & H1 & ->).
    by exists [], s1, s2, ds.
Qed.

Lemma spansOK_settle s1 x p s2 :
  spansOf s1 = [] → spansOK (s1 ++ Marked x p :: s2) →
  spansOK (s1 ++ Done p :: s2).
Proof.
  induction s1 as [|s s1 IH]; simpl.
  - tauto.
  - destruct s as [t|q|id q]; simpl; [apply IH..|done].
Qed.

Lemma settledText_settle s1 x p s2 :
  settledText (s1 ++ Done p :: s2) = settledText (s1 ++ Marked x p :: s2).
Proof. by rewrite /settledText !map_app. Qed.

Lemma wfSegs_settle s1 x p s2 :
  spansOf s1 = [] → wfSegs (s1 ++ Marked x p :: s2) →
  wfSegs (s1 ++ Done p :: s2).
Proof.
  intros Hs [Hok Hno]. split; first by apply (spansOK_settle s1 x).
  by rewrite (settledText_settle s1 x).
Qed.

Lemma settle_spans_nil (segs : list Seg) : spansOf segs = [] → map settle segs = segs.
Proof.
  induction segs as [|s r IH]; first done.
  destruct s; simpl; try done; intros H; by rewrite IH.
Qed.

Lemma settle_doc_nil (ds : list (list Seg)) :
  docSpans ds = [] → map (map settle) ds = ds.
Proof.
  induction ds as [|segs ds IH]; first done.
  rewrite docSpans_cons. intros [H1 H2]%app_eq_nil.
  by rewrite /= settle_spans_nil // IH.
Qed.

Lemma relDoc_other (ds : list (list Seg)) (d : Doc) x p :
  Forall wfSegs ds → relDoc ds d → validId x → p ≠ [] →
  x ∉ (docSpans ds).*1 →
  map (replaceAllIn (markerText x p) p) d = d.
Proof.
  intros Hwf Hrel Hx Hp. induction Hrel as [|segs g ds d Hg _ IH]; first done.
  apply Forall_cons in Hwf as [Hs Hwf].
  rewrite docSpans_cons fmap_app. intros Hnot.
  cbn [map]. rewrite (IH Hwf).
  { intros ?. apply Hnot, elem_of_app. by right. }
  rewrite (replaceAllIn_other segs g x p Hs Hg Hx Hp); last done.
  intros ?. apply Hnot, elem_of_app. by left.
Qed.

Lemma map_glyphs_text (p : text) b : paraText (map (fun c => (c, b)) p) = p.
Proof. rewrite /paraText map_map /=. apply map_id. Qed.

(** The replacement of the first span of the document. *)
Lemma replace_first_span (dsA dsB : list (list Seg)) s1 s2 x p (d : Doc) :
  wfDoc (dsA ++ (s1 ++ Marked x p :: s2) :: dsB) →
  relDoc (dsA ++ (s1 ++ Marked x p :: s2) :: dsB) d →
  docSpans dsA = [] → spansOf s1 = [] →
  ∃ dA A B dB b,
    applyBatch d [ReplaceAllText (markerText x p) true p]
    = dA ++ (A ++ map (fun c => (c, b)) p ++ B) :: dB
    ∧ relDoc dsA dA ∧ relSegs s1 A
    ∧ relFrom (settledText s1 ++ p) s2 B ∧ relDoc dsB dB.
Proof.
  intros [Hwf Hnd] Hrel HA H1.
  apply Forall2_app_inv_l in Hrel as (dA & dX & HdA & HdX & ->).
  inversion HdX as [|? g ? dB Hg HdB]; subst.
  apply Forall_app in Hwf as [HwfA HwfX].
  apply Forall_cons in HwfX as [Hs HwfB].
  assert ((docSpans (dsA ++ (s1 ++ Marked x p :: s2) :: dsB)).*1
          = x :: (spansOf s2).*1 ++ (docSpans dsB).*1) as Eids.
  { rewrite docSpans_app HA app_nil_l docSpans_cons spansOf_app H1 app_nil_l.
    change (spansOf (Marked x p :: s2)) with ((x, p) :: spansOf s2).
    by rewrite -app_comm_cons fmap_cons (fmap_app fst). }
  rewrite Eids in Hnd.
  apply NoDup_cons in Hnd as [Hx Hnd].
  apply NoDup_app in Hnd as (Hnd2 & _ & _).
  destruct (wfSegs_marked_valid _ _ _ _ Hs) as (Hid & Hp & _).
  destruct (replaceAllIn_span s1 s2 g x p Hs) as (A & M & B & b & -> & HrA & HM & HrB & E);
    [|done|].
  { rewrite spans_ids_app H1 app_nil_l.
    change (spansOf (Marked x p :: s2)) with ((x, p) :: spansOf s2).
    rewrite fmap_cons. constructor; last done.
    intros Hin. apply Hx, elem_of_app. by left. }
  exists dA, A, B, dB, b. split; last done.
  rewrite /applyBatch /= map_app /= E.
  rewrite (relDoc_other dsA dA x p HwfA HdA Hid Hp).
  { rewrite HA. by intros ?%elem_of_nil. }
  rewrite (relDoc_other dsB dB x p HwfB HdB Hid Hp); last done.
  intros Hin. apply Hx, elem_of_app. by right.
Qed.

Lemma relDoc_length ds (d : Doc) : relDoc ds d → length ds = length d.
Proof. apply Forall2_length. Qed.

(** After the style requests of the payload, the document matches the
    segments in which the span is done. *)
Lemma style_first_span (dsA dsB : list (list Seg)) s1 s2 p
    (dA dB : Doc) (A B : Para) b (d2 : Doc) :
  relDoc dsA dA → relSegs s1 A → relFrom (settledText s1 ++ p) s2 B →
  relDoc dsB dB →
  docLe (dA ++ (A ++ map (fun c => (c, b)) p ++ B) :: dB) d2 →
  (styledPayload p → unshadowed (settledText s1) p →
   boldAt d2 (length dA) (length A) (length p)) →
  relDoc (dsA ++ (s1 ++ Done p :: s2) :: dsB) d2.
Proof.
  intros HdA HA HB HdB Hle Hbold.
  apply Forall2_app_inv_l in Hle as (dA2 & dX2 & HleA & HleX & ->).
  inversion HleX as [|? g2 ? dB2 Hg HleB]; subst.
  apply Forall2_app_inv_l in Hg as (A2 & FB2 & HleA' & HleFB & ->).
  apply Forall2_app_inv_l in HleFB as (F2 & B2 & HleF & HleB' & ->).
  apply Forall2_app; first by eapply relDoc_le.
  constructor; last by eapply relDoc_le.
  apply relFrom_app; first by eapply relSegs_le.
  constructor; last by eapply relFrom_le.
  split.
  { simpl. by rewrite -(paraLe_text _ _ HleF) map_glyphs_text. }
  intros Hs Hun. destruct (Hbold Hs Hun) as (g & Hg & Hb).
  rewrite lookup_app_r in Hg; first by rewrite (Forall2_length _ _ _ HleA).
  rewrite (Forall2_length _ _ _ HleA) Nat.sub_diag /= in Hg.
  injection Hg as <-.
  apply Forall_lookup. intros j [c' b'] Hj.
  pose proof (lookup_lt_Some _ _ _ Hj) as Hlt.
  rewrite -(paraLe_length _ _ HleF) length_map in Hlt.
  destruct (Hb j Hlt) as [c Hc].
  rewrite lookup_app_r in Hc; first by rewrite (paraLe_length _ _ HleA'); lia.
  rewrite (paraLe_length _ _ HleA') in Hc.
  replace (length A2 + j - length A2)%nat with j in Hc by lia.
  rewrite lookup_app_l in Hc; first by apply lookup_lt_Some in Hj.
  rewrite Hj in Hc. by injection Hc as _ ->.
Qed.

Lemma boldLoop_zero `{Remote Store} n doc (w : World Store) :
  boldLoop 0 n doc w = (n, Returned w).
Proof. done. Qed.

Lemma boldLoop_found `{Remote Store} budget n doc (w : World Store) entire boldText :
  firstMarker doc = Some (entire, boldText) →
  boldLoop (S budget) n (Some doc) w
  = match send [ReplaceAllText entire true boldText] w with
    | Raised w1 => (S n, Raised w1)
    | Returned w1 =>
        match get (store w1) with
        | Rejects => (S n, Raised w1)
        | Resolves None => (S n, Returned w1)
        | Resolves (Some content1) =>
            if negb (truthyText (trim boldText))
            then boldLoop budget (S n) (Some content1) w1
            else
              match boldRequests content1 boldText with
              | [] => boldLoop budget (S n) (Some content1) w1
              | reqs =>
                  let w2 := foldl (fun w c => trySend c WarnBoldChunk w)
                                  w1 (chunks reqs) in
                  match get (store w2) with
                  | Rejects => (S n, Raised w2)
                  | Resolves doc2 => boldLoop budget (S n) doc2 w2
                  end
              end
        end
    end.
Proof. intros Hf. by rewrite /boldLoop Hf. Qed.

Lemma markerEdits_app tr1 tr2 :
  markerEdits (tr1 ++ tr2) = markerEdits tr1 ++ markerEdits tr2.
Proof. by rewrite /markerEdits omap_app. Qed.

Lemma markerEdits_bold_chunks (cs : list (list Request)) :
  Forall (Forall isBoldRequest) cs → markerEdits (Sent <$> cs) = [].
Proof.
  induction 1 as [|c cs Hc _ IH]; first done.
  rewrite fmap_cons.
  change (Sent c :: (Sent <$> cs)) with ([Sent c] ++ (Sent <$> cs)).
  rewrite markerEdits_app IH app_nil_r.
  destruct c as [|r [|r' c]]; [done| |];
    apply Forall_cons in Hc as [Hr _]; by destruct r.
Qed.

(** One pass on the reference store: the first span of the document is
    replaced with its payload, the payload gets its style, and the loop
    goes on from the new document. *)
Lemma boldLoop_pass budget n (ds : list (list Seg)) (d : Doc) tr x p rest :
  wfDoc ds → relDoc ds d → docSpans ds = (x, p) :: rest →
  ∃ ds' d' cs,
    boldLoop (S budget) n (Some (snapshot d)) (mkWorld d tr)
    = boldLoop budget (S n) (Some (snapshot d'))
        (mkWorld d' (tr ++ Sent [ReplaceAllText (markerText x p) true p]
                         :: (Sent <$> cs)))
    ∧ wfDoc ds' ∧ relDoc ds' d' ∧ docSpans ds' = rest
    ∧ map (map settle) ds' = map (map settle) ds
    ∧ Forall (Forall isBoldRequest) cs.
Proof.
  intros Hwf Hrel Hspans.
  pose proof (relDoc_wf_head ds d Hrel (proj1 Hwf) 1) as Hfirst.
  rewrite Hspans /= in Hfirst.
  rewrite (boldLoop_found budget n _ _ _ _ Hfirst).
  destruct (docSpans_first ds x p rest Hspans)
    as (dsA & s1 & s2 & dsB & -> & HA & H1 & ->).
  destruct (replace_first_span dsA dsB s1 s2 x p d Hwf Hrel HA H1)
    as (dA & A & B & dB & b & Hd1 & HdA & HrA & HrB & HdB).
  set (d1 := dA ++ (A ++ map (fun c => (c, b)) p ++ B) :: dB) in *.
  set (ds' := dsA ++ (s1 ++ Done p :: s2) :: dsB).
  assert (wfDoc ds') as Hwf'.
  { destruct Hwf as [Hw Hnd]. split.
    - apply Forall_app in Hw as [HwA HwX].
      apply Forall_cons in HwX as [Hs HwB].
      apply Forall_app. split; first done.
      constructor; [by apply (wfSegs_settle s1 x)|done].
    - rewrite Hspans in Hnd.
      change (((x, p) :: (spansOf s2 ++ docSpans dsB)).*1)
        with (x :: (spansOf s2 ++ docSpans dsB).*1) in Hnd.
      apply NoDup_cons in Hnd as [_ Hnd].
      by rewrite /ds' docSpans_app HA docSpans_cons spansOf_app H1. }
  assert (docSpans ds' = spansOf s2 ++ docSpans dsB) as Hspans'.
  { by rewrite /ds' docSpans_app HA docSpans_cons spansOf_app H1. }
  assert (map (map settle) ds'
          = map (map settle) (dsA ++ (s1 ++ Marked x p :: s2) :: dsB)) as Hsettle.
  { by rewrite /ds' !map_app /= !map_app. }
  assert (∀ d2, docLe d1 d2 →
            (styledPayload p → unshadowed (settledText s1) p →
             boldAt d2 (length dA) (length A) (length p)) →
            relDoc ds' d2) as Hfinish.
  { intros d2 Hle Hb. by eapply style_first_span. }
  assert (paraText A = settledText s1) as HtA.
  { by rewrite (relSegs_text _ _ HrA) /settledText settle_spans_nil. }
  destruct (wfSegs_marked_valid s1 x p s2) as (Hid & Hp & _).
  { destruct Hwf as [Hw _]. apply Forall_app in Hw as [_ HwX].
    by apply Forall_cons in HwX as [? _]. }
  rewrite /send. cbn [batchUpdate DocRemote store trace]. rewrite Hd1.
  cbn [get DocRemote store trace].
  destruct (negb (truthyText (trim p))) eqn:Hblank.
  { exists ds', d1, []. rewrite /= . split; first done.
    split; first done. split; last done.
    apply Hfinish; first apply docLe_refl.
    intros Ht _. rewrite /styledPayload in Ht. destruct (trim p); done. }
  assert (unshadowed (paraText A) p →
          UpdateTextStyleBold
            (1 + Z.of_nat (docLength dA) + Z.of_nat (length A))
            (1 + Z.of_nat (docLength dA) + Z.of_nat (length A)
             + Z.of_nat (length p))
          ∈ boldRequests (snapshot d1) p) as Hcov
    by exact (boldRequests_covers dA dB A B p b 1 Hp).
  pose proof (boldRequests_bold (snapshot d1) p) as Hbold.
  destruct (boldRequests (snapshot d1) p) as [|r rs] eqn:Hreqs.
  { exists ds', d1, []. split; first done.
    split; first done. split; last done.
    apply Hfinish; first apply docLe_refl.
    intros _ Hun. rewrite -HtA in Hun. by apply Hcov, elem_of_nil in Hun. }
  exists ds', (applyBatch d1 (r :: rs)), (chunks (r :: rs)).
  rewrite send_chunks chunks_concat. cbn [store trace get DocRemote].
  split.
  { by rewrite -app_assoc. }
  split; first done. split; last first.
  { split; first done. split; first done.
    apply Forall_concat. by rewrite chunks_concat. }
  apply Hfinish; first by apply applyBatch_bold_le.
  intros _ Hun. rewrite -HtA in Hun.
  apply (applyBatch_boldAt d1 (r :: rs) (length dA) (length A) (length p)
           (A ++ map (fun c => (c, b)) p ++ B) Hbold).
  - by rewrite /d1 lookup_app_r // Nat.sub_diag.
  - rewrite !length_app length_map. lia.
  - rewrite /d1 take_app_length. by apply Hcov.
Qed.

(* ===================================================================== *)
(** ** The loop of the styler *)
(* ===================================================================== *)

(** The loop on the reference store, from a document of well-formed spans:
    it returns; it makes one pass per span, in document order, as long as
    the budget lasts; the passes it makes replace these spans and give
    their payloads their style. *)
Lemma boldLoop_run budget :
  ∀ n (ds : list (list Seg)) (d : Doc) tr,
    wfDoc ds → relDoc ds d →
    ∃ ds' d' tr',
      boldLoop budget n (Some (snapshot d)) (mkWorld d tr)
      = ((n + budget `min` S (length (docSpans ds)))%nat,
         Returned (mkWorld d' tr'))
      ∧ wfDoc ds' ∧ relDoc ds' d'
      ∧ docSpans ds' = drop budget (docSpans ds)
      ∧ map (map settle) ds' = map (map settle) ds
      ∧ markerEdits tr'
        = markerEdits tr
          ++ ((fun sp => (markerText sp.1 sp.2, sp.2))
              <$> take budget (docSpans ds)).
Proof.
  induction budget as [|budget IH]; intros n ds d tr Hwf Hrel.
  { exists ds, d, tr. rewrite boldLoop_zero Nat.add_0_r drop_0 /= app_nil_r.
    done. }
  destruct (docSpans ds) as [|[x p] rest] eqn:Hspans.
  - exists ds, d, tr.
    pose proof (relDoc_wf_head ds d Hrel (proj1 Hwf) 1) as Hfirst.
    rewrite Hspans /= in Hfirst.
    rewrite (boldLoop_no_marker _ _ _ _ Hfirst) /= app_nil_r.
    split; last done.
    by replace (n + S (budget `min` 0))%nat with (S n) by lia.
  - destruct (boldLoop_pass budget n ds d tr x p rest Hwf Hrel Hspans)
      as (ds1 & d1 & cs & -> & Hwf1 & Hrel1 & Hspans1 & Hsettle1 & Hcs).
    destruct (IH (S n) ds1 d1
                 (tr ++ Sent [ReplaceAllText (markerText x p) true p]
                     :: (Sent <$> cs)) Hwf1 Hrel1)
      as (ds' & d' & tr' & -> & Hwf' & Hrel' & Hspans' & Hsettle' & Htr').
    exists ds', d', tr'. rewrite Hspans1 in Hspans', Htr' |- *.
    split.
    { by replace (S n + budget `min` S (length rest))%nat
        with (n + S budget `min` S (length ((x, p) :: rest)))%nat
        by (simpl; lia). }
    split; first done. split; first done. split; first done.
    split; first by rewrite Hsettle'.
    rewrite Htr' markerEdits_app.
    change (Sent ?r :: (Sent <$> cs)) with ([Sent r] ++ (Sent <$> cs)).
    rewrite markerEdits_app (markerEdits_bold_chunks cs Hcs) app_nil_r.
    by rewrite -app_assoc.
Qed.

(** On any store the counter of passes stays within the budget. *)
Lemma boldLoop_count `{Remote Store} budget n doc (w : World Store) :
  (n ≤ (boldLoop budget n doc w).1 ≤ n + budget)%nat.
Proof.
  revert n doc w. induction budget as [|budget IH]; intros n doc w.
  { rewrite boldLoop_zero /=. lia. }
  destruct doc as [doc|]; last by (rewrite /boldLoop /=; lia).
  destruct (firstMarker doc) as [[entire boldText]|] eqn:Hfirst;
    last by (rewrite (boldLoop_no_marker _ _ _ _ Hfirst) /=; lia).
  rewrite (boldLoop_found _ _ _ _ _ _ Hfirst).
  destruct (send _ w) as [w1|w1]; last by (simpl; lia).
  destruct (get (store w1)) as [|[content1|]]; try (simpl; lia).
  destruct (negb (truthyText (trim boldText))).
  { specialize (IH (S n) (Some content1) w1). lia. }
  destruct (boldRequests content1 boldText) as [|r0 rs].
  { specialize (IH (S n) (Some content1) w1). lia. }
  cbv zeta. set (w2 := foldl _ w1 _).
  destruct (get (store w2)) as [|doc2]; first by (simpl; lia).
  specialize (IH (S n) doc2 w2). lia.
Qed.

Lemma applyBoldMarkers_count `{Remote Store} (w : World Store) :
  ((applyBoldMarkersPasses w).1 ≤ PASS_CEILING)%nat.
Proof.
  rewrite /applyBoldMarkersPasses.
  destruct (get (store w)) as [|[content|]]; try (simpl; lia).
  pose proof (boldLoop_count PASS_CEILING 0 (Some content) w). lia.
Qed.

(** C5 (amended).  On any store the counter of passes never exceeds 50.
    On the reference store, from a document of well-formed spans with
    distinct ids, the loop of the styler returns after as many passes as
    there are spans and one more, the scan that finds no span and stops the
    loop, or after 50 passes when this is less; each pass but that last
    scan removes the delimiters of exactly one span, the first one left in
    block order; and the spans not reached stay as they are. *)
Theorem styler_passes (ds : list (list Seg)) (d : Doc) :
  wfDoc ds → relDoc ds d →
  (∀ Store (R : Remote Store) (w : World Store),
     ((applyBoldMarkersPasses w).1 ≤ PASS_CEILING)%nat)
  ∧ ∃ ds' w',
      applyBoldMarkersPasses (start d)
      = ((PASS_CEILING `min` S (length (docSpans ds)))%nat, Returned w')
      ∧ markerEdits (trace w')
        = (fun sp => (markerText sp.1 sp.2, sp.2))
          <$> take PASS_CEILING (docSpans ds)
      ∧ wfDoc ds' ∧ relDoc ds' (store w')
      ∧ docSpans ds' = drop PASS_CEILING (docSpans ds)
      ∧ map (map settle) ds' = map (map settle) ds.
Proof.
  intros Hwf Hrel. split; first by (intros; apply applyBoldMarkers_count).
  destruct (boldLoop_run PASS_CEILING 0 ds d [] Hwf Hrel)
    as (ds' & d' & tr' & Hrun & Hwf' & Hrel' & Hspans' & Hsettle' & Htr').
  exists ds', (mkWorld d' tr').
  split.
  { rewrite /applyBoldMarkersPasses. cbn [get DocRemote start store].
    by rewrite Hrun. }
  cbn [trace store]. by rewrite Htr' app_nil_l.
Qed.

(** The texts of a document against its segments. *)
Lemma relDoc_text (ds : list (list Seg)) (d : Doc) :
  relDoc ds d → map paraText d = map segsText ds.
Proof.
  induction 1 as [|segs g ds d Hg _ IH]; first done.
  by rewrite /= (relSegs_text _ _ Hg) IH.
Qed.

Lemma settle_idemp (segs : list Seg) : map settle (map settle segs) = map settle segs.
Proof. rewrite map_map. apply map_ext. by intros []. Qed.

(** In a paragraph whose spans are done, the payload of a span that the
    styler does style and that nothing shadows is bold. *)
Lemma settled_payload_bold s1 x p s2 (g : Para) :
  relSegs (map settle (s1 ++ Marked x p :: s2)) g →
  styledPayload p → unshadowed (settledText s1) p →
  ∀ j, (j < length p)%nat →
       ∃ c, g !! (length (settledText s1) + j)%nat = Some (c, true).
Proof.
  rewrite map_app /=. intros Hrel Hst Hun j Hj.
  destruct (relFrom_app_inv _ _ _ _ Hrel) as (g1 & g2 & -> & H1 & H2).
  inversion H2 as [|? ? ? gp g3 [Hpt Hb] _]; subst.
  rewrite /settledText settle_idemp -/(settledText s1) app_nil_l in Hb.
  specialize (Hb Hst Hun).
  assert (length g1 = length (settledText s1)) as Hlen.
  { by rewrite -(length_map fst g1) -/(paraText g1) (relFrom_text _ _ _ H1). }
  assert (length gp = length p) as Hlenp.
  { by rewrite -(length_map fst gp) -/(paraText gp) Hpt. }
  rewrite lookup_app_r Hlen; first lia.
  replace (length (settledText s1) + j - length (settledText s1))%nat
    with j by lia.
  rewrite lookup_app_l; first lia.
  destruct (lookup_lt_is_Some_2 gp j) as [[c b] Hc]; first lia.
  exists c. rewrite Hc. f_equal. f_equal.
  rewrite Forall_forall in Hb. apply (Hb (c, b)).
  apply list_elem_of_lookup. eauto.
Qed.

(** C4 (amended).  On the reference store, from a document of at most 50
    well-formed spans with distinct ids, the styler returns; the text of
    every paragraph it leaves is the text without the delimiters, in which
    no delimiter begins; and the payload of every span is bold, provided
    it is not blank and no occurrence of its text begins before it and
    runs into it. *)
Theorem styler_styles_every_span (ds : list (list Seg)) (d : Doc) :
  wfDoc ds → relDoc ds d →
  (length (docSpans ds) ≤ PASS_CEILING)%nat →
  ∃ w', applyBoldMarkers (start d) = Returned w'
        ∧ map paraText (store w') = map settledText ds
        ∧ Forall (fun g => noKeyword (paraText g)) (store w')
        ∧ ∀ i s1 x p s2,
            ds !! i = Some (s1 ++ Marked x p :: s2) →
            styledPayload p → unshadowed (settledText s1) p →
            boldAt (store w') i (length (settledText s1)) (length p).
Proof.
  intros Hwf Hrel Hlen.
  destruct (boldLoop_run PASS_CEILING 0 ds d [] Hwf Hrel)
    as (ds' & d' & tr' & Hrun & Hwf' & Hrel' & Hspans' & Hsettle' & _).
  exists (mkWorld d' tr').
  split.
  { rewrite /applyBoldMarkers /applyBoldMarkersPasses.
    cbn [get DocRemote start store]. by rewrite Hrun. }
  cbn [store].
  rewrite drop_ge // in Hspans'.
  rewrite -(settle_doc_nil ds' Hspans') Hsettle' in Hrel'.
  pose proof (relDoc_text _ _ Hrel') as Htext.
  rewrite map_map in Htext.
  split; first done. split.
  - apply Forall_forall. intros g Hg.
    assert (paraText g ∈ map paraText d') as Hin by by apply list_elem_of_fmap_2.
    rewrite Htext in Hin. apply list_elem_of_fmap in Hin as (segs & -> & Hsegs).
    destruct Hwf as [Hw _]. rewrite Forall_forall in Hw.
    by destruct (Hw segs Hsegs).
  - intros i s1 x p s2 Hi Hst Hun.
    destruct (Forall2_lookup_l _ _ _ i (map settle (s1 ++ Marked x p :: s2))
                Hrel') as (g & Hg & Hrg).
    { by rewrite list_lookup_fmap Hi. }
    exists g. split; first done.
    by eapply settled_payload_bold.
Qed.
Lemma relFrom_plain pre (segs : list Seg) :
  Forall isPending segs →
  relFrom pre segs (map (fun c => (c, false)) (segsText segs)).
Proof.
  intros Hp. revert pre. induction Hp as [|s r Hs _ IH]; intros pre;
    first constructor.
  rewrite segsText_cons map_app. constructor; last done.
  split; first by rewrite map_glyphs_text. by destruct s.
Qed.

Lemma relDoc_plainDoc (ds : list (list Seg)) :
  Forall (Forall isPending) ds → relDoc ds (plainDoc ds).
Proof.
  induction 1 as [|segs ds Hs _ IH]; first constructor.
  constructor; [by apply relFrom_plain|done].
Qed.

Lemma validId_decide (id : text) :
  id ≠ [] → forallb isIdChar id = true → validId id.
Proof.
  intros Hne H. split; first done. apply Forall_forall. intros c Hc.
  rewrite forallb_forall in H. apply H. by apply list_elem_of_In.
Qed.

Lemma twoSpans_wf : wfDoc twoSpans.
Proof.
  split.
  - repeat constructor; try (apply validId_decide; by vm_compute);
      by vm_compute.
  - apply (bool_decide_unpack _). by vm_compute.
Qed.

Lemma twoSpans_rel : relDoc twoSpans (plainDoc twoSpans).
Proof. apply relDoc_plainDoc. by repeat constructor. Qed.

Lemma styler_passes_witness :
  ∃ ds' w',
    applyBoldMarkersPasses (start (plainDoc twoSpans))
    = ((PASS_CEILING `min` S (length (docSpans twoSpans)))%nat, Returned w')
    ∧ markerEdits (trace w')
      = (fun sp => (markerText sp.1 sp.2, sp.2))
        <$> take PASS_CEILING (docSpans twoSpans)
    ∧ wfDoc ds' ∧ relDoc ds' (store w')
    ∧ docSpans ds' = drop PASS_CEILING (docSpans twoSpans)
    ∧ map (map settle) ds' = map (map settle) twoSpans.
Proof.
  exact (proj2 (styler_passes twoSpans (plainDoc twoSpans)
                  twoSpans_wf twoSpans_rel)).
Defined.

Lemma unshadowed_decide (pre p : text) :
  forallb (fun q => negb (Nat.ltb (length pre) (q + length p))
                    || negb (startsWith p (drop q (pre ++ p))))
          (seq 0 (length pre)) = true →
  unshadowed pre p.
Proof.
  intros H q Hq Hq'. rewrite forallb_forall in H.
  specialize (H q). rewrite in_seq in H.
  specialize (H ltac:(lia)). apply orb_true_iff in H as [Hlt|Hs].
  - apply negb_true_iff, Nat.ltb_ge in Hlt. lia.
  - by apply negb_true_iff in Hs.
Qed.

Lemma styler_styles_every_span_witness :
  ∃ w', applyBoldMarkers (start (plainDoc twoSpans)) = Returned w'
        ∧ map paraText (store w') = map settledText twoSpans
        ∧ Forall (fun g => noKeyword (paraText g)) (store w')
        ∧ boldAt (store w') 0 4 5.
Proof.
  destruct (styler_styles_every_span twoSpans (plainDoc twoSpans)
              twoSpans_wf twoSpans_rel) as (w' & Hrun & Htext & Hno & Hbold).
  { vm_compute. lia. }
  exists w'. split; first done. split; first done. split; first done.
  apply (Hbold 0%nat [Plain (T "Led ")] (T "a1") (T "React")
               [Plain (T " team" ++ [nl])]).
  - done.
  - by vm_compute.
  - apply unshadowed_decide. by vm_compute.
Defined.

(** The run on the two lines: two passes that remove delimiters, a third
    that finds no span. *)
Example styler_two_spans :
  applyBoldMarkersPasses (start (plainDoc twoSpans))
  = (3%nat,
     Returned (mkWorld
       [plain "Led " ++ map (fun c => (c, true)) (T "React")
          ++ plain " team" ++ [(nl, false)];
        map (fun c => (c, true)) (T "AWS") ++ [(nl, false)]]
       [Sent [ReplaceAllText (markerText (T "a1") (T "React")) true (T "React")];
        Sent [UpdateTextStyleBold 5 10];
        Sent [ReplaceAllText (markerText (T "b2") (T "AWS")) true (T "AWS")];
        Sent [UpdateTextStyleBold 16 19]])).
Proof. by vm_compute. Qed.

Lemma manySpans_wf : wfDoc manySpans.
Proof.
  split.
  - rewrite /manySpans. apply Forall_fmap, Forall_forall. intros i _.
    split; last by vm_compute.
    simpl. split_and!; try done.
    split; first done. constructor; first done. by apply Forall_replicate.
  - apply (bool_decide_unpack _). by vm_compute.
Qed.

Lemma manySpans_rel : relDoc manySpans (plainDoc manySpans).
Proof.
  apply relDoc_plainDoc. rewrite /manySpans.
  apply Forall_fmap, Forall_forall. intros i _. by repeat constructor.
Qed.

Lemma relSegs_pending_keyword (segs : list Seg) (g : Para) :
  relSegs segs g → spansOf segs ≠ [] → ¬ noKeyword (paraText g).
Proof.
  intros Hrel Hsp. rewrite (relSegs_text _ _ Hrel) /noKeyword.
  destruct (spansOf segs) as [|[x p] tl] eqn:Es; first done.
  destruct (spansOf_first _ _ _ _ Es) as (s1 & s2 & -> & _ & _).
  rewrite segsText_app segsText_cons. cbn [segText].
  rewrite markerText_cons -/KEYWORD -!app_assoc includes_middle. done.
Qed.

(** A document that still holds a span holds the beginning of a
    delimiter. *)
Lemma relDoc_pending_keyword (ds : list (list Seg)) (d : Doc) :
  relDoc ds d → docSpans ds ≠ [] →
  ¬ Forall (fun g => noKeyword (paraText g)) d.
Proof.
  induction 1 as [|segs g ds d Hg _ IH]; first done.
  rewrite docSpans_cons. intros Hsp [Hat Hrest]%Forall_cons.
  destruct (spansOf segs) as [|sp sps] eqn:Es.
  - by apply IH.
  - apply (relSegs_pending_keyword segs g Hg); [by rewrite Es|done].
Qed.

(** The state in which the styler leaves a document of well-formed
    spans: the spans beyond the ceiling are still to process. *)
Lemma applyBoldMarkers_leaves (ds : list (list Seg)) (d : Doc) :
  wfDoc ds → relDoc ds d →
  ∃ ds' w', applyBoldMarkers (start d) = Returned w'
            ∧ relDoc ds' (store w')
            ∧ docSpans ds' = drop PASS_CEILING (docSpans ds).
Proof.
  intros Hwf Hrel.
  destruct (boldLoop_run PASS_CEILING 0 ds d [] Hwf Hrel)
    as (ds' & d' & tr' & Hloop & _ & Hrel' & Hspans' & _).
  exists ds', (mkWorld d' tr').
  rewrite /applyBoldMarkers /applyBoldMarkersPasses.
  cbn [get DocRemote start store]. by rewrite Hloop.
Qed.

Lemma manySpans_beyond_ceiling : drop PASS_CEILING (docSpans manySpans) ≠ [].
Proof. by vm_compute. Qed.

(** C4 as stated fails in five ways.  Of fifty-one well-formed spans with
    distinct ids, the last one keeps its delimiters: the loop stops at its
    ceiling of 50 passes.  A blank payload gets no style.  When the text
    before the span and the beginning of the payload read as the payload,
    the style goes to that occurrence and the payload is bold in part
    only.  When the text before the span holds an opening delimiter with
    the id of the span, the pattern matches from there and the delimiter
    of the span stays.  And when payloads and the text after a span begin
    with the keyword without its two [@], the replacement of the first
    span also takes the end of the closing delimiter of another span, whose
    delimiters stay. *)
Lemma styler_styles_every_span_counterexample :
  ¬ (∀ (ds : list (list Seg)) (d : Doc),
       wfDoc ds → relDoc ds d →
       ∃ w', applyBoldMarkers (start d) = Returned w'
             ∧ Forall (fun g => noKeyword (paraText g)) (store w'))
  ∧ store (outcomeWorld (applyBoldMarkers (start (plainDoc blankSpan))))
    = [line "a b"]
  ∧ store (outcomeWorld (applyBoldMarkers (start (plainDoc shadowedSpan))))
    = [map (fun c => (c, true)) (T "test") ++ line "est"]
  ∧ map paraText
        (store (outcomeWorld
                  (applyBoldMarkers (start (plainDoc strayDelimiter)))))
    = [T "x @@BOLD-a@@y" ++ [nl]]
  ∧ map paraText
        (store (outcomeWorld
                  (applyBoldMarkers (start (plainDoc keywordAfterDelimiter)))))
    = [T "BOLD-y" ++ [nl];
       T "@@BOLD-a@@ok@@BOLD-a-ENDBOLD-yBOLD-y-END@@" ++ [nl]].
Proof.
  split; last by vm_compute.
  intros Hall.
  destruct (Hall manySpans (plainDoc manySpans) manySpans_wf manySpans_rel)
    as (w' & Hrun & Hclean).
  destruct (applyBoldMarkers_leaves manySpans (plainDoc manySpans)
              manySpans_wf manySpans_rel)
    as (ds' & w2 & Hrun2 & Hrel' & Hspans').
  pose proof (eq_trans (eq_sym Hrun) Hrun2) as E. injection E as ->.
  apply (relDoc_pending_keyword ds' (store w2) Hrel'); last done.
  rewrite Hspans'. apply manySpans_beyond_ceiling.
Qed.

(** C5 as stated fails in three ways.  On two lines with one span each the
    loop makes three passes: the last one finds no span.  When two spans
    are the same text, one pass removes the delimiters of both.  And when
    the text after a delimiter begins with the keyword without its two
    [@], the one replacement the loop sends breaks the two other spans, and
    the second pass finds no span. *)
Lemma styler_passes_counterexample :
  (length (docSpans twoSpans) = 2%nat
   ∧ (applyBoldMarkersPasses (start (plainDoc twoSpans))).1 = 3%nat)
  ∧ (length (docSpans sameSpanTwice) = 2%nat
     ∧ markerEdits
         (trace (outcomeWorld
                   (applyBoldMarkers (start (plainDoc sameSpanTwice)))))
       = [(markerText (T "a1") (T "React"), T "React")]
     ∧ map paraText
           (store (outcomeWorld
                     (applyBoldMarkers (start (plainDoc sameSpanTwice)))))
       = [T "React" ++ [nl]; T "React" ++ [nl]])
  ∧ (length (docSpans keywordAfterDelimiter) = 3%nat
     ∧ (applyBoldMarkersPasses (start (plainDoc keywordAfterDelimiter))).1
       = 2%nat
     ∧ markerEdits
         (trace (outcomeWorld
                   (applyBoldMarkers
                      (start (plainDoc keywordAfterDelimiter)))))
       = [(markerText (T "x") (T "BOLD-y"), T "BOLD-y")])
  ∧ ¬ (∀ (ds : list (list Seg)) (d : Doc),
         wfDoc ds → relDoc ds d →
         ((applyBoldMarkersPasses (start d)).1 ≤ length (docSpans ds))%nat).
Proof.
  split; first by vm_compute. split; first by vm_compute.
  split; first by vm_compute.
  intros Hall.
  specialize (Hall twoSpans (plainDoc twoSpans) twoSpans_wf twoSpans_rel).
  vm_compute in Hall. lia.
Qed.

(* ===================================================================== *)
(** ** Further properties of the stages *)
(* ===================================================================== *)

(** *** The order in which the sweeper visits the paragraphs *)

Lemma insertDesc_perm p l : insertDesc p l ≡ₚ p :: l.
Proof.
  induction l as [|q l IH]; simpl; first done.
  destruct (p.1 <? q.1); last done.
  by rewrite IH Permutation_swap.
Qed.

Lemma insertDesc_sorted p l :
  StronglySorted (fun a b : Z * Z => b.1 ≤ a.1) l →
  StronglySorted (fun a b : Z * Z => b.1 ≤ a.1) (insertDesc p l).
Proof.
  induction 1 as [|q l Hl IH Hq]; simpl.
  { repeat constructor. }
  destruct (Z.ltb_spec p.1 q.1) as [Hlt|Hge].
  - constructor; first done.
    rewrite insertDesc_perm. constructor; [lia|done].
  - constructor; first by constructor.
    constructor; first lia.
    eapply Forall_impl; first exact Hq. simpl. intros; lia.
Qed.

Lemma insertDesc_filter z p l :
  filter (fun q : Z * Z => q.1 = z) (insertDesc p l)
  = filter (fun q : Z * Z => q.1 = z) (p :: l).
Proof.
  induction l as [|q l IH]; simpl; first done.
  destruct (Z.ltb_spec p.1 q.1) as [Hlt|Hge]; last done.
  rewrite filter_cons IH !filter_cons.
  destruct (decide (q.1 = z)), (decide (p.1 = z)); try done. lia.
Qed.

Lemma sortDesc_perm (l : list (Z * Z)) : sortDesc l ≡ₚ l.
Proof.
  induction l as [|p l IH]; simpl; first done.
  by rewrite insertDesc_perm IH.
Qed.

(** X1 ([paragraphs.sort] of [removeEmptyBarLinesOneByOne]): the sorted
    array holds the same paragraphs, by descending start offset, and the
    paragraphs of one start offset keep the order they had. *)
Theorem sortDesc_stable_descending (l : list (Z * Z)) :
  sortDesc l ≡ₚ l
  ∧ StronglySorted (fun a b : Z * Z => b.1 ≤ a.1) (sortDesc l)
  ∧ ∀ z, filter (fun q : Z * Z => q.1 = z) (sortDesc l)
         = filter (fun q : Z * Z => q.1 = z) l.
Proof.
  split; first apply sortDesc_perm.
  induction l as [|p l (IHs & IHf)]; simpl.
  { split; first constructor. done. }
  split; first by apply insertDesc_sorted.
  intros z. by rewrite insertDesc_filter !filter_cons IHf.
Qed.

(** *** The lookup of a paragraph by its recorded offset *)

(** X2 ([findParagraphByRange]): the lookup answers nothing only when no
    block of the document is a paragraph with both offsets; otherwise it
    answers a paragraph of the document at the least distance from the
    target, whether or not one starts at the target. *)
Theorem findParagraphByRange_nearest (doc : Content) (target : Z) :
  (findParagraphByRange doc target = None
   ↔ ∀ x, x ∈ doc → ¬ locatable x)
  ∧ ∀ m, findParagraphByRange doc target = Some m →
         m ∈ doc ∧ locatable m
         ∧ ∀ x, x ∈ doc → locatable x →
                Z.abs (default 0 (startIndex m) - target)
                ≤ Z.abs (default 0 (startIndex x) - target).
Proof.
  pose proof (findParagraphByRange_spec doc target) as Hspec.
  destruct (findParagraphByRange doc target) as [m|].
  - destruct Hspec as (Hm & Hloc & Hmin). split.
    + split; first done. intros Hno. by destruct (Hno m Hm).
    + intros ? [= <-]. done.
  - split; first done. intros ? [=].
Qed.

(** *** The batches of style requests *)

Lemma chunksOf_sizes fuel (l : list Request) :
  (length l ≤ fuel)%nat →
  Forall (fun c => (0 < length c ≤ BATCH_SIZE)%nat) (chunksOf fuel l)
  ∧ length (chunksOf fuel l) = ((length l + 9) / 10)%nat.
Proof.
  revert l. induction fuel as [|fuel IH]; intros l Hl.
  { destruct l; simpl in *; [done|lia]. }
  destruct l as [|r l]; first done.
  cbn [chunksOf].
  destruct (IH (drop BATCH_SIZE (r :: l))) as [IHa IHb].
  { rewrite length_drop /BATCH_SIZE. simpl in *. lia. }
  split.
  - constructor; last done.
    rewrite length_take /BATCH_SIZE. cbn [length]. lia.
  - cbn [length]. rewrite IHb length_drop /BATCH_SIZE.
    cbn [length].
    destruct (decide (length l < 10)%nat) as [Hlt|Hge].
    + replace (S (length l) - 10)%nat with 0%nat by lia.
      change ((0 + 9) `div` 10)%nat with 0%nat.
      apply Nat.div_unique with (r := length l); lia.
    + replace (S (length l) + 9)%nat
        with ((S (length l) - 10 + 9) + 1 * 10)%nat by lia.
      rewrite Nat.div_add; lia.
Qed.

(** X3 (the slices of [applyBoldMarkers]): the style requests of a pass are
    cut into consecutive batches that give the requests back in order; no
    batch is empty, none has more than ten requests, and there are
    [ceil (n / 10)] of them. *)
Theorem chunks_partition (l : list Request) :
  concat (chunks l) = l
  ∧ Forall (fun c => (0 < length c ≤ BATCH_SIZE)%nat) (chunks l)
  ∧ length (chunks l) = ((length l + 9) / 10)%nat.
Proof.
  split; first apply chunks_concat.
  by apply chunksOf_sizes.
Qed.

(** *** The scan of a text run for the payload *)

Lemma occurrences_from (t s : text) skip pos :
  t ≠ [] →
  Forall (fun p => (pos + skip ≤ p)%nat
                   ∧ take (length t) (drop (p - pos) s) = t)
         (occurrences t s skip pos)
  ∧ StronglySorted (fun a b => (a + length t ≤ b)%nat)
                   (occurrences t s skip pos).
Proof.
  intros Ht. revert skip pos.
  induction s as [|c s IH]; intros skip pos.
  { split; constructor. }
  assert (∀ k, Forall (fun p => (S pos + k ≤ p)%nat
                   ∧ take (length t) (drop (p - S pos) s) = t)
                 (occurrences t s k (S pos)) →
               Forall (fun p => (S pos + k ≤ p)%nat
                   ∧ take (length t) (drop (p - pos) (c :: s)) = t)
                 (occurrences t s k (S pos))) as Hshift.
  { intros k Hk. eapply Forall_impl; first exact Hk.
    simpl. intros p [Hp Heq]. split; first done.
    replace (p - pos)%nat with (S (p - S pos)) by lia. done. }
  cbn [occurrences]. destruct skip as [|k].
  - destruct (startsWith t (c :: s)) eqn:Hsw.
    + destruct (IH (length t - 1)%nat (S pos)) as [IHa IHb].
      assert (0 < length t)%nat by (destruct t; [done|simpl; lia]).
      split.
      * constructor.
        { split; first lia. rewrite Nat.sub_diag drop_0.
          apply startsWith_spec in Hsw as [r ->].
          by rewrite take_app_length. }
        eapply Forall_impl; first exact (Hshift _ IHa).
        simpl. intros p [? ?]. split; [lia|done].
      * constructor; first done.
        eapply Forall_impl; first exact IHa.
        simpl. intros p [? ?]. lia.
    + destruct (IH 0%nat (S pos)) as [IHa IHb]. split; last done.
      eapply Forall_impl; first exact (Hshift _ IHa).
      simpl. intros p [? ?]. split; [lia|done].
  - destruct (IH k (S pos)) as [IHa IHb]. split; last done.
    eapply Forall_impl; first exact (Hshift _ IHa).
    simpl. intros p [? ?]. split; [lia|done].
Qed.

(** X4 (the [indexOf] loop of [applyBoldMarkers]): every position the scan
    of a run reports is an occurrence of the payload, and the reported
    positions increase by at least the length of the payload, so that no
    two styled ranges of a run overlap. *)
Theorem occurrences_sound (t s : text) :
  t ≠ [] →
  Forall (fun p => take (length t) (drop p s) = t) (occurrences t s 0 0)
  ∧ StronglySorted (fun a b => (a + length t ≤ b)%nat) (occurrences t s 0 0).
Proof.
  intros Ht. destruct (occurrences_from t s 0 0 Ht) as [Ha Hb].
  split; last done.
  eapply Forall_impl; first exact Ha.
  simpl. intros p [_ Hp]. by rewrite Nat.sub_0_r in Hp.
Qed.

Lemma occurrences_sound_witness :
  T "ab" ≠ []
  ∧ Forall (fun p => take 2 (drop p (T "abxabab")) = T "ab")
           (occurrences (T "ab") (T "abxabab") 0 0)
  ∧ occurrences (T "ab") (T "abxabab") 0 0 = [0; 3; 5]%nat.
Proof.
  split; first done.
  split; last done.
  apply (occurrences_sound (T "ab") (T "abxabab")). done.
Defined.

(** *** The tokens of the resolver *)

Lemma spanNonBrace_spec (s : text) :
  s = (spanNonBrace s).1 ++ (spanNonBrace s).2
  ∧ Forall (fun c => isBrace c = false) (spanNonBrace s).1.
Proof.
  induction s as [|c s [IHa IHb]]; simpl; first done.
  destruct (isBrace c) eqn:Hc; simpl; first done.
  destruct (spanNonBrace s) as [r rest]; simpl in *.
  split; first by rewrite {1}IHa. by constructor.
Qed.

Lemma placeholderAt_spec (s tok : text) :
  placeholderAt s = Some tok →
  ∃ name rest, tok = T "{{" ++ name ++ T "}}" ∧ name ≠ []
    ∧ Forall (fun c => isBrace c = false) name ∧ s = tok ++ rest.
Proof.
  rewrite /placeholderAt.
  destruct (startsWith (T "{{") s) eqn:Hopen; last done.
  apply startsWith_spec in Hopen as [r ->].
  change (drop 2 (T "{{" ++ r)) with r.
  destruct (spanNonBrace_spec r) as [Hr Hname].
  destruct (spanNonBrace r) as [name rest]; cbn [fst snd] in *.
  destruct name as [|c name]; first done.
  cbn [truthyText andb].
  destruct (startsWith (T "}}") rest) eqn:Hclose; last done.
  apply startsWith_spec in Hclose as [r' ->].
  intros [= <-]. exists (c :: name), r'.
  split; first done. split; first done. split; first done.
  rewrite Hr. cbn [app]. by rewrite -?app_assoc.
Qed.

Lemma keyOf_token (name : text) :
  Forall (fun c => isBrace c = false) name →
  keyOf (T "{{" ++ name ++ T "}}") = trim name.
Proof.
  intros Hname. rewrite /keyOf. f_equal.
  rewrite !filter_app.
  change (filter _ (T "{{")) with (@nil ascii).
  change (filter _ (T "}}")) with (@nil ascii).
  rewrite app_nil_r /=.
  induction Hname as [|c name Hc _ IH]; first done.
  rewrite filter_cons IH. by destruct (decide (isBrace c = false)).
Qed.

Lemma matchPlaceholders_from (s : text) skip :
  Forall (fun tok =>
            ∃ name, tok = T "{{" ++ name ++ T "}}" ∧ name ≠ []
              ∧ Forall (fun c => isBrace c = false) name
              ∧ ∃ a b, s = a ++ tok ++ b)
         (matchPlaceholders s skip).
Proof.
  revert skip. induction s as [|c s IH]; intros skip; first constructor.
  assert (∀ k, Forall (fun tok =>
            ∃ name, tok = T "{{" ++ name ++ T "}}" ∧ name ≠ []
              ∧ Forall (fun c => isBrace c = false) name
              ∧ ∃ a b, c :: s = a ++ tok ++ b)
         (matchPlaceholders s k)) as Hshift.
  { intros k. eapply Forall_impl; first exact (IH k).
    simpl. intros tok (name & ? & ? & ? & a & b & ->).
    exists name. repeat (split; first done). by exists (c :: a), b. }
  cbn [matchPlaceholders]. destruct skip as [|k]; last done.
  destruct (placeholderAt (c :: s)) as [tok|] eqn:Hat; last done.
  constructor; last done.
  apply placeholderAt_spec in Hat as (name & rest & ? & ? & ? & Hs).
  exists name. repeat (split; first done). by exists [], rest.
Qed.

(** X5 (the pattern and the key of [doReplacePlaceholders]): every token
    the scan of a text run finds is a part of the run of the form
    [{{name}}] with a name that is not empty and has no brace, and the key
    looked up for it is the name without the white space around it. *)
Theorem matchPlaceholders_tokens (s : text) :
  Forall (fun tok =>
            ∃ name, tok = T "{{" ++ name ++ T "}}" ∧ name ≠ []
              ∧ Forall (fun c => isBrace c = false) name
              ∧ keyOf tok = trim name
              ∧ ∃ a b, s = a ++ tok ++ b)
         (matchPlaceholders s 0).
Proof.
  eapply Forall_impl; first exact (matchPlaceholders_from s 0).
  simpl. intros tok (name & -> & ? & Hname & Hocc).
  exists name. repeat (split; first done).
  split; last done. by apply keyOf_token.
Qed.

(** *** The removal of the star pairs *)

Lemma stripBoldFrom_skip (x c : text) :
  stripBoldFrom (x ++ c) (length x) = stripBoldFrom c 0.
Proof. induction x as [|a x IH]; simpl; done. Qed.

Lemma stripBoldFrom_plain (a rest : text) :
  Forall (fun c => c ≠ "*"%char) a →
  stripBoldFrom (a ++ rest) 0 = a ++ stripBoldFrom rest 0.
Proof.
  induction 1 as [|c a Hc _ IH]; first done.
  cbn [app stripBoldFrom].
  rewrite (startsWith_head "*"%char); first done.
  by rewrite IH.
Qed.

Lemma boldBody_found (b c : text) :
  Forall (fun x => x ≠ "*"%char ∧ isLineTerminator x = false) b →
  boldBody (b ++ T "**" ++ c) = Some b.
Proof.
  induction 1 as [|x b [Hx Hlt] _ IH].
  { cbn [app]. destruct c; done. }
  cbn [app boldBody].
  rewrite (startsWith_head "*"%char); first done.
  by rewrite Hlt IH.
Qed.

Lemma stripBoldFrom_open (r : text) :
  stripBoldFrom ("*"%char :: "*"%char :: r) 0
  = match boldBody r with
    | Some body => body ++ stripBoldFrom ("*"%char :: r) (length body + 3)
    | None => "*"%char :: stripBoldFrom ("*"%char :: r) 0
    end.
Proof. done. Qed.

(** X6 (the replacement [/\*\*(.*?)\*\*/g] of [doReplacePlaceholders]): a
    value without a star is inserted as it is; a pair of double stars
    around a text of one line without a star is removed, the text stays,
    and the removal goes on after the pair. *)
Theorem stripBold_pair (a b c : text) :
  Forall (fun x => x ≠ "*"%char) a →
  Forall (fun x => x ≠ "*"%char ∧ isLineTerminator x = false) b →
  stripBold a = a
  ∧ stripBold (a ++ T "**" ++ b ++ T "**" ++ c) = a ++ b ++ stripBold c.
Proof.
  intros Ha Hb. rewrite /stripBold. split.
  { rewrite -(app_nil_r a) stripBoldFrom_plain; first done.
    by rewrite app_nil_r. }
  rewrite stripBoldFrom_plain; first done. f_equal.
  change (T "**" ++ b ++ T "**" ++ c)
    with ("*"%char :: "*"%char :: b ++ T "**" ++ c).
  rewrite stripBoldFrom_open.
  rewrite boldBody_found; first done. f_equal.
  rewrite -(stripBoldFrom_skip ("*"%char :: b ++ T "**") c). f_equal.
  - by rewrite /= -app_assoc.
  - rewrite /= length_app /=. lia.
Qed.

Lemma stripBold_pair_witness :
  stripBold (T "Led ") = T "Led "
  ∧ stripBold (T "Led " ++ T "**" ++ T "React" ++ T "**" ++ T " team")
    = T "Led " ++ T "React" ++ stripBold (T " team").
Proof.
  apply (stripBold_pair (T "Led ") (T "React") (T " team")).
  - repeat (constructor; first done). constructor.
  - repeat (constructor; first done). constructor.
Defined.

(** *** What the stages send, on any store *)

Lemma batches_app tr1 tr2 : batches (tr1 ++ tr2) = batches tr1 ++ batches tr2.
Proof. apply omap_app. Qed.

Lemma send_trace `{Remote Store} reqs (w : World Store) :
  ∃ evs, trace (outcomeWorld (send reqs w)) = trace w ++ evs
         ∧ batches evs = [reqs].
Proof.
  rewrite /send. destruct (batchUpdate (store w) reqs).
  - by exists [Sent reqs].
  - by exists [Rejected reqs].
Qed.

Lemma trySend_trace `{Remote Store} reqs wn (w : World Store) :
  ∃ evs, trace (trySend reqs wn w) = trace w ++ evs ∧ batches evs = [reqs].
Proof.
  rewrite /trySend /send. destruct (batchUpdate (store w) reqs).
  - by exists [Sent reqs].
  - exists [Rejected reqs; Warn wn]. by rewrite /= -app_assoc.
Qed.

Lemma removeSection_trace `{Remote Store} h (w : World Store) :
  (get (store w) = Rejects → removeSection h w = Raised w)
  ∧ (get (store w) ≠ Rejects →
     ∃ w' evs,
       removeSection h w = Returned w' ∧ trace w' = trace w ++ evs
       ∧ (batches evs = []
          ∨ ∃ s e, batches evs = [[DeleteContentRange s e]] ∧ s ≠ 0 ∧ e ≠ 0)
       ∧ (∀ doc, get (store w) = Resolves (Some doc) →
                 findStartIdx doc h = None → w' = w)).
Proof.
  rewrite /removeSection.
  destruct (get (store w)) as [|[doc|]] eqn:Hget.
  { split; [done|by intros []]. }
  2:{ split; first done. intros _.
      exists w, []. rewrite app_nil_r. repeat split; auto. }
  split; first done. intros _.
  rewrite /planSection.
  destruct (findStartIdx doc h) as [startIdx|] eqn:Hstart.
  2:{ exists w, []. rewrite app_nil_r. repeat split; auto. }
  assert (∃ w' evs, Returned w = Returned w' ∧ trace w' = trace w ++ evs
    ∧ (batches evs = []
       ∨ ∃ s e, batches evs = [[DeleteContentRange s e]] ∧ s ≠ 0 ∧ e ≠ 0)
    ∧ (∀ doc0, Resolves (Some doc) = Resolves (Some doc0) →
               findStartIdx doc0 h = None → w' = w))
    as Hsame.
  { exists w, []. rewrite app_nil_r. repeat split; auto. }
  cbv zeta.
  destruct (doc !! startIdx) as [startItem|]; last done.
  destruct (doc !! findEndIdx doc h startIdx) as [endItem|]; last done.
  destruct (startIndex startItem) as [s|]; last done.
  destruct (endIndex endItem) as [e|]; last done.
  cbn [truthyIndex].
  destruct (Z.eqb_spec s 0) as [->|Hs]; first done.
  destruct (Z.eqb_spec e 0) as [->|He]; first done.
  cbn [negb andb].
  destruct (trySend_trace [DeleteContentRange s e] (WarnRemoveSection h) w)
    as (evs & Htr & Hb).
  eexists _, evs. split; first done. split; first done.
  split; first (right; by exists s, e).
  intros doc0 [= <-] Hnone. congruence.
Qed.

(** X7 ([removeSection]): the call rejects when its read of the document
    rejects, and then it has sent nothing; otherwise it returns, also when
    its batch is rejected; it sends nothing when the heading is not in the
    document, and otherwise at most one batch, made of one deletion between
    two offsets that are not zero. *)
Theorem removeSection_single_delete `{Remote Store} h (w : World Store) :
  (get (store w) = Rejects → removeSection h w = Raised w)
  ∧ (get (store w) ≠ Rejects →
     ∃ w' evs,
       removeSection h w = Returned w' ∧ trace w' = trace w ++ evs
       ∧ (batches evs = []
          ∨ ∃ s e, batches evs = [[DeleteContentRange s e]] ∧ s ≠ 0 ∧ e ≠ 0)
       ∧ (∀ doc, get (store w) = Resolves (Some doc) →
                 findStartIdx doc h = None → w' = w)).
Proof. apply removeSection_trace. Qed.

Lemma pruneLoop_trace `{Remote Store} data (l : list Section_)
    (w : World Store) :
  let o := foldl (fun o s => if dataCheck s data then o
                             else o >>> removeSection (heading s))
                 (Returned w) l in
  ∃ evs,
    trace (outcomeWorld o) = trace w ++ evs
    ∧ Forall (fun b => ∃ s e, b = [DeleteContentRange s e]) (batches evs)
    ∧ (length (batches evs)
       ≤ length (filter (fun s => dataCheck s data = false) l))%nat
    ∧ (∀ w', o = Raised w' → get (store w') = Rejects)
    ∧ ((∀ s, s ∈ l → dataCheck s data = true) → o = Returned w).
Proof.
  assert (∀ l (w' : World Store),
            foldl (fun o s => if dataCheck s data then o
                              else o >>> removeSection (heading s))
                  (Raised w') l = Raised w') as Hraised.
  { intros l0 w'. induction l0 as [|s l0 IH]; first done.
    cbn [foldl]. by destruct (dataCheck s data). }
  revert w. induction l as [|s l IH]; intros w.
  { exists []. rewrite app_nil_r. repeat split; auto. done. }
  cbn [foldl]. cbv zeta. rewrite filter_cons.
  destruct (dataCheck s data) eqn:Hs.
  - destruct (IH w) as (evs & Htr & Hdel & Hlen & Hrej & Hsame).
    exists evs.
    split; first exact Htr. split; first exact Hdel.
    split; first by destruct (decide (true = false)).
    split; first exact Hrej.
    intros Hall. apply Hsame. intros s' Hs'. apply Hall. set_solver.
  - cbn [andThen].
    destruct (decide (false = false)) as [_|]; last done.
    destruct (removeSection_trace (heading s) w) as [Hrejects Hreturns].
    destruct (get (store w)) as [|body] eqn:Hget.
    + rewrite (Hrejects eq_refl) Hraised. exists [].
      rewrite app_nil_r. split; first done. split; first constructor.
      split; first (simpl; lia). split.
      * by intros w' [= <-].
      * intros Hall. specialize (Hall s ltac:(set_solver)). congruence.
    + destruct Hreturns as (w1 & evs1 & -> & Htr1 & Hb1 & _); first done.
      destruct (IH w1) as (evs & Htr & Hdel & Hlen & Hrej & _).
      exists (evs1 ++ evs).
      split; first by rewrite Htr Htr1 app_assoc.
      rewrite batches_app.
      split; last split; last split.
      * apply Forall_app. split; last done.
        destruct Hb1 as [->|(s0 & e0 & -> & _)]; first constructor.
        constructor; last constructor. by exists s0, e0.
      * rewrite length_app. cbn [length].
        destruct Hb1 as [->|(s0 & e0 & -> & _)]; simpl; lia.
      * exact Hrej.
      * intros Hall. specialize (Hall s ltac:(set_solver)). congruence.
Qed.

(** X8 ([removeEmptySections]): the stage is rejected only by a read of
    the document that rejects, and returns otherwise, also when deletions
    are rejected; it sends only single deletions, at most one for each
    section whose data are absent, and it returns the world as it is when
    no section is absent. *)
Theorem removeEmptySections_prunes_absent `{Remote Store}
    (data : ResumeData) (w : World Store) :
  ∃ evs,
    trace (outcomeWorld (removeEmptySections data w)) = trace w ++ evs
    ∧ Forall (fun b => ∃ s e, b = [DeleteContentRange s e]) (batches evs)
    ∧ (length (batches evs)
       ≤ length (filter (fun s => dataCheck s data = false) RESUME_SECTIONS))%nat
    ∧ (∀ w', removeEmptySections data w = Raised w' →
             get (store w') = Rejects)
    ∧ ((∀ s, dataCheck s data = true) →
       removeEmptySections data w = Returned w).
Proof.
  destruct (pruneLoop_trace data RESUME_SECTIONS w)
    as (evs & Htr & Hdel & Hlen & Hrej & Hsame).
  exists evs. repeat (split; first done).
  intros Hall. apply Hsame. auto.
Qed.

Lemma heading_kept_iff (data : ResumeData) s :
  heading s ∈ buildHeadingsListFromData data ↔ dataCheck s data = true.
Proof.
  rewrite /buildHeadingsListFromData list_elem_of_fmap. split.
  - intros (s' & Heq & Hin). apply heading_inj in Heq as <-.
    by apply list_elem_of_filter in Hin as [? _].
  - intros Hs. exists s. split; first done.
    apply list_elem_of_filter. split; first done.
    rewrite /RESUME_SECTIONS. destruct s; set_solver.
Qed.

(** X9 ([buildHeadingsListFromData] against [removeEmptySections]): the
    list of headings to keep holds the heading of a section exactly when
    the check of the section succeeds; it follows the declaration order and
    has no heading twice; and the pruner runs [removeSection] for the
    declared headings that are not in the list, in declaration order, so
    that a heading is either kept for the sweeper or given to the
    pruner. *)
Theorem headings_kept_iff_present (data : ResumeData) :
  (∀ s, heading s ∈ buildHeadingsListFromData data
        ↔ dataCheck s data = true)
  ∧ buildHeadingsListFromData data `sublist_of` getAllHeadings
  ∧ NoDup (buildHeadingsListFromData data)
  ∧ (∀ Store (R : Remote Store) (w : World Store),
       removeEmptySections data w
       = foldl (fun o h => o >>> removeSection h) (Returned w)
               (filter (fun h => h ∉ buildHeadingsListFromData data)
                       getAllHeadings)).
Proof.
  split; first apply heading_kept_iff.
  split; last split.
  - apply (fmap_sublist heading), sublist_filter.
  - apply NoDup_fmap_2; first (intros a b; apply heading_inj).
    apply NoDup_filter. rewrite /RESUME_SECTIONS.
    repeat (constructor; first set_solver). constructor.
  - intros Store R w. rewrite removeEmptySections_absent /getAllHeadings.
    generalize (Returned w). generalize RESUME_SECTIONS.
    intros l. induction l as [|s l IH]; intros o; first done.
    cbn [map]. rewrite !filter_cons.
    pose proof (heading_kept_iff data s) as Hs.
    destruct (dataCheck s data) eqn:Hc.
    + destruct (decide (true = false)) as [|_]; first done.
      destruct (decide (heading s ∉ buildHeadingsListFromData data))
        as [Hn|_]; first by destruct Hn; apply Hs.
      apply IH.
    + destruct (decide (false = false)) as [_|]; last done.
      destruct (decide (heading s ∉ buildHeadingsListFromData data))
        as [_|Hn].
      * cbn [foldl]. apply IH.
      * destruct Hn. intros Hin. apply Hs in Hin. done.
Qed.

(** *** The sweeper, on any store *)

Lemma sweepLoop_trace `{Remote Store} hl (ps : list (Z * Z))
    (w : World Store) :
  ∃ evs,
    trace (outcomeWorld (sweepLoop hl ps w)) = trace w ++ evs
    ∧ Forall (fun b => ∃ s e, b = [DeleteContentRange s e]) (batches evs)
    ∧ (length (batches evs) ≤ length ps)%nat
    ∧ (∀ w', sweepLoop hl ps w = Raised w' → get (store w') = Rejects).
Proof.
  revert w. induction ps as [|p ps IH]; intros w.
  { exists []. rewrite app_nil_r. repeat split; auto. done. }
  cbn [sweepLoop].
  destruct (get (store w)) as [|[doc|]] eqn:Hget.
  { exists []. rewrite app_nil_r. repeat split; auto.
    - simpl; lia.
    - by intros w' [= <-]. }
  2:{ exists []. rewrite app_nil_r. repeat split; auto.
      - simpl; lia.
      - done. }
  destruct (sweepTarget doc hl p) as [m|].
  - set (w1 := trySend _ _ w).
    destruct (trySend_trace [deleteParagraph m]
                (WarnRemoveParagraph (orZero (startIndex m))
                                     (orZero (endIndex m))) w)
      as (evs1 & Htr1 & Hb1).
    destruct (IH w1) as (evs & Htr & Hdel & Hlen & Hrej).
    exists (evs1 ++ evs). split; first by rewrite Htr Htr1 app_assoc.
    rewrite batches_app Hb1. split; last split.
    + constructor; last done. by eexists _, _.
    + simpl. lia.
    + exact Hrej.
  - destruct (IH w) as (evs & Htr & Hdel & Hlen & Hrej).
    exists evs. repeat (split; first done). split; last done. simpl. lia.
Qed.

Lemma sweeper_trace `{Remote Store} hl (w : World Store) :
  ∃ evs,
    trace (outcomeWorld (removeEmptyBarLinesOneByOne hl w)) = trace w ++ evs
    ∧ Forall (fun b => ∃ s e, b = [DeleteContentRange s e]) (batches evs)
    ∧ (length (batches evs)
       ≤ match get (store w) with
         | Resolves (Some doc) => length (collectParagraphs doc)
         | _ => 0
         end)%nat
    ∧ (∀ w', removeEmptyBarLinesOneByOne hl w = Raised w' →
             get (store w') = Rejects).
Proof.
  rewrite /removeEmptyBarLinesOneByOne.
  destruct (get (store w)) as [|[doc|]] eqn:Hget.
  { exists []. rewrite app_nil_r. repeat split; auto. by intros w' [= <-]. }
  2:{ exists []. rewrite app_nil_r. repeat split; auto. done. }
  destruct (sweepLoop_trace hl (sortDesc (collectParagraphs doc)) w)
    as (evs & Htr & Hdel & Hlen & Hrej).
  exists evs. repeat (split; first done). split; last done.
  by rewrite -(Permutation_length (sortDesc_perm (collectParagraphs doc))).
Qed.

(** X10 ([removeEmptyBarLinesOneByOne]): the stage is rejected only by a
    read of the document that rejects, and returns otherwise, also when
    deletions are rejected; every batch it sends is one deletion of one
    range, and it sends at most one batch for each paragraph of the
    document it read at the start. *)
Theorem sweeper_single_deletions `{Remote Store} hl (w : World Store) :
  ∃ evs,
    trace (outcomeWorld (removeEmptyBarLinesOneByOne hl w)) = trace w ++ evs
    ∧ Forall (fun b => ∃ s e, b = [DeleteContentRange s e]) (batches evs)
    ∧ (length (batches evs)
       ≤ match get (store w) with
         | Resolves (Some doc) => length (collectParagraphs doc)
         | _ => 0
         end)%nat
    ∧ (∀ w', removeEmptyBarLinesOneByOne hl w = Raised w' →
             get (store w') = Rejects).
Proof. apply sweeper_trace. Qed.

(** *** The resolver, on any store *)

Lemma placeholderRequest_shape (data : FlattenedResumeData) tok r :
  placeholderRequest data tok = inr r → ∃ v, r = ReplaceAllText tok true v.
Proof.
  rewrite /placeholderRequest.
  destruct (isPointKey (keyOf tok) && isFalsy (resolve data (keyOf tok))).
  { intros [= <-]. by eexists. }
  destruct (resolve data (keyOf tok)) as [v|]; last done.
  destruct (isSkillsKey (keyOf tok)); intros [= <-]; by eexists.
Qed.

Lemma placeholderRequests_shape (data : FlattenedResumeData) toks reqs :
  placeholderRequests data toks = inr reqs →
  Forall2 (fun tok r => ∃ v, r = ReplaceAllText tok true v) toks reqs.
Proof.
  revert reqs. induction toks as [|tok toks IH]; intros reqs; simpl.
  { intros [= <-]. constructor. }
  destruct (placeholderRequest data tok) as [|r] eqn:Hr; first done.
  destruct (placeholderRequests data toks) as [|rs]; first done.
  intros [= <-]. constructor; last by apply IH.
  by apply (placeholderRequest_shape data).
Qed.

(** X11 ([doReplacePlaceholders]): on any store the stage sends at most one
    batch; the batch has one case-sensitive replacement for each token of
    the document, in the order the tokens were first met, and no token
    twice. *)
Theorem resolver_single_batch `{Remote Store}
    (data : FlattenedResumeData) (w : World Store) :
  ∃ evs,
    trace (outcomeWorld (doReplacePlaceholders data w)) = trace w ++ evs
    ∧ (batches evs = []
       ∨ ∃ doc reqs,
           get (store w) = Resolves (Some doc) ∧ batches evs = [reqs]
           ∧ NoDup (collectPlaceholders doc)
           ∧ Forall2 (fun tok r => ∃ v, r = ReplaceAllText tok true v)
                     (collectPlaceholders doc) reqs).
Proof.
  rewrite /doReplacePlaceholders.
  destruct (get (store w)) as [|[doc|]] eqn:Hget.
  1,3: by (exists []; rewrite app_nil_r; auto).
  destruct (placeholderRequests data (collectPlaceholders doc))
    as [|reqs] eqn:Hreqs.
  { exists []. rewrite app_nil_r. auto. }
  destruct reqs as [|r rs].
  { exists []. rewrite app_nil_r. auto. }
  destruct (send_trace (r :: rs) w) as (evs & Htr & Hb).
  exists evs. split; first done. right. exists doc, (r :: rs).
  split; first done. split; first done.
  split; first apply collectPlaceholders_spec.
  by apply (placeholderRequests_shape data).
Qed.

(** *** The styler, on any store *)

Lemma boldLoop_none `{Remote Store} budget n (w : World Store) :
  boldLoop (S budget) n None w = (S n, Returned w).
Proof. done. Qed.

Lemma chunks_bold (reqs : list Request) :
  Forall isBoldRequest reqs → Forall (Forall isBoldRequest) (chunks reqs).
Proof. intros Hb. apply Forall_concat. by rewrite chunks_concat. Qed.

Lemma trySend_chunks_trace `{Remote Store} (cs : list (list Request))
    (w : World Store) :
  Forall (Forall isBoldRequest) cs →
  ∃ evs,
    trace (foldl (fun w c => trySend c WarnBoldChunk w) w cs) = trace w ++ evs
    ∧ batches evs = cs ∧ markerEdits evs = [].
Proof.
  intros Hcs. revert w. induction Hcs as [|c cs Hc _ IH]; intros w.
  { exists []. by rewrite app_nil_r. }
  cbn [foldl]. set (w1 := trySend c WarnBoldChunk w).
  destruct (IH w1) as (evs & Htr & Hb & Hm).
  assert (∃ evs1, trace w1 = trace w ++ evs1 ∧ batches evs1 = [c]
                  ∧ markerEdits evs1 = []) as (evs1 & Htr1 & Hb1 & Hm1).
  { rewrite /w1 /trySend /send. destruct (batchUpdate (store w) c).
    - exists [Sent c]. repeat split; try done.
      destruct c as [|[] [|]]; try done.
      by apply Forall_cons in Hc as [? _].
    - exists [Rejected c; Warn WarnBoldChunk]. by rewrite /= -app_assoc. }
  exists (evs1 ++ evs). split; first by rewrite Htr Htr1 app_assoc.
  split; first by rewrite batches_app Hb Hb1.
  by rewrite markerEdits_app Hm Hm1.
Qed.

Lemma boldLoop_bound `{Remote Store} budget n doc (w : World Store) :
  (n ≤ (boldLoop budget n doc w).1 ≤ n + budget)%nat
  ∧ ∃ evs,
      trace (outcomeWorld (boldLoop budget n doc w).2) = trace w ++ evs
      ∧ (length (markerEdits evs) ≤ (boldLoop budget n doc w).1 - n)%nat
      ∧ Forall stylerBatch (batches evs).
Proof.
  revert n doc w. induction budget as [|budget IH]; intros n doc w.
  { rewrite boldLoop_zero /=. split; first lia.
    exists []. rewrite app_nil_r /=. repeat split; [lia|constructor]. }
  assert ((n ≤ S n ≤ n + S budget)%nat
    ∧ ∃ evs, trace w = trace w ++ evs
        ∧ (length (markerEdits evs) ≤ S n - n)%nat
        ∧ Forall stylerBatch (batches evs)) as Hstop.
  { split; first lia. exists []. rewrite app_nil_r /=.
    repeat split; [lia|constructor]. }
  destruct doc as [doc|]; last by rewrite boldLoop_none.
  destruct (firstMarker doc) as [[entire boldText]|] eqn:Hfirst;
    last by rewrite (boldLoop_no_marker _ _ _ _ Hfirst).
  rewrite (boldLoop_found _ _ _ _ _ _ Hfirst).
  set (rep := [ReplaceAllText entire true boldText]).
  assert (stylerBatch rep) as Hrep by (left; by eexists _, _).
  assert (∀ (w1 : World Store) (r : nat * Outcome Store),
    trace w1 = trace w ++ [Sent rep] →
    ((S n ≤ r.1 ≤ S n + budget)%nat
     ∧ ∃ evs, trace (outcomeWorld r.2) = trace w1 ++ evs
         ∧ (length (markerEdits evs) ≤ r.1 - S n)%nat
         ∧ Forall stylerBatch (batches evs)) →
    (n ≤ r.1 ≤ n + S budget)%nat
     ∧ ∃ evs, trace (outcomeWorld r.2) = trace w ++ evs
         ∧ (length (markerEdits evs) ≤ r.1 - n)%nat
         ∧ Forall stylerBatch (batches evs)) as Hnext.
  { intros w1 r Hw1 (Hr & evs & Htr & Hlen & Hall). split; first lia.
    exists ([Sent rep] ++ evs).
    split; first by rewrite Htr Hw1 -app_assoc.
    rewrite markerEdits_app batches_app length_app.
    change (length (markerEdits [Sent rep])) with 1%nat.
    change (batches [Sent rep]) with [rep].
    split; first lia. by constructor. }
  rewrite /send. destruct (batchUpdate (store w) rep) as [s1|].
  2:{ cbn. split; first lia. exists [Rejected rep].
      split; first done. split; first (cbn; lia).
      cbn. by constructor. }
  set (w1 := mkWorld s1 (trace w ++ [Sent rep])).
  destruct (get (store w1)) as [|[content1|]] eqn:Hget1.
  1,3: by (apply (Hnext w1 (S n, _)); first done; cbn;
           split; first lia; exists []; rewrite app_nil_r /=;
           repeat split; [lia|constructor]).
  destruct (negb (truthyText (trim boldText))).
  { apply (Hnext w1); first done. apply IH. }
  destruct (boldRequests content1 boldText) as [|r0 rs] eqn:Hreqs.
  { apply (Hnext w1); first done. apply IH. }
  cbv zeta.
  set (w2 := foldl _ w1 _).
  assert (Forall isBoldRequest (r0 :: rs)) as Hbold
    by (rewrite -Hreqs; apply boldRequests_bold).
  destruct (trySend_chunks_trace (chunks (r0 :: rs)) w1 (chunks_bold _ Hbold))
    as (evsC & HtrC & HbC & HmC).
  fold w2 in HtrC.
  assert (Forall stylerBatch (chunks (r0 :: rs))) as Hchunks.
  { destruct (chunksOf_sizes (length (r0 :: rs)) (r0 :: rs) ltac:(lia))
      as [Hsz _].
    pose proof (chunks_bold _ Hbold) as Hcb.
    rewrite /chunks in Hcb |- *.
    apply Forall_forall. intros c Hc. right. split.
    - by eapply Forall_forall in Hcb.
    - by eapply Forall_forall in Hsz. }
  assert (∀ r : nat * Outcome Store,
    ((S n ≤ r.1 ≤ S n + budget)%nat
     ∧ ∃ evs, trace (outcomeWorld r.2) = trace w2 ++ evs
         ∧ (length (markerEdits evs) ≤ r.1 - S n)%nat
         ∧ Forall stylerBatch (batches evs)) →
    (n ≤ r.1 ≤ n + S budget)%nat
     ∧ ∃ evs, trace (outcomeWorld r.2) = trace w ++ evs
         ∧ (length (markerEdits evs) ≤ r.1 - n)%nat
         ∧ Forall stylerBatch (batches evs)) as Hnext2.
  { intros r (Hr & evs & Htr & Hlen & Hall). split; first lia.
    exists ([Sent rep] ++ evsC ++ evs).
    split.
    { rewrite Htr HtrC /w1 /=. by rewrite -!app_assoc. }
    rewrite !markerEdits_app !batches_app !length_app HmC HbC.
    change (length (markerEdits [Sent rep])) with 1%nat.
    change (batches [Sent rep]) with [rep].
    split; first (cbn [length]; lia).
    cbn [app].
    constructor; first done.
    apply Forall_app. by split. }
  destruct (get (store w2)) as [|doc2].
  - apply (Hnext2 (S n, Raised w2)). cbn. split; first lia.
    exists []. rewrite app_nil_r /=. repeat split; [lia|constructor].
  - apply Hnext2, IH.
Qed.

(** X12 (the loop of [applyBoldMarkers]): on any store and any document the
    stage makes at most fifty passes and sends at most one replacement of a
    span for each pass; every batch it sends is the replacement of one span
    by its payload or holds from one to ten style requests, so that the
    stage never deletes a range. *)
Theorem styler_pass_ceiling `{Remote Store} (w : World Store) :
  ((applyBoldMarkersPasses w).1 ≤ PASS_CEILING)%nat
  ∧ ∃ evs,
      trace (outcomeWorld (applyBoldMarkers w)) = trace w ++ evs
      ∧ (length (markerEdits evs) ≤ (applyBoldMarkersPasses w).1)%nat
      ∧ Forall stylerBatch (batches evs).
Proof.
  rewrite /applyBoldMarkers /applyBoldMarkersPasses.
  destruct (get (store w)) as [|[content|]].
  1,3: by (cbn; split; first lia; exists []; rewrite app_nil_r /=;
           repeat split; [lia|constructor]).
  destruct (boldLoop_bound PASS_CEILING 0 (Some content) w)
    as (Hr & evs & Htr & Hlen & Hall).
  split; first (cbn in Hr; lia).
  exists evs. split; first done. split; first lia. exact Hall.
Qed.

(** *** Which stages can reject *)





(** *** The keys of the flattened record *)

Lemma decimal_inj i j : decimal i = decimal j → i = j.
Proof.
  rewrite /decimal. intros Heq.
  apply DecimalNat.Unsigned.to_uint_inj.
  apply (f_equal string_of_list_ascii) in Heq.
  rewrite !string_of_list_ascii_of_string in Heq.
  apply (f_equal DecimalString.NilEmpty.uint_of_string) in Heq.
  rewrite !DecimalString.NilEmpty.usu in Heq. congruence.
Qed.

Lemma decimal_digits n : Forall (fun c => isDigit c = true) (decimal n).
Proof.
  rewrite /decimal. generalize (Nat.to_uint n). intros d.
  induction d; simpl; by constructor.
Qed.

Lemma decimal_nonempty n : decimal n ≠ [].
Proof.
  intros Hnil.
  assert (Nat.to_uint n = Decimal.Nil) as Hn.
  { revert Hnil. rewrite /decimal. by destruct (Nat.to_uint n). }
  apply (f_equal Nat.of_uint) in Hn.
  rewrite DecimalNat.Unsigned.of_to in Hn.
  subst n. by vm_compute in Hnil.
Qed.

Lemma decimal_head n : ∃ c r, decimal n = c :: r ∧ isDigit c = true.
Proof.
  pose proof (decimal_digits n) as Hd. pose proof (decimal_nonempty n).
  destruct (decimal n) as [|c r]; first done.
  apply Forall_cons in Hd as [? _]. by exists c, r.
Qed.

Lemma splitAtDigit_app (p r : text) :
  forallb (fun c => negb (isDigit c)) p = true →
  match r with c :: _ => isDigit c = true | [] => True end →
  splitAtDigit (p ++ r) = (p, r).
Proof.
  intros Hp Hr. induction p as [|c p IH]; simpl.
  { destruct r as [|c r]; first done. simpl. by rewrite Hr. }
  simpl in Hp. apply andb_prop in Hp as [Hc Hp].
  apply negb_true_iff in Hc. by rewrite Hc IH.
Qed.

Lemma literal_split (l : text) :
  forallb (fun c => negb (isDigit c)) l = true →
  splitAtDigit l = (l, []).
Proof. intros HL. rewrite -{1}(app_nil_r l). by apply splitAtDigit_app. Qed.

Lemma fieldKey_split (P : string) i :
  forallb (fun c => negb (isDigit c)) (T P) = true →
  splitAtDigit (fieldKey P i) = (T P, decimal i).
Proof.
  intros HP. apply splitAtDigit_app; first done.
  by destruct (decimal_head i) as (c & r & -> & ?).
Qed.

Lemma pointKey_split (P : string) i j :
  forallb (fun c => negb (isDigit c)) (T P) = true →
  splitAtDigit (pointKey P i j) = (T P, decimal i ++ T "_" ++ decimal j).
Proof.
  intros HP. apply splitAtDigit_app; first done.
  by destruct (decimal_head i) as (c & r & -> & ?).
Qed.

Lemma digits_split (a a' b b' : text) :
  Forall (fun c => isDigit c = true) a →
  Forall (fun c => isDigit c = true) a' →
  a ++ "_"%char :: b = a' ++ "_"%char :: b' → a = a' ∧ b = b'.
Proof.
  intros Ha. revert a'. induction Ha as [|c a Hc _ IH]; intros a' Ha' Heq.
  - destruct Ha' as [|c' a' Hc' _]; simpl in Heq.
    + by injection Heq.
    + injection Heq as <- _. done.
  - destruct Ha' as [|c' a' Hc' Ha']; simpl in Heq.
    + injection Heq as -> _. done.
    + injection Heq as -> Heq. by destruct (IH a' Ha' Heq) as [-> ->].
Qed.

Lemma pointRest_inj i j i' j' :
  decimal i ++ T "_" ++ decimal j = decimal i' ++ T "_" ++ decimal j' →
  i = i' ∧ j = j'.
Proof.
  intros Heq. apply digits_split in Heq as [Hi Hj];
    [|apply decimal_digits..].
  by rewrite (decimal_inj _ _ Hi) (decimal_inj _ _ Hj).
Qed.

Lemma pointRest_not_field i i' j' :
  decimal i ≠ decimal i' ++ T "_" ++ decimal j'.
Proof.
  intros Heq. pose proof (decimal_digits i) as Hd. rewrite Heq in Hd.
  apply Forall_app in Hd as [_ Hd]. by apply Forall_cons in Hd as [? _].
Qed.

(** *** The object after the assignments *)

Lemma assign_lookup_other (l : list (text * text))
    (m : FlattenedResumeData) k :
  (∀ v, (k, v) ∉ l) →
  foldl (fun flat kv => <[kv.1 := kv.2]> flat) m l !! k = m !! k.
Proof.
  revert m. induction l as [|[k' v'] l IH]; intros m Hk; first done.
  cbn [foldl fst snd]. rewrite (IH (<[k' := v']> m)).
  { intros v Hv. apply (Hk v). by right. }
  apply lookup_insert_ne.
  intros ->. apply (Hk v'). by left.
Qed.

Lemma assign_lookup (l : list (text * text))
    (m : FlattenedResumeData) k v :
  (k, v) ∈ l → (∀ v', (k, v') ∈ l → v' = v) →
  foldl (fun flat kv => <[kv.1 := kv.2]> flat) m l !! k = Some v.
Proof.
  revert m. induction l as [|[k' v'] l IH]; intros m Hin Hfun.
  { by apply elem_of_nil in Hin. }
  cbn [foldl fst snd].
  destruct (decide (k ∈ l.*1)) as [Hk|Hk].
  - apply list_elem_of_fmap in Hk as ([k0 v0] & -> & Hv0). cbn [fst] in *.
    assert (v0 = v) as -> by (apply Hfun; by right).
    apply IH; first done. intros v1 Hv1. apply Hfun. by right.
  - assert (∀ v0, (k, v0) ∉ l) as Hno.
    { intros v0 Hv0. apply Hk. apply list_elem_of_fmap. by exists (k, v0). }
    rewrite assign_lookup_other; first done.
    apply elem_of_cons in Hin as [[= <- <-]|Hin].
    + by rewrite lookup_insert_eq.
    + by destruct (Hno v).
Qed.

Lemma in_entries {A} (f : nat → A → list (text * text)) (l : list A) kv :
  kv ∈ mjoin (imap (fun i x => f (i + 1)%nat x) l)
  ↔ ∃ i x, l !! i = Some x ∧ kv ∈ f (S i) x.
Proof.
  rewrite list_elem_of_join. split.
  - intros (b & Hkv & Hb).
    apply elem_of_lookup_imap in Hb as (i & x & -> & Hx).
    exists i, x. by rewrite -Nat.add_1_r.
  - intros (i & x & Hx & Hkv). exists (f (i + 1)%nat x).
    split; first by rewrite Nat.add_1_r.
    apply elem_of_lookup_imap. by exists i, x.
Qed.

Lemma in_fill (len limit : nat) (g : nat → list (text * text)) kv :
  kv ∈ fillFrom len limit ≫= g ↔ ∃ i, (len < i ≤ limit)%nat ∧ kv ∈ g i.
Proof.
  rewrite list_elem_of_bind /fillFrom. split.
  - intros (i & Hkv & Hi%elem_of_seq). exists i. split; [lia|done].
  - intros (i & Hi & Hkv). exists i. split; first done.
    apply elem_of_seq. lia.
Qed.

Lemma in_points (P : string) idx (pts : list text) kv :
  kv ∈ pointAssignments P idx pts
  ↔ (∃ j p, pts !! j = Some p ∧ kv = (pointKey P idx (S j), p))
    ∨ (∃ j, (length pts < j ≤ 5)%nat ∧ kv = (pointKey P idx j, [])).
Proof.
  rewrite /pointAssignments elem_of_app elem_of_lookup_imap list_elem_of_fmap.
  split.
  - intros [(j & p & -> & Hp)|(j & -> & Hj%elem_of_seq)].
    + left. exists j, p. by rewrite Nat.add_1_r.
    + right. exists j. split; [lia|done].
  - intros [(j & p & Hp & ->)|(j & Hj & ->)].
    + left. exists j, p. by rewrite Nat.add_1_r.
    + right. exists j. split; first done. apply elem_of_seq. lia.
Qed.

Lemma in_emptyPoints (P : string) i kv :
  kv ∈ emptyPoints P i
  ↔ ∃ j, (1 ≤ j ≤ 5)%nat ∧ kv = (pointKey P i j, []).
Proof.
  rewrite /emptyPoints.
  change (map ?f ?l) with (f <$> l).
  rewrite list_elem_of_fmap. split.
  - intros (j & -> & Hj%elem_of_seq). exists j. split; [lia|done].
  - intros (j & Hj & ->). exists j. split; first done. apply elem_of_seq. lia.
Qed.

(** The cases of an assignment of [flattenStructuredData]. *)
Ltac leaves H :=
  repeat match type of H with
  | _ ∈ _ ++ _ => apply elem_of_app in H as [H|H]
  | _ ∈ _ :: _ => apply elem_of_cons in H as [H|H]
  | _ ∈ [] => by apply elem_of_nil in H
  | _ ∈ mjoin (imap (fun i x => experienceAssignments _ _) _) =>
      apply (in_entries experienceAssignments) in H as (? & ? & ? & H)
  | _ ∈ mjoin (imap (fun i x => projectAssignments _ _) _) =>
      apply (in_entries projectAssignments) in H as (? & ? & ? & H)
  | _ ∈ mjoin (imap (fun i x => educationAssignments _ _) _) =>
      apply (in_entries educationAssignments) in H as (? & ? & ? & H)
  | _ ∈ fillFrom _ _ ≫= _ => apply in_fill in H as (? & ? & H)
  | _ ∈ pointAssignments _ _ _ =>
      apply in_points in H as [(? & ? & ? & H)|(? & ? & H)]
  | _ ∈ emptyPoints _ _ => apply in_emptyPoints in H as (? & ? & H)
  | _ ∈ experienceAssignments _ _ => rewrite /experienceAssignments in H
  | _ ∈ emptyExperience _ => rewrite /emptyExperience in H
  | _ ∈ projectAssignments _ _ => rewrite /projectAssignments in H
  | _ ∈ emptyProject _ => rewrite /emptyProject in H
  | _ ∈ educationAssignments _ _ => rewrite /educationAssignments in H
  | _ ∈ emptyEducation _ => rewrite /emptyEducation in H
  | _ ∈ flattenAssignments _ _ => rewrite /flattenAssignments in H
  end.

(** Two keys are equal only within one family and at equal indices. *)
Ltac key_eq Hk :=
  apply (f_equal splitAtDigit) in Hk;
  rewrite ?fieldKey_split ?pointKey_split ?literal_split // in Hk;
  let Hp := fresh "Hp" in
  let Hr := fresh "Hr" in
  apply pair_equal_spec in Hk as [Hp Hr];
  first [ by vm_compute in Hp
        | by apply pointRest_not_field in Hr
        | by (symmetry in Hr; apply pointRest_not_field in Hr)
        | by apply decimal_nonempty in Hr
        | by (symmetry in Hr; apply decimal_nonempty in Hr)
        | apply decimal_inj in Hr
        | apply pointRest_inj in Hr as [? ?]
        | idtac ];
  clear Hp.

Ltac leaf H :=
  let Hk := fresh "Hk" in
  let Hv := fresh "Hv" in
  apply pair_equal_spec in H as [Hk Hv];
  key_eq Hk;
  repeat match goal with
         | Hl : _ !! _ = Some _ |- _ =>
             pose proof (lookup_lt_Some _ _ _ Hl); revert Hl
         end; intros;
  simplify_eq; try done; try lia.

(** An assignment is one of the list. *)
Ltac pick tac := first [ solve [tac] | left; solve [tac] | right; pick tac ].

Ltac here := cbn [app]; repeat constructor.

Ltac member tac := rewrite /flattenAssignments !elem_of_app; pick tac.

Ltac other_values :=
  let v' := fresh "v'" in
  let Hin := fresh "Hin" in
  intros v' Hin; leaves Hin; leaf Hin.

(** The lookup of a field of entry [i + 1] of a list of entries. *)
Ltac solve_field asg emp :=
  rewrite /flattenStructuredData /fieldOr;
  match goal with
  | |- context [from_option _ _ (?l !! ?i)] =>
      let e := fresh "e" in
      let He := fresh "He" in
      destruct (l !! i) as [e|] eqn:He;
      [ pose proof (lookup_lt_Some _ _ _ He);
        rewrite bool_decide_true; [lia|]; cbn [from_option];
        apply assign_lookup;
        [ member ltac:(apply (in_entries asg); exists i, e;
                       split; [done|]; unfold asg; here)
        | other_values ]
      | apply lookup_ge_None in He; cbn [from_option]; case_bool_decide;
        [ apply assign_lookup;
          [ member ltac:(apply in_fill; exists (S i); split; [lia|];
                         unfold emp; here)
          | other_values ]
        | rewrite assign_lookup_other; [|done]; other_values ] ]
  end.

Lemma flat_fields (bi : BasicInfo) (d : ResumeData) (i : nat) :
  let flat := flattenStructuredData bi d in
  let upTo (limit len : nat) (v : text) :=
    if bool_decide (i < max limit len)%nat then Some v else None in
  flat !! fieldKey "company_" (S i)
    = upTo 5%nat (length (experience d)) (fieldOr company (experience d) i)
  ∧ flat !! fieldKey "company_location_" (S i)
    = upTo 5%nat (length (experience d))
           (fieldOr companyLocation (experience d) i)
  ∧ flat !! fieldKey "experience_date_" (S i)
    = upTo 5%nat (length (experience d)) (fieldOr exp_date (experience d) i)
  ∧ flat !! fieldKey "position_" (S i)
    = upTo 5%nat (length (experience d)) (fieldOr position (experience d) i)
  ∧ flat !! fieldKey "project_" (S i)
    = upTo 3%nat (length (projects d)) (fieldOr proj_name (projects d) i)
  ∧ flat !! fieldKey "institution_" (S i)
    = upTo 5%nat (length (education d)) (fieldOr institution (education d) i)
  ∧ flat !! fieldKey "degree_" (S i)
    = upTo 5%nat (length (education d)) (fieldOr degree (education d) i)
  ∧ flat !! fieldKey "education_date_" (S i)
    = upTo 5%nat (length (education d)) (fieldOr edu_date (education d) i).
Proof.
  cbv zeta. repeat split.
  - solve_field experienceAssignments emptyExperience.
  - solve_field experienceAssignments emptyExperience.
  - solve_field experienceAssignments emptyExperience.
  - solve_field experienceAssignments emptyExperience.
  - solve_field projectAssignments emptyProject.
  - solve_field educationAssignments emptyEducation.
  - solve_field educationAssignments emptyEducation.
  - solve_field educationAssignments emptyEducation.
Qed.

(** X14 ([flattenStructuredData], the fields of the entries): the field of
    entry [i + 1] holds the value of that entry of the record; it holds the
    empty string when the record has no such entry and [i + 1] is at most
    five, three for a project; and it is not defined otherwise.  No later
    assignment of the function changes these values. *)
Theorem flatten_entry_fields (bi : BasicInfo) (d : ResumeData) (i : nat) :
  let flat := flattenStructuredData bi d in
  let upTo (limit len : nat) (v : text) :=
    if bool_decide (i < max limit len)%nat then Some v else None in
  flat !! fieldKey "company_" (S i)
    = upTo 5%nat (length (experience d)) (fieldOr company (experience d) i)
  ∧ flat !! fieldKey "company_location_" (S i)
    = upTo 5%nat (length (experience d))
           (fieldOr companyLocation (experience d) i)
  ∧ flat !! fieldKey "experience_date_" (S i)
    = upTo 5%nat (length (experience d)) (fieldOr exp_date (experience d) i)
  ∧ flat !! fieldKey "position_" (S i)
    = upTo 5%nat (length (experience d)) (fieldOr position (experience d) i)
  ∧ flat !! fieldKey "project_" (S i)
    = upTo 3%nat (length (projects d)) (fieldOr proj_name (projects d) i)
  ∧ flat !! fieldKey "institution_" (S i)
    = upTo 5%nat (length (education d)) (fieldOr institution (education d) i)
  ∧ flat !! fieldKey "degree_" (S i)
    = upTo 5%nat (length (education d)) (fieldOr degree (education d) i)
  ∧ flat !! fieldKey "education_date_" (S i)
    = upTo 5%nat (length (education d)) (fieldOr edu_date (education d) i).
Proof. apply flat_fields. Qed.


(** The lookup of point [j + 1] of entry [i + 1]. *)
Ltac solve_point asg emp get :=
  rewrite /flattenStructuredData;
  match goal with
  | |- context [pointKey _ (S ?i) (S ?j)] =>
    match goal with
    | |- context [from_option get _ (?l !! i)] =>
      let e := fresh "e" in
      let He := fresh "He" in
      destruct (l !! i) as [e|] eqn:He; cbn [from_option];
      [ pose proof (lookup_lt_Some _ _ _ He);
        let p := fresh "p" in
        let Hp := fresh "Hpt" in
        destruct (get e !! j) as [p|] eqn:Hp; cbn [default from_option];
        [ pose proof (lookup_lt_Some _ _ _ Hp);
          rewrite bool_decide_true; [lia|];
          apply assign_lookup;
          [ member ltac:(apply (in_entries asg); exists i, e;
                         split; [done|]; unfold asg;
                         apply elem_of_app; right;
                         apply in_points; left; by exists j, p)
          | other_values ]
        | apply lookup_ge_None in Hp; case_bool_decide;
          [ apply assign_lookup;
            [ member ltac:(apply (in_entries asg); exists i, e;
                           split; [done|]; unfold asg;
                           apply elem_of_app; right;
                           apply in_points; right; exists (S j);
                           split; [lia|done])
            | other_values ]
          | rewrite assign_lookup_other; [|done]; other_values ] ]
      | apply lookup_ge_None in He;
        rewrite lookup_nil; cbn [length default]; case_bool_decide;
        [ apply assign_lookup;
          [ member ltac:(apply in_fill; exists (S i); split; [lia|];
                         unfold emp; apply elem_of_app; right;
                         apply in_emptyPoints; exists (S j);
                         split; [lia|done])
          | other_values ]
        | rewrite assign_lookup_other; [|done]; other_values ] ]
    end
  end.

Lemma flat_points (bi : BasicInfo) (d : ResumeData) (i j : nat) :
  let flat := flattenStructuredData bi d in
  let expPoints := from_option exp_points [] (experience d !! i) in
  let projPoints := from_option proj_points [] (projects d !! i) in
  flat !! pointKey "experience_point_" (S i) (S j)
    = (if bool_decide (i < max 5 (length (experience d))
                        ∧ j < max 5 (length expPoints))%nat
       then Some (default [] (expPoints !! j)) else None)
  ∧ flat !! pointKey "project_point_" (S i) (S j)
    = (if bool_decide (i < max 3 (length (projects d))
                        ∧ j < max 5 (length projPoints))%nat
       then Some (default [] (projPoints !! j)) else None).
Proof.
  cbv zeta. split.
  - solve_point experienceAssignments emptyExperience exp_points.
  - solve_point projectAssignments emptyProject proj_points.
Qed.



(** X16 ([flattenStructuredData], the fields without a number): the five
    fields of the basic information and the two skills fields hold the
    values of the record. *)
Theorem flatten_scalars (bi : BasicInfo) (d : ResumeData) :
  let flat := flattenStructuredData bi d in
  flat !! T "name" = Some (bi_name bi)
  ∧ flat !! T "phone" = Some (bi_phone bi)
  ∧ flat !! T "location" = Some (bi_location bi)
  ∧ flat !! T "email" = Some (bi_email bi)
  ∧ flat !! T "link" = Some (bi_link bi)
  ∧ flat !! T "language_skills" = Some (languageSkills d)
  ∧ flat !! T "technical_skills" = Some (technicalSkills d).
Proof.
  cbv zeta. rewrite /flattenStructuredData.
  repeat split; (apply assign_lookup; [member here|other_values]).
Qed.

(** *** The stages on a flattened record *)

Lemma barRequest_flat (bi : BasicInfo) (d : ResumeData) (P Q : string)
    (a b : text) i :
  (i < 5)%nat →
  flattenStructuredData bi d !! fieldKey P (S i) = Some a →
  flattenStructuredData bi d !! fieldKey Q (S i) = Some b →
  barRequest (flattenStructuredData bi d)
             (indexedKey P (S i)) (indexedKey Q (S i))
  = separatorRequest a b.
Proof.
  intros Hi Ha Hb.
  rewrite /barRequest /ownField !indexedKey_fieldKey // Ha Hb. done.
Qed.

(** X17 ([fixCompanyLocationBars] after [flattenStructuredData]): on the
    fields of a structured record the fixer asks for one separator for each
    of the first five experiences whose company and location are both
    present, then for each of the first five educations whose institution
    and degree are both present; the entries that the fill loops added give
    no request. *)
Theorem separator_requests_of_record (bi : BasicInfo) (d : ResumeData) :
  barRequests (flattenStructuredData bi d)
  = (seq 0 5 ≫= fun i =>
       separatorRequest (fieldOr company (experience d) i)
                        (fieldOr companyLocation (experience d) i))
    ++ (seq 0 5 ≫= fun i =>
          separatorRequest (fieldOr institution (education d) i)
                           (fieldOr degree (education d) i)).
Proof.
  rewrite barRequests_pairs. f_equal; apply bind_first_five; intros i Hi.
  - destruct (flat_fields bi d i) as (Hc & Hl & _).
    rewrite bool_decide_true in Hc; first lia.
    rewrite bool_decide_true in Hl; first lia.
    by apply barRequest_flat.
  - destruct (flat_fields bi d i) as (_ & _ & _ & _ & _ & Hin & Hdeg & _).
    rewrite bool_decide_true in Hin; first lia.
    rewrite bool_decide_true in Hdeg; first lia.
    by apply barRequest_flat.
Qed.

Lemma digit_plain c :
  isDigit c = true → isSpace c = false ∧ isBrace c = false.
Proof.
  destruct c as [[] [] [] [] [] [] [] []]; by vm_compute.
Qed.

Lemma trim_id (c z : ascii) (mid : text) :
  isSpace c = false → isSpace z = false →
  trim (c :: mid ++ [z]) = c :: mid ++ [z].
Proof.
  intros Hc Hz. rewrite /trim /trimEnd trimStart_nonspace; first done.
  change (c :: mid ++ [z]) with ((c :: mid) ++ [z]).
  rewrite reverse_app. change (reverse [z]) with [z]. cbn [app].
  rewrite trimStart_nonspace; first done.
  rewrite reverse_cons reverse_involutive. done.
Qed.

Lemma decimal_last n :
  ∃ r z, decimal n = r ++ [z] ∧ isDigit z = true
         ∧ Forall (fun c => isDigit c = true) r.
Proof.
  pose proof (decimal_digits n) as Hd. pose proof (decimal_nonempty n) as Hn.
  destruct (decimal n) as [|z r _] using rev_ind; first done.
  apply Forall_app in Hd as [Hr Hz]. apply Forall_cons in Hz as [Hz _].
  by exists r, z.
Qed.

Lemma pointKey_key (P : string) i j c p :
  T P = c :: p → isSpace c = false →
  Forall (fun x => isBrace x = false) (T P) →
  keyOf (T "{{" ++ pointKey P i j ++ T "}}") = pointKey P i j.
Proof.
  intros HP Hc Hb.
  destruct (decimal_last j) as (r & z & Hj & Hz & Hr).
  rewrite keyOf_token.
  { rewrite /pointKey. apply Forall_app. split; first done.
    apply Forall_app. split.
    { eapply Forall_impl; first apply decimal_digits.
      intros x Hx. by apply digit_plain. }
    constructor; first done.
    eapply Forall_impl; first apply decimal_digits.
    intros x Hx. by apply digit_plain. }
  rewrite /pointKey HP Hj.
  replace ((c :: p) ++ decimal i ++ T "_" ++ r ++ [z])
    with (c :: (p ++ decimal i ++ T "_" ++ r) ++ [z])
    by (by rewrite /= -!app_assoc).
  apply trim_id; first done. by apply digit_plain.
Qed.

Lemma point_request (flat : FlattenedResumeData) (P : string) i j v :
  P = "experience_point_"%string ∨ P = "project_point_"%string →
  flat !! pointKey P i j = Some v →
  placeholderRequest flat (T "{{" ++ pointKey P i j ++ T "}}")
  = inr (ReplaceAllText (T "{{" ++ pointKey P i j ++ T "}}") true
           (if truthyText v then stripBold v else EMPTY_LINE_TO_REMOVE)).
Proof.
  intros HP Hv. rewrite /placeholderRequest.
  assert (keyOf (T "{{" ++ pointKey P i j ++ T "}}") = pointKey P i j)
    as ->.
  { destruct HP as [-> | ->].
    - eapply pointKey_key; [done|done|].
      apply (bool_decide_unpack _). by vm_compute.
    - eapply pointKey_key; [done|done|].
      apply (bool_decide_unpack _). by vm_compute. }
  assert (isPointKey (pointKey P i j) = true) as ->.
  { rewrite /isPointKey /includes /pointKey.
    destruct HP as [-> | ->].
    - apply orb_true_iff. left. apply bool_decide_eq_true.
      rewrite /indexOf. destruct (T "experience_point_" ++ _) eqn:E;
        rewrite -E startsWith_app; by eexists.
    - apply orb_true_iff. right. apply bool_decide_eq_true.
      rewrite /indexOf. destruct (T "project_point_" ++ _) eqn:E;
        rewrite -E startsWith_app; by eexists. }
  assert (isSkillsKey (pointKey P i j) = false) as Hskills.
  { rewrite /isSkillsKey /text_eqb. apply orb_false_iff.
    destruct HP as [-> | ->];
      (split; apply bool_decide_eq_false; intros Hk;
       apply (f_equal splitAtDigit) in Hk;
       rewrite pointKey_split // literal_split // in Hk;
       apply pair_equal_spec in Hk as [Hk _]; by vm_compute in Hk). }
  rewrite /resolve /getProp Hv. cbn [isFalsy andb].
  destruct v as [|c v]; first done.
  cbn [truthyText negb]. by rewrite Hskills.
Qed.

(** X18 ([doReplacePlaceholders] after [flattenStructuredData]): within
    the fill limits, the token of point [j + 1] of experience [i + 1] is
    replaced by the text of the point without its star pairs when the
    record has that point and it is not empty, and by the removal marker
    when the point is empty or the record has none. *)
Theorem missing_point_marked (bi : BasicInfo) (d : ResumeData) (i j : nat) :
  (i < 5)%nat → (j < 5)%nat →
  let tok := T "{{" ++ pointKey "experience_point_" (S i) (S j) ++ T "}}" in
  let point :=
    default [] (from_option exp_points [] (experience d !! i) !! j) in
  placeholderRequest (flattenStructuredData bi d) tok
  = inr (ReplaceAllText tok true
           (if truthyText point then stripBold point
            else EMPTY_LINE_TO_REMOVE)).
Proof.
  intros Hi Hj. cbv zeta.
  apply point_request; first by left.
  destruct (flat_points bi d i j) as [-> _].
  rewrite bool_decide_true; [lia|done].
Qed.

Lemma missing_point_marked_witness :
  placeholderRequest
    (flattenStructuredData
       (mkBasicInfo (T "Jane") [] [] [] [])
       (mkResume [mkExperience (T "Acme") (T "Remote") [] []
                               [T "Led **React** team"]] [] [] [] []))
    (T "{{experience_point_1_2}}")
  = inr (ReplaceAllText (T "{{experience_point_1_2}}") true
                        EMPTY_LINE_TO_REMOVE).
Proof.
  exact (missing_point_marked
           (mkBasicInfo (T "Jane") [] [] [] [])
           (mkResume [mkExperience (T "Acme") (T "Remote") [] []
                                   [T "Led **React** team"]] [] [] [] [])
           0 1 ltac:(lia) ltac:(lia)).
Defined.

(** *** The candidate test of the sweeper *)

(** X19 (the test of [removeEmptyBarLinesOneByOne] on the trimmed text): a
    paragraph is a candidate exactly when its trimmed text is empty or is
    the bar alone; the three variants of the bar with spaces in the list of
    the test never equal a trimmed text. *)
Theorem candidate_blank_or_bare_bar (m : StructuralElement) :
  blankOrBar m = true
  ↔ trim (getParagraphText m) = [] ∨ trim (getParagraphText m) = T "|".
Proof.
  rewrite /blankOrBar /isEmptyText orb_true_iff text_eqb_eq isBar_trim.
  done.
Qed.

(** *** The tokens and the spans that the stages look for *)

(** X20 (the scan of [doReplacePlaceholders]): the set of tokens has no
    duplicate, and a token is in it exactly when the pattern matches it
    within one text run of the document; a token whose characters lie in
    two runs is not found. *)
Theorem tokens_found_within_runs (doc : Content) :
  NoDup (collectPlaceholders doc)
  ∧ ∀ tok, tok ∈ collectPlaceholders doc
           ↔ ∃ c, c ∈ textRuns doc ∧ tok ∈ matchPlaceholders c 0.
Proof. apply collectPlaceholders_spec. Qed.

Lemma spanId_spec (s : text) :
  s = (spanId s).1 ++ (spanId s).2
  ∧ Forall (fun c => isIdChar c = true) (spanId s).1.
Proof.
  induction s as [|c s [IHa IHb]]; simpl; first done.
  destruct (isIdChar c) eqn:Hc; simpl; last done.
  destruct (spanId s) as [r rest]; cbn [fst snd] in *.
  split; first by rewrite {1}IHa. by constructor.
Qed.

Lemma markerPayload_spec (close s b : text) :
  markerPayload close s = Some b →
  b ≠ [] ∧ ∃ rest, s = b ++ close ++ rest.
Proof.
  revert b. induction s as [|c s IH]; intros b; first done.
  rewrite markerPayload_cons.
  destruct (startsWith close s) eqn:Hsw.
  - intros [= <-]. split; first done.
    apply startsWith_spec in Hsw as [rest ->]. by exists rest.
  - destruct (markerPayload close s) as [b'|]; last done.
    intros [= <-]. destruct (IH b' eq_refl) as [_ [rest ->]].
    split; first done. by exists rest.
Qed.

Lemma markerAt_shape (s entire boldText : text) :
  markerAt s = Some (entire, boldText) →
  ∃ id rest, validId id ∧ boldText ≠ []
             ∧ entire = markerText id boldText ∧ s = entire ++ rest.
Proof.
  rewrite /markerAt.
  destruct (startsWith (T "@@BOLD-") s) eqn:Hopen; last done.
  apply startsWith_spec in Hopen as [r ->].
  change (drop 7 (T "@@BOLD-" ++ r)) with r.
  destruct (spanId_spec r) as [Hr Hid].
  destruct (spanId r) as [id rest]; cbn [fst snd] in *.
  destruct id as [|c id]; first done.
  cbn [truthyText andb].
  destruct (startsWith (T "@@") rest) eqn:Hat; last done.
  apply startsWith_spec in Hat as [r2 ->].
  change (drop 2 (T "@@" ++ r2)) with r2.
  destruct (markerPayload (closeMarker (c :: id)) r2) as [b|] eqn:Hpay;
    last done.
  intros [= <- <-].
  apply markerPayload_spec in Hpay as [Hb [r3 ->]].
  exists (c :: id), r3. split; first done. split; first done.
  split; first done.
  rewrite Hr /markerText /openMarker. simpl. by rewrite -!app_assoc.
Qed.

Lemma matchMarker_shape (s entire boldText : text) :
  matchMarker s = Some (entire, boldText) →
  ∃ a id b, validId id ∧ boldText ≠ []
            ∧ entire = markerText id boldText ∧ s = a ++ entire ++ b
            ∧ ∀ q, (q < length a)%nat → markerAt (drop q s) = None.
Proof.
  induction s as [|c s IH]; rewrite matchMarker_unfold.
  { destruct (markerAt []) as [m|] eqn:Hm; last done.
    intros [= ->]. apply markerAt_shape in Hm as (id & rest & ? & ? & ? & ?).
    exists [], id, rest. repeat (split; first done). simpl. intros; lia. }
  destruct (markerAt (c :: s)) as [m|] eqn:Hm.
  - intros [= ->]. apply markerAt_shape in Hm as (id & rest & ? & ? & ? & ?).
    exists [], id, rest. repeat (split; first done). simpl. intros; lia.
  - intros Hrec. destruct (IH Hrec) as (a & id & b & ? & ? & ? & -> & Hleft).
    exists (c :: a), id, b. repeat (split; first done).
    intros [|q] Hq; first done. apply Hleft. simpl in Hq. lia.
Qed.

(** X21 (the pattern of [applyBoldMarkers]): the span that a pass replaces
    is the leftmost match of the paragraph; it is an opening delimiter, a
    payload that is not empty and a closing delimiter with the same id, and
    the id is a non-empty word of lower-case letters and digits. *)
Theorem matchMarker_sound (s entire boldText : text) :
  matchMarker s = Some (entire, boldText) →
  ∃ a id b, validId id ∧ boldText ≠ []
            ∧ entire = openMarker id ++ boldText ++ closeMarker id
            ∧ s = a ++ entire ++ b
            ∧ ∀ q, (q < length a)%nat → markerAt (drop q s) = None.
Proof. apply matchMarker_shape. Qed.

Lemma matchMarker_sound_witness :
  ∃ a id b, validId id ∧ T "React" ≠ []
            ∧ T "@@BOLD-a1@@React@@BOLD-a1-END@@"
              = openMarker id ++ T "React" ++ closeMarker id
            ∧ T "Led @@BOLD-a1@@React@@BOLD-a1-END@@ team"
              = a ++ T "@@BOLD-a1@@React@@BOLD-a1-END@@" ++ b
            ∧ ∀ q, (q < length a)%nat →
                   markerAt (drop q (T "Led @@BOLD-a1@@React@@BOLD-a1-END@@ team"))
                   = None.
Proof.
  apply (matchMarker_sound (T "Led @@BOLD-a1@@React@@BOLD-a1-END@@ team")).
  by vm_compute.
Defined.
